(** * Magic-bitboard attack tables of [src/bitboard.cpp]

    A shallow embedding of the table construction code of
    [src/bitboard.cpp] (namespace [Stockfish]) together with the properties
    of the ray-walking oracle, the Carry-Rippler subset enumeration, the
    attack-table builder and the derived line/between tables.

    Bitboards are 64-bit unsigned words, embedded as [Z] in [0, 2^64) with
    the wrap-around of subtraction, multiplication and complement written
    out.  Squares are the C++ [enum Square : int], embedded as [Z]. *)

From Stdlib Require Import ZArith List Lia Bool Sorted String Ascii DecimalString
  MSetPositive.
From stdpp Require Import base list.
Import ListNotations.

Local Open Scope Z_scope.

(** ** Board geometry *)

Definition Bitboard := Z.
Definition Square := Z.
Definition Direction := Z.

Inductive PieceType :=
  NO_PIECE_TYPE | PAWN | KNIGHT | BISHOP | ROOK | QUEEN | KING.

Definition PieceType_eqb (a b : PieceType) : bool :=
  match a, b with
  | NO_PIECE_TYPE, NO_PIECE_TYPE | PAWN, PAWN | KNIGHT, KNIGHT
  | BISHOP, BISHOP | ROOK, ROOK | QUEEN, QUEEN | KING, KING => true
  | _, _ => false
  end.

(** Modelled from the spec: the square enumeration of [types.h] is not part
    of the sources; squares are numbered rank-major, [square = rank * 8 +
    file], from [SQ_A1 = 0] to [SQ_H8 = 63]. *)
Definition SQ_A1 : Square := 0.
Definition SQ_B1 : Square := 1.
Definition SQ_C1 : Square := 2.
Definition SQ_D1 : Square := 3.
Definition SQ_E1 : Square := 4.
Definition SQ_F1 : Square := 5.
Definition SQ_G1 : Square := 6.
Definition SQ_H1 : Square := 7.
Definition SQ_A2 : Square := 8.
Definition SQ_B2 : Square := 9.
Definition SQ_C2 : Square := 10.
Definition SQ_D2 : Square := 11.
Definition SQ_E2 : Square := 12.
Definition SQ_F2 : Square := 13.
Definition SQ_G2 : Square := 14.
Definition SQ_H2 : Square := 15.
Definition SQ_A3 : Square := 16.
Definition SQ_B3 : Square := 17.
Definition SQ_C3 : Square := 18.
Definition SQ_D3 : Square := 19.
Definition SQ_E3 : Square := 20.
Definition SQ_F3 : Square := 21.
Definition SQ_G3 : Square := 22.
Definition SQ_H3 : Square := 23.
Definition SQ_A4 : Square := 24.
Definition SQ_B4 : Square := 25.
Definition SQ_C4 : Square := 26.
Definition SQ_D4 : Square := 27.
Definition SQ_E4 : Square := 28.
Definition SQ_F4 : Square := 29.
Definition SQ_G4 : Square := 30.
Definition SQ_H4 : Square := 31.
Definition SQ_A5 : Square := 32.
Definition SQ_B5 : Square := 33.
Definition SQ_C5 : Square := 34.
Definition SQ_D5 : Square := 35.
Definition SQ_E5 : Square := 36.
Definition SQ_F5 : Square := 37.
Definition SQ_G5 : Square := 38.
Definition SQ_H5 : Square := 39.
Definition SQ_A6 : Square := 40.
Definition SQ_B6 : Square := 41.
Definition SQ_C6 : Square := 42.
Definition SQ_D6 : Square := 43.
Definition SQ_E6 : Square := 44.
Definition SQ_F6 : Square := 45.
Definition SQ_G6 : Square := 46.
Definition SQ_H6 : Square := 47.
Definition SQ_A7 : Square := 48.
Definition SQ_B7 : Square := 49.
Definition SQ_C7 : Square := 50.
Definition SQ_D7 : Square := 51.
Definition SQ_E7 : Square := 52.
Definition SQ_F7 : Square := 53.
Definition SQ_G7 : Square := 54.
Definition SQ_H7 : Square := 55.
Definition SQ_A8 : Square := 56.
Definition SQ_B8 : Square := 57.
Definition SQ_C8 : Square := 58.
Definition SQ_D8 : Square := 59.
Definition SQ_E8 : Square := 60.
Definition SQ_F8 : Square := 61.
Definition SQ_G8 : Square := 62.
Definition SQ_H8 : Square := 63.

Definition SQUARE_NB : Z := 64.

(** Modelled from the spec: the direction offsets of [types.h], consistent
    with the rank-major numbering (one rank is 8 squares, one file is 1). *)
Definition NORTH : Direction := 8.
Definition EAST : Direction := 1.
Definition SOUTH : Direction := -8.
Definition WEST : Direction := -1.
Definition NORTH_EAST : Direction := NORTH + EAST.
Definition SOUTH_EAST : Direction := SOUTH + EAST.
Definition SOUTH_WEST : Direction := SOUTH + WEST.
Definition NORTH_WEST : Direction := NORTH + WEST.

(** Modelled from the spec: [is_ok], [file_of] and [rank_of] of [types.h]
    (square <-> file/rank conversion of the rank-major numbering). *)
Definition is_ok (s : Square) : bool := (SQ_A1 <=? s) && (s <=? SQ_H8).
Definition file_of (s : Square) : Z := Z.land s 7.
Definition rank_of (s : Square) : Z := Z.shiftr s 3.

(** The squares in the order of the loops
    [for (Square s = SQ_A1; s <= SQ_H8; ++s)]. *)
Definition all_squares : list Square := map Z.of_nat (seq 0 64).

(** [distance<File>], [distance<Rank>] and the [SquareDistance] entry that
    [Bitboards::init] stores for a pair of squares (line 92). *)
Definition distance_File (x y : Square) : Z := Z.abs (file_of x - file_of y).
Definition distance_Rank (x y : Square) : Z := Z.abs (rank_of x - rank_of y).
Definition SquareDistance (s1 s2 : Square) : Z :=
  Z.max (distance_File s1 s2) (distance_Rank s1 s2).

(** Modelled from the spec: [distance(x, y)] of [bitboard.h] reads the
    [SquareDistance] table, i.e. the Chebyshev distance. *)
Definition distance (x y : Square) : Z := SquareDistance x y.

(** [SquareBB[s] = (1ULL << s)] (line 88) and its accessor. *)
Definition square_bb (s : Square) : Bitboard := Z.shiftl 1 s.

(** The C++ operators [Bitboard & Square] and [Bitboard | Square] go
    through [square_bb]. *)
Definition bb_and_sq (b : Bitboard) (s : Square) : Bitboard :=
  Z.land b (square_bb s).
Definition bb_or_sq (b : Bitboard) (s : Square) : Bitboard :=
  Z.lor b (square_bb s).

(** Complement of a 64-bit word ([~b] on [uint64_t]). *)
Definition bb_mask64 : Z := 0xFFFFFFFFFFFFFFFF.
Definition bb_not (b : Bitboard) : Bitboard := Z.lxor b bb_mask64.

(** Modelled from the spec: the fixed edge masks of [bitboard.h]. *)
Definition FileABB : Bitboard := 0x0101010101010101.
Definition FileHBB : Bitboard := Z.shiftl FileABB 7.
Definition Rank1BB : Bitboard := 0xFF.
Definition Rank8BB : Bitboard := Z.shiftl Rank1BB (8 * 7).
Definition rank_bb (s : Square) : Bitboard := Z.shiftl Rank1BB (8 * rank_of s).
Definition file_bb (s : Square) : Bitboard := Z.shiftl FileABB (file_of s).

(** ** [safe_destination] (lines 53-56) *)

Definition safe_destination (s : Square) (step : Z) : Bitboard :=
  let to := s + step in
  if is_ok to && (distance s to <=? 2) then square_bb to else 0.

(** ** [sliding_attack] (lines 129-143) *)

Definition RookDirections : list Direction := [NORTH; SOUTH; EAST; WEST].
Definition BishopDirections : list Direction :=
  [NORTH_EAST; SOUTH_EAST; SOUTH_WEST; NORTH_WEST].

Definition directions (pt : PieceType) : list Direction :=
  if PieceType_eqb pt ROOK then RookDirections else BishopDirections.

(** The inner loop
    [while (safe_destination(s, d) && !(occupied & s)) attacks |= (s += d);]
    with the loop state [(s, attacks)].  [None] means the fuel ran out
    before the guard became false. *)
Fixpoint ray_loop (fuel : nat) (d : Direction) (occupied : Bitboard)
    (s : Square) (attacks : Bitboard) : option Bitboard :=
  if negb (safe_destination s d =? 0) && (bb_and_sq occupied s =? 0) then
    match fuel with
    | O => None
    | S fuel' =>
        let s' := s + d in
        ray_loop fuel' d occupied s' (bb_or_sq attacks s')
    end
  else Some attacks.

(** The outer loop over the four directions of the piece type. *)
Fixpoint rays_loop (fuel : nat) (ds : list Direction) (occupied : Bitboard)
    (sq : Square) (attacks : Bitboard) : option Bitboard :=
  match ds with
  | [] => Some attacks
  | d :: ds' =>
      match ray_loop fuel d occupied sq attacks with
      | Some attacks' => rays_loop fuel ds' occupied sq attacks'
      | None => None
      end
  end.

Definition sliding_attack_fuel (fuel : nat) (pt : PieceType) (sq : Square)
    (occupied : Bitboard) : option Bitboard :=
  rays_loop fuel (directions pt) occupied sq 0.

(** A ray on the 8x8 board makes at most 7 steps, so 7 units of fuel are
    enough (lemma [sliding_attack_fuel_total] below); the default is never
    used for a square on the board. *)
Definition ray_fuel : nat := 7.

Definition sliding_attack (pt : PieceType) (sq : Square) (occupied : Bitboard)
    : Bitboard :=
  match sliding_attack_fuel ray_fuel pt sq occupied with
  | Some attacks => attacks
  | None => 0
  end.

(** ** [edges] (lines 145-148) *)

Definition edges (sq : Square) : Bitboard :=
  Z.lor (Z.land (Z.lor Rank1BB Rank8BB) (bb_not (rank_bb sq)))
        (Z.land (Z.lor FileABB FileHBB) (bb_not (file_bb sq))).

(** ** Magic descriptors (lines 150-288) *)

(** Modelled from the spec: the descriptor [Magic<bits>] of [bitboard.h]
    holds the relevant-occupancy mask and the 64-bit multiplier; [bits] is
    the template parameter. *)
Record Magic := mkMagic { mask : Bitboard; magic : Bitboard }.

(** Modelled from the spec: the two bit-width constants of [bitboard.h]
    (12 for rook-like rays, 9 for bishop-like rays). *)
Definition RookBits : Z := 12.
Definition BishopBits : Z := 9.

Definition init_rook_magic : list Magic :=
  [
    mkMagic (Z.land (sliding_attack ROOK SQ_A1 0) (bb_not (edges SQ_A1))) 0x0000002044010082;
    mkMagic (Z.land (sliding_attack ROOK SQ_B1 0) (bb_not (edges SQ_B1))) 0x0000404208010084;
    mkMagic (Z.land (sliding_attack ROOK SQ_C1 0) (bb_not (edges SQ_C1))) 0x0001000820840021;
    mkMagic (Z.land (sliding_attack ROOK SQ_D1 0) (bb_not (edges SQ_D1))) 0x0000080004100201;
    mkMagic (Z.land (sliding_attack ROOK SQ_E1 0) (bb_not (edges SQ_E1))) 0x0001002044100009;
    mkMagic (Z.land (sliding_attack ROOK SQ_F1 0) (bb_not (edges SQ_F1))) 0x0000a50040a00111;
    mkMagic (Z.land (sliding_attack ROOK SQ_G1 0) (bb_not (edges SQ_G1))) 0x00050010a283c001;
    mkMagic (Z.land (sliding_attack ROOK SQ_H1 0) (bb_not (edges SQ_H1))) 0x0013110080244202;
    mkMagic (Z.land (sliding_attack ROOK SQ_A2 0) (bb_not (edges SQ_A2))) 0x00002c0058802600;
    mkMagic (Z.land (sliding_attack ROOK SQ_B2 0) (bb_not (edges SQ_B2))) 0x0001080850022400;
    mkMagic (Z.land (sliding_attack ROOK SQ_C2 0) (bb_not (edges SQ_C2))) 0x0007000400009100;
    mkMagic (Z.land (sliding_attack ROOK SQ_D2 0) (bb_not (edges SQ_D2))) 0x000a001058602200;
    mkMagic (Z.land (sliding_attack ROOK SQ_E2 0) (bb_not (edges SQ_E2))) 0x0008104020040200;
    mkMagic (Z.land (sliding_attack ROOK SQ_F2 0) (bb_not (edges SQ_F2))) 0x0020028044900080;
    mkMagic (Z.land (sliding_attack ROOK SQ_G2 0) (bb_not (edges SQ_G2))) 0x0040002000100020;
    mkMagic (Z.land (sliding_attack ROOK SQ_H2 0) (bb_not (edges SQ_H2))) 0x00ed8005c2610100;
    mkMagic (Z.land (sliding_attack ROOK SQ_A3 0) (bb_not (edges SQ_A3))) 0x0000330040960004;
    mkMagic (Z.land (sliding_attack ROOK SQ_B3 0) (bb_not (edges SQ_B3))) 0x00025014480c0009;
    mkMagic (Z.land (sliding_attack ROOK SQ_C3 0) (bb_not (edges SQ_C3))) 0x0004000802010004;
    mkMagic (Z.land (sliding_attack ROOK SQ_D3 0) (bb_not (edges SQ_D3))) 0x0006009001420004;
    mkMagic (Z.land (sliding_attack ROOK SQ_E3 0) (bb_not (edges SQ_E3))) 0x0015002010010002;
    mkMagic (Z.land (sliding_attack ROOK SQ_F3 0) (bb_not (edges SQ_F3))) 0x0020001004001000;
    mkMagic (Z.land (sliding_attack ROOK SQ_G3 0) (bb_not (edges SQ_G3))) 0x000a021100220008;
    mkMagic (Z.land (sliding_attack ROOK SQ_H3 0) (bb_not (edges SQ_H3))) 0x0080004000204010;
    mkMagic (Z.land (sliding_attack ROOK SQ_A4 0) (bb_not (edges SQ_A4))) 0x0001000491000246;
    mkMagic (Z.land (sliding_attack ROOK SQ_B4 0) (bb_not (edges SQ_B4))) 0x0003100a04001658;
    mkMagic (Z.land (sliding_attack ROOK SQ_C4 0) (bb_not (edges SQ_C4))) 0x0000200080200100;
    mkMagic (Z.land (sliding_attack ROOK SQ_D4 0) (bb_not (edges SQ_D4))) 0x0000402008008004;
    mkMagic (Z.land (sliding_attack ROOK SQ_E4 0) (bb_not (edges SQ_E4))) 0x0004000200100100;
    mkMagic (Z.land (sliding_attack ROOK SQ_F4 0) (bb_not (edges SQ_F4))) 0x0010002000200402;
    mkMagic (Z.land (sliding_attack ROOK SQ_G4 0) (bb_not (edges SQ_G4))) 0x0040000800100010;
    mkMagic (Z.land (sliding_attack ROOK SQ_H4 0) (bb_not (edges SQ_H4))) 0x00b4c003888001a0;
    mkMagic (Z.land (sliding_attack ROOK SQ_A5 0) (bb_not (edges SQ_A5))) 0x0001440200008829;
    mkMagic (Z.land (sliding_attack ROOK SQ_B5 0) (bb_not (edges SQ_B5))) 0x0002000040008001;
    mkMagic (Z.land (sliding_attack ROOK SQ_C5 0) (bb_not (edges SQ_C5))) 0x0002003a00081910;
    mkMagic (Z.land (sliding_attack ROOK SQ_D5 0) (bb_not (edges SQ_D5))) 0x0000200200041001;
    mkMagic (Z.land (sliding_attack ROOK SQ_E5 0) (bb_not (edges SQ_E5))) 0x0010100080080002;
    mkMagic (Z.land (sliding_attack ROOK SQ_F5 0) (bb_not (edges SQ_F5))) 0x0000200020040008;
    mkMagic (Z.land (sliding_attack ROOK SQ_G5 0) (bb_not (edges SQ_G5))) 0x000c400100082480;
    mkMagic (Z.land (sliding_attack ROOK SQ_H5 0) (bb_not (edges SQ_H5))) 0x0080002040004013;
    mkMagic (Z.land (sliding_attack ROOK SQ_A6 0) (bb_not (edges SQ_A6))) 0x0001f2000286224c;
    mkMagic (Z.land (sliding_attack ROOK SQ_B6 0) (bb_not (edges SQ_B6))) 0x0001440010009218;
    mkMagic (Z.land (sliding_attack ROOK SQ_C6 0) (bb_not (edges SQ_C6))) 0x0003e80040200210;
    mkMagic (Z.land (sliding_attack ROOK SQ_D6 0) (bb_not (edges SQ_D6))) 0x0000010004100800;
    mkMagic (Z.land (sliding_attack ROOK SQ_E6 0) (bb_not (edges SQ_E6))) 0x0008002020040002;
    mkMagic (Z.land (sliding_attack ROOK SQ_F6 0) (bb_not (edges SQ_F6))) 0x0002020008104080;
    mkMagic (Z.land (sliding_attack ROOK SQ_G6 0) (bb_not (edges SQ_G6))) 0x0000404000200008;
    mkMagic (Z.land (sliding_attack ROOK SQ_H6 0) (bb_not (edges SQ_H6))) 0x007a808000400ad2;
    mkMagic (Z.land (sliding_attack ROOK SQ_A7 0) (bb_not (edges SQ_A7))) 0x004200004091040a;
    mkMagic (Z.land (sliding_attack ROOK SQ_B7 0) (bb_not (edges SQ_B7))) 0x0032000041180200;
    mkMagic (Z.land (sliding_attack ROOK SQ_C7 0) (bb_not (edges SQ_C7))) 0x0001000400080100;
    mkMagic (Z.land (sliding_attack ROOK SQ_D7 0) (bb_not (edges SQ_D7))) 0x0001000100040800;
    mkMagic (Z.land (sliding_attack ROOK SQ_E7 0) (bb_not (edges SQ_E7))) 0x0044004010082004;
    mkMagic (Z.land (sliding_attack ROOK SQ_F7 0) (bb_not (edges SQ_F7))) 0x0022001080042040;
    mkMagic (Z.land (sliding_attack ROOK SQ_G7 0) (bb_not (edges SQ_G7))) 0x0032000a00208240;
    mkMagic (Z.land (sliding_attack ROOK SQ_H7 0) (bb_not (edges SQ_H7))) 0x0040800080400010;
    mkMagic (Z.land (sliding_attack ROOK SQ_A8 0) (bb_not (edges SQ_A8))) 0x0200020400288043;
    mkMagic (Z.land (sliding_attack ROOK SQ_B8 0) (bb_not (edges SQ_B8))) 0x040008100402138d;
    mkMagic (Z.land (sliding_attack ROOK SQ_C8 0) (bb_not (edges SQ_C8))) 0x0a004400180a0010;
    mkMagic (Z.land (sliding_attack ROOK SQ_D8 0) (bb_not (edges SQ_D8))) 0x0100048100100800;
    mkMagic (Z.land (sliding_attack ROOK SQ_E8 0) (bb_not (edges SQ_E8))) 0x0900082002100005;
    mkMagic (Z.land (sliding_attack ROOK SQ_F8 0) (bb_not (edges SQ_F8))) 0x0a00100880402004;
    mkMagic (Z.land (sliding_attack ROOK SQ_G8 0) (bb_not (edges SQ_G8))) 0x1100088410400100;
    mkMagic (Z.land (sliding_attack ROOK SQ_H8 0) (bb_not (edges SQ_H8))) 0x0200110200204080
  ].

Definition init_bishop_magic : list Magic :=
  [
    mkMagic (Z.land (sliding_attack BISHOP SQ_A1 0) (bb_not (edges SQ_A1))) 0x0000500102002008;
    mkMagic (Z.land (sliding_attack BISHOP SQ_B1 0) (bb_not (edges SQ_B1))) 0x0000010101000880;
    mkMagic (Z.land (sliding_attack BISHOP SQ_C1 0) (bb_not (edges SQ_C1))) 0x0000000042008100;
    mkMagic (Z.land (sliding_attack BISHOP SQ_D1 0) (bb_not (edges SQ_D1))) 0x0000000001200404;
    mkMagic (Z.land (sliding_attack BISHOP SQ_E1 0) (bb_not (edges SQ_E1))) 0x0000000002008022;
    mkMagic (Z.land (sliding_attack BISHOP SQ_F1 0) (bb_not (edges SQ_F1))) 0x0000000201010040;
    mkMagic (Z.land (sliding_attack BISHOP SQ_G1 0) (bb_not (edges SQ_G1))) 0x0000002080080080;
    mkMagic (Z.land (sliding_attack BISHOP SQ_H1 0) (bb_not (edges SQ_H1))) 0x000100080084004c;
    mkMagic (Z.land (sliding_attack BISHOP SQ_A2 0) (bb_not (edges SQ_A2))) 0x0000808100040400;
    mkMagic (Z.land (sliding_attack BISHOP SQ_B2 0) (bb_not (edges SQ_B2))) 0x0040100401004200;
    mkMagic (Z.land (sliding_attack BISHOP SQ_C2 0) (bb_not (edges SQ_C2))) 0x0000680208020000;
    mkMagic (Z.land (sliding_attack BISHOP SQ_D2 0) (bb_not (edges SQ_D2))) 0x0000000120020104;
    mkMagic (Z.land (sliding_attack BISHOP SQ_E2 0) (bb_not (edges SQ_E2))) 0x0000000201010028;
    mkMagic (Z.land (sliding_attack BISHOP SQ_F2 0) (bb_not (edges SQ_F2))) 0x000002000a0100a6;
    mkMagic (Z.land (sliding_attack BISHOP SQ_G2 0) (bb_not (edges SQ_G2))) 0x0001001202004000;
    mkMagic (Z.land (sliding_attack BISHOP SQ_H2 0) (bb_not (edges SQ_H2))) 0x00040200840087f1;
    mkMagic (Z.land (sliding_attack BISHOP SQ_A3 0) (bb_not (edges SQ_A3))) 0x0018061012002180;
    mkMagic (Z.land (sliding_attack BISHOP SQ_B3 0) (bb_not (edges SQ_B3))) 0x0008002100400020;
    mkMagic (Z.land (sliding_attack BISHOP SQ_C3 0) (bb_not (edges SQ_C3))) 0x0000a00d40800700;
    mkMagic (Z.land (sliding_attack BISHOP SQ_D3 0) (bb_not (edges SQ_D3))) 0x0000205004000480;
    mkMagic (Z.land (sliding_attack BISHOP SQ_E3 0) (bb_not (edges SQ_E3))) 0x0000002008003020;
    mkMagic (Z.land (sliding_attack BISHOP SQ_F3 0) (bb_not (edges SQ_F3))) 0x0000402080424020;
    mkMagic (Z.land (sliding_attack BISHOP SQ_G3 0) (bb_not (edges SQ_G3))) 0x0004020044041000;
    mkMagic (Z.land (sliding_attack BISHOP SQ_H3 0) (bb_not (edges SQ_H3))) 0x0004040201000800;
    mkMagic (Z.land (sliding_attack BISHOP SQ_A4 0) (bb_not (edges SQ_A4))) 0x00080e090062000f;
    mkMagic (Z.land (sliding_attack BISHOP SQ_B4 0) (bb_not (edges SQ_B4))) 0x0010040080880410;
    mkMagic (Z.land (sliding_attack BISHOP SQ_C4 0) (bb_not (edges SQ_C4))) 0x0000220020040400;
    mkMagic (Z.land (sliding_attack BISHOP SQ_D4 0) (bb_not (edges SQ_D4))) 0x0008010040100802;
    mkMagic (Z.land (sliding_attack BISHOP SQ_E4 0) (bb_not (edges SQ_E4))) 0x0002010040040040;
    mkMagic (Z.land (sliding_attack BISHOP SQ_F4 0) (bb_not (edges SQ_F4))) 0x0000108200401200;
    mkMagic (Z.land (sliding_attack BISHOP SQ_G4 0) (bb_not (edges SQ_G4))) 0x0000820024c80021;
    mkMagic (Z.land (sliding_attack BISHOP SQ_H4 0) (bb_not (edges SQ_H4))) 0x0000100400100080;
    mkMagic (Z.land (sliding_attack BISHOP SQ_A5 0) (bb_not (edges SQ_A5))) 0x0002820001004010;
    mkMagic (Z.land (sliding_attack BISHOP SQ_B5 0) (bb_not (edges SQ_B5))) 0x0000090002008040;
    mkMagic (Z.land (sliding_attack BISHOP SQ_C5 0) (bb_not (edges SQ_C5))) 0x001001000020110e;
    mkMagic (Z.land (sliding_attack BISHOP SQ_D5 0) (bb_not (edges SQ_D5))) 0x0004040030410042;
    mkMagic (Z.land (sliding_attack BISHOP SQ_E5 0) (bb_not (edges SQ_E5))) 0x0004010010089080;
    mkMagic (Z.land (sliding_attack BISHOP SQ_F5 0) (bb_not (edges SQ_F5))) 0x000c010002040c00;
    mkMagic (Z.land (sliding_attack BISHOP SQ_G5 0) (bb_not (edges SQ_G5))) 0x0000100060020480;
    mkMagic (Z.land (sliding_attack BISHOP SQ_H5 0) (bb_not (edges SQ_H5))) 0x0004010102080108;
    mkMagic (Z.land (sliding_attack BISHOP SQ_A6 0) (bb_not (edges SQ_A6))) 0x0000807810040200;
    mkMagic (Z.land (sliding_attack BISHOP SQ_B6 0) (bb_not (edges SQ_B6))) 0x0000083021040020;
    mkMagic (Z.land (sliding_attack BISHOP SQ_C6 0) (bb_not (edges SQ_C6))) 0x0004020600840100;
    mkMagic (Z.land (sliding_attack BISHOP SQ_D6 0) (bb_not (edges SQ_D6))) 0x0018040040401fc2;
    mkMagic (Z.land (sliding_attack BISHOP SQ_E6 0) (bb_not (edges SQ_E6))) 0x003c001801098204;
    mkMagic (Z.land (sliding_attack BISHOP SQ_F6 0) (bb_not (edges SQ_F6))) 0x0002042010200820;
    mkMagic (Z.land (sliding_attack BISHOP SQ_G6 0) (bb_not (edges SQ_G6))) 0x0001004028010100;
    mkMagic (Z.land (sliding_attack BISHOP SQ_H6 0) (bb_not (edges SQ_H6))) 0x0000804000808100;
    mkMagic (Z.land (sliding_attack BISHOP SQ_A7 0) (bb_not (edges SQ_A7))) 0x0000004010080208;
    mkMagic (Z.land (sliding_attack BISHOP SQ_B7 0) (bb_not (edges SQ_B7))) 0x0000010020820040;
    mkMagic (Z.land (sliding_attack BISHOP SQ_C7 0) (bb_not (edges SQ_C7))) 0x0000020104004000;
    mkMagic (Z.land (sliding_attack BISHOP SQ_D7 0) (bb_not (edges SQ_D7))) 0x0000140101011c72;
    mkMagic (Z.land (sliding_attack BISHOP SQ_E7 0) (bb_not (edges SQ_E7))) 0x0000004400402640;
    mkMagic (Z.land (sliding_attack BISHOP SQ_F7 0) (bb_not (edges SQ_F7))) 0x0000020010108160;
    mkMagic (Z.land (sliding_attack BISHOP SQ_G7 0) (bb_not (edges SQ_G7))) 0x0000010808008002;
    mkMagic (Z.land (sliding_attack BISHOP SQ_H7 0) (bb_not (edges SQ_H7))) 0x0000040808010006;
    mkMagic (Z.land (sliding_attack BISHOP SQ_A8 0) (bb_not (edges SQ_A8))) 0x0002040082002000;
    mkMagic (Z.land (sliding_attack BISHOP SQ_B8 0) (bb_not (edges SQ_B8))) 0x00040080880040f6;
    mkMagic (Z.land (sliding_attack BISHOP SQ_C8 0) (bb_not (edges SQ_C8))) 0x00000800401fc800;
    mkMagic (Z.land (sliding_attack BISHOP SQ_D8 0) (bb_not (edges SQ_D8))) 0x0000808041000000;
    mkMagic (Z.land (sliding_attack BISHOP SQ_E8 0) (bb_not (edges SQ_E8))) 0x0008020004014060;
    mkMagic (Z.land (sliding_attack BISHOP SQ_F8 0) (bb_not (edges SQ_F8))) 0x0030040181041018;
    mkMagic (Z.land (sliding_attack BISHOP SQ_G8 0) (bb_not (edges SQ_G8))) 0x0000202100202100;
    mkMagic (Z.land (sliding_attack BISHOP SQ_H8 0) (bb_not (edges SQ_H8))) 0x0060002200404200
  ].

(** ** Auxiliary definitions for reasoning about rays *)

(** The test [occupied & s] of the loop guard, as a boolean. *)
Definition occupied_at (occupied : Bitboard) (s : Square) : bool :=
  negb (bb_and_sq occupied s =? 0).

(** The squares a ray visits on an empty board: [s + d], [s + 2d], ... as
    long as [safe_destination] accepts the step. *)
Fixpoint ray_path (fuel : nat) (d : Direction) (s : Square) : list Square :=
  if safe_destination s d =? 0 then []
  else match fuel with
       | O => []
       | S fuel' => (s + d) :: ray_path fuel' d (s + d)
       end.

(** [ray_closed fuel d s]: the empty-board walk from [s] reaches a square
    where [safe_destination] rejects the step within [fuel] steps. *)
Fixpoint ray_closed (fuel : nat) (d : Direction) (s : Square) : bool :=
  if safe_destination s d =? 0 then true
  else match fuel with
       | O => false
       | S fuel' => ray_closed fuel' d (s + d)
       end.

(** A path cut after its first occupied square (which is kept). *)
Fixpoint blocked_prefix (occupied : Bitboard) (l : list Square) : list Square :=
  match l with
  | [] => []
  | x :: r => x :: (if occupied_at occupied x then [] else blocked_prefix occupied r)
  end.

Definition bb_of_squares (l : list Square) : Bitboard :=
  fold_right (fun x acc => Z.lor (square_bb x) acc) 0 l.

Definition all_directions : list Direction :=
  RookDirections ++ BishopDirections.

(** Number of set bits of a bitboard. *)
Fixpoint Pos_popcount (p : positive) : nat :=
  match p with
  | xH => 1
  | xO q => Pos_popcount q
  | xI q => S (Pos_popcount q)
  end.

Definition popcount (b : Bitboard) : nat :=
  match b with
  | Zpos p => Pos_popcount p
  | _ => O
  end.

(** ** The ray walk in the words of the specification

    "For each of the category's 4 fixed directions (axis-aligned for ROOK,
    diagonal for BISHOP), walk one step at a time from origin; at each step,
    if the step leaves the board, stop; otherwise add the destination to the
    result, and if the destination is a member of occupancy, stop."

    The walk is written over (file, rank) coordinates, independently of
    [safe_destination]; a direction is a pair of file and rank increments. *)

Definition spec_directions (pt : PieceType) : list (Z * Z) :=
  if PieceType_eqb pt ROOK
  then [(0, 1); (0, -1); (1, 0); (-1, 0)]
  else [(1, 1); (1, -1); (-1, -1); (-1, 1)].

Definition on_board (file rank : Z) : bool :=
  (0 <=? file) && (file <=? 7) && (0 <=? rank) && (rank <=? 7).

Fixpoint spec_walk (steps : nat) (df dr : Z) (occupancy : Bitboard)
    (cur : Square) : Bitboard :=
  match steps with
  | O => 0
  | S steps' =>
      let file := cur mod 8 + df in
      let rank := cur / 8 + dr in
      if on_board file rank then
        let dest := rank * 8 + file in
        Z.lor (2 ^ dest)
              (if Z.testbit occupancy dest then 0
               else spec_walk steps' df dr occupancy dest)
      else 0
  end.

Definition slidingAttacks_spec (pt : PieceType) (origin : Square)
    (occupancy : Bitboard) : Bitboard :=
  fold_left (fun acc '(df, dr) => Z.lor acc (spec_walk 7 df dr occupancy origin))
            (spec_directions pt) 0.

(** The numeric step of a (file, rank) increment in the rank-major
    numbering. *)
Definition dir_of (v : Z * Z) : Direction := snd v * 8 + fst v.

Definition all_vectors : list (Z * Z) :=
  spec_directions ROOK ++ spec_directions BISHOP.

(** On a square of the board, [safe_destination] accepts a step exactly
    when the coordinate walk stays on the board, and both name the same
    destination. *)
Definition step_agrees (s : Square) (v : Z * Z) : bool :=
  let file := s mod 8 + fst v in
  let rank := s / 8 + snd v in
  Bool.eqb (negb (safe_destination s (dir_of v) =? 0)) (on_board file rank)
  && (rank * 8 + file =? s + dir_of v).

(** ** Attack-table builder (lines 295-315) *)

(** The two [assert]s of the loop body of [init_table]:
    [assert(idx < (1 << bits))] (line 307) and
    [assert(occured[idx] == false)] (line 308). *)
Inductive Assertion : Type := IndexInRange | SlotUnused.

(** Outcome of a run of the builder: it completes, or one of its [assert]s
    fails, or the fuel of the model runs out. *)
Inductive result (A : Type) : Type :=
| Done (a : A)
| AssertionFailed (which : Assertion)
| OutOfFuel.
Arguments Done {A} a.
Arguments AssertionFailed {A} which.
Arguments OutOfFuel {A}.

(** The Carry-Rippler step [board = (board - magic.mask) & magic.mask] on
    [uint64_t]: the subtraction wraps modulo 2^64. *)
Definition next_subset (mask board : Bitboard) : Bitboard :=
  Z.land ((board - mask) mod 2 ^ 64) mask.

(** The loop [do { body(board); board = (board - mask) & mask; } while (board);]
    over a loop state [St]. *)
Fixpoint carry_rippler {St : Type} (fuel : nat) (mask : Bitboard)
    (body : Bitboard -> St -> result St) (board : Bitboard) (st : St)
    : result St :=
  match fuel with
  | O => OutOfFuel
  | S fuel' =>
      match body board st with
      | Done st' =>
          let board' := next_subset mask board in
          if board' =? 0 then Done st'
          else carry_rippler fuel' mask body board' st'
      | AssertionFailed which => AssertionFailed which
      | OutOfFuel => OutOfFuel
      end
  end.

(** The subsets the loop visits, in order of visit. *)
Definition enumerate_subsets (fuel : nat) (mask : Bitboard)
    : result (list Bitboard) :=
  carry_rippler fuel mask (fun board visited => Done (visited ++ [board])) 0 [].

(** Parallel bit deposit and extract, used to describe the order of the
    enumeration: the [n]-th subset visited is [pdep n mask]. *)
Fixpoint pdep_pos (n : Z) (m : positive) : Z :=
  match m with
  | xH => n mod 2
  | xO m' => 2 * pdep_pos n m'
  | xI m' => 2 * pdep_pos (n / 2) m' + n mod 2
  end.

Definition pdep (n : Z) (mask : Bitboard) : Bitboard :=
  match mask with
  | Zpos m => pdep_pos n m
  | _ => 0
  end.

Fixpoint pext_pos (b : Z) (m : positive) : Z :=
  match m with
  | xH => b mod 2
  | xO m' => pext_pos (b / 2) m'
  | xI m' => 2 * pext_pos (b / 2) m' + b mod 2
  end.

Definition pext (b : Bitboard) (mask : Bitboard) : Z :=
  match mask with
  | Zpos m => pext_pos b m
  | _ => 0
  end.

Definition subsets (mask : Bitboard) : list Bitboard :=
  map (fun n => pdep (Z.of_nat n) mask) (seq 0 (2 ^ popcount mask)).

(** Running a loop body over a list of boards, stopping at the first
    failure. *)
Fixpoint run_body {St : Type} (body : Bitboard -> St -> result St)
    (l : list Bitboard) (st : St) : result St :=
  match l with
  | [] => Done st
  | b :: r =>
      match body b st with
      | Done st' => run_body body r st'
      | AssertionFailed which => AssertionFailed which
      | OutOfFuel => OutOfFuel
      end
  end.

(** ** The magic index *)

(** The top [bits] bits of the 64-bit, wrapping product of a bitboard and
    a multiplier. *)
Definition multiply_shift (bits : Z) (b multiplier : Bitboard) : Z :=
  Z.shiftr ((b * multiplier) mod 2 ^ 64) (64 - bits).

(** A 64-bit word read from the other end: bit [63 - i] of the result is
    bit [i] of [b]. *)
Definition bit_reverse64 (b : Bitboard) : Bitboard :=
  bb_of_squares (map (fun i => 63 - i) (List.filter (Z.testbit b) all_squares)).

(** The two ways of extracting the index that the specification allows. *)
Inductive Extraction : Type := MultiplyShift | BitExtract.

(** Modelled from the spec: [Magic<bits>::index] of [bitboard.h] is not
    part of the sources.  The specification gives it as: reduce the
    occupancy to [occupancy & mask], then either (a) multiply by the 64-bit
    multiplier and take the top [bits] bits of the product, or (b) apply a
    parallel bit extract of [occupancy & mask] under [mask].

    For (a) the specification does not say from which end the masked
    occupancy enters the product; the multipliers of [init_rook_magic] and
    [init_bishop_magic] settle it.  They are made for the word in which
    square [63 - i] is bit [i]: read that way no two subsets of a mask
    share an index, and the index bits that no subset sets are the values
    noted beside the multipliers in the source ([// 0x040],
    [// 0b100100010], ...), whereas with square [i] at bit [i] already the
    first two subsets of the rook mask of A1 share index 0 (lemma
    [multiply_shift_index_collides]). *)
Definition index (e : Extraction) (bits : Z) (m : Magic) (occupied : Bitboard)
    : Z :=
  let relevant := Z.land occupied (mask m) in
  match e with
  | MultiplyShift => multiply_shift bits (bit_reverse64 relevant) (magic m)
  | BitExtract => pext relevant (mask m)
  end.

(** The multiply-shift index on the word as it is, square [i] at bit [i]:
    the index for which the multipliers of the source are valid when the
    list is read in reverse square order. *)
Definition multiply_shift_index (bits : Z) (m : Magic) (occupied : Bitboard)
    : Z :=
  multiply_shift bits (Z.land occupied (mask m)) (magic m).

(** [unsigned idx = magic.index(board)] (line 306): the value of the
    index function as a 32-bit [unsigned]. *)
Definition unsigned_index (index : Z -> Magic -> Bitboard -> Z) (bits : Z)
    (m : Magic) (board : Bitboard) : Z :=
  index bits m board mod 2 ^ 32.

(** An attack table [std::array<std::array<Bitboard, (1 << bits)>, SQUARE_NB>]
    as a list of rows; [table[s][idx]] reads and writes go through list
    lookup and insert.  The builder only writes after asserting
    [idx < (1 << bits)], so no write is out of range. *)
Definition AttackTable := list (list Bitboard).

Definition table_get (table : AttackTable) (s : Square) (idx : Z) : Bitboard :=
  match table !! Z.to_nat s with
  | Some row => default 0 (row !! Z.to_nat idx)
  | None => 0
  end.

Definition table_set (table : AttackTable) (s : Square) (idx : Z)
    (b : Bitboard) : AttackTable :=
  match table !! Z.to_nat s with
  | Some row => <[Z.to_nat s := <[Z.to_nat idx := b]> row]> table
  | None => table
  end.

(** Number of slots of a row, [1 << bits]. *)
Definition slots (bits : Z) : nat := Z.to_nat (2 ^ bits).

(** The body of the [do ... while] loop of [init_table] (lines 306-310)
    on the loop state [(occured, table)].  [magic.index] is a member of the
    class [Magic<bits>] of [bitboard.h]; the builder is embedded over the
    index function [index] it calls. *)
Definition fill_slot (index : Z -> Magic -> Bitboard -> Z) (pt : PieceType)
    (bits : Z) (m : Magic) (s : Square)
    (board : Bitboard) (st : list bool * AttackTable)
    : result (list bool * AttackTable) :=
  let '(occured, table) := st in
  let idx := unsigned_index index bits m board in
  if idx <? 2 ^ bits then
    match occured !! Z.to_nat idx with
    | Some false =>
        Done (<[Z.to_nat idx := true]> occured,
              table_set table s idx (sliding_attack pt s board))
    | _ => AssertionFailed SlotUnused
    end
  else AssertionFailed IndexInRange.

(** The loop over the squares (lines 300-313): [occured.fill(false)], then
    the Carry-Rippler loop over the subsets of [magics[s].mask]. *)
Fixpoint init_table_loop (index : Z -> Magic -> Bitboard -> Z) (fuel : nat)
    (pt : PieceType) (bits : Z)
    (magics : list Magic) (squares : list Square) (table : AttackTable)
    : result AttackTable :=
  match squares with
  | [] => Done table
  | s :: rest =>
      let occured := replicate (slots bits) false in
      let m := nth (Z.to_nat s) magics (mkMagic 0 0) in
      match carry_rippler fuel (mask m) (fill_slot index pt bits m s) 0
                          (occured, table) with
      | Done (_, table') =>
          init_table_loop index fuel pt bits magics rest table'
      | AssertionFailed which => AssertionFailed which
      | OutOfFuel => OutOfFuel
      end
  end.

(** [init_table<pt, bits>(magics)]: the table starts zero-initialised
    ([table{}]).  A pass that completes visits at most [1 << bits] subsets
    (each one marks a fresh slot), so that many units of fuel are enough. *)
Definition init_table (index : Z -> Magic -> Bitboard -> Z) (pt : PieceType)
    (bits : Z) (magics : list Magic) : result AttackTable :=
  init_table_loop index (slots bits) pt bits magics all_squares
    (replicate (Z.to_nat SQUARE_NB) (replicate (slots bits) 0)).

(** Modelled from the spec: [attacks_bb] of [bitboard.h] for a sliding
    category "reduces to a magic-index lookup" in that category's table. *)
Definition attacks_bb_table (index : Z -> Magic -> Bitboard -> Z) (bits : Z)
    (magics : list Magic)
    (table : AttackTable) (s : Square) (occupied : Bitboard) : Bitboard :=
  table_get table s (index bits (nth (Z.to_nat s) magics (mkMagic 0 0)) occupied).

(** The relevant-occupancy mask of the descriptors of [init_rook_magic] and
    [init_bishop_magic]. *)
Definition relevant_mask (pt : PieceType) (s : Square) : Bitboard :=
  Z.land (sliding_attack pt s 0) (bb_not (edges s)).

(** Descriptors with the masks of the source and the given multipliers. *)
Definition magics_with (pt : PieceType) (multipliers : list Bitboard)
    : list Magic :=
  map (fun s => mkMagic (relevant_mask pt s)
                        (nth (Z.to_nat s) multipliers 0)) all_squares.

(** The descriptor array of a sliding category. *)
Definition magics_of (pt : PieceType) : list Magic :=
  if PieceType_eqb pt ROOK then init_rook_magic else init_bishop_magic.

Definition magic_at (magics : list Magic) (s : Square) : Magic :=
  nth (Z.to_nat s) magics (mkMagic 0 0).

(** [on_edge s t]: square [t] lies on an edge rank that is not the rank of
    [s], or on an edge file that is not the file of [s]. *)
Definition on_edge (s t : Square) : bool :=
  (((t / 8 =? 0) || (t / 8 =? 7)) && negb (t / 8 =? s / 8))
  || (((t mod 8 =? 0) || (t mod 8 =? 7)) && negb (t mod 8 =? s mod 8)).

Definition sliders : list PieceType := [BISHOP; ROOK].

(** Checks over the finitely many squares, evaluated once. *)
Definition mask_in_range (pt : PieceType) (s : Square) : bool :=
  (0 <=? relevant_mask pt s) && (relevant_mask pt s <? 2 ^ 64).

Definition mask_covers_ray (pt : PieceType) (s : Square) : bool :=
  forallb (fun d =>
    forallb (fun x => (0 <=? x) && Z.testbit (relevant_mask pt s) x)
            (removelast (ray_path ray_fuel d s)))
    (directions pt).

Definition mask_as_source (pt : PieceType) (s : Square) : bool :=
  (mask (magic_at (magics_of pt) s) =? relevant_mask pt s)
  && (Z.land (relevant_mask pt s) (edges s) =? 0)
  && forallb (fun t =>
        Bool.eqb (Z.testbit (relevant_mask pt s) t)
                 (Z.testbit (sliding_attack pt s 0) t && negb (on_edge s t))
        && Bool.eqb (Z.testbit (edges s) t) (on_edge s t))
      all_squares.

(** The multipliers of a category listed in reverse square order. *)
Definition mirrored_magics (pt : PieceType) : list Magic :=
  magics_with pt (rev (map magic (magics_of pt))).

Definition is_done {A : Type} (r : result A) : bool :=
  match r with Done _ => true | _ => false end.

(** ** The derived tables of [Bitboards::init] (lines 100-124) *)

Inductive Color := WHITE | BLACK.

Definition Color_eqb (a b : Color) : bool :=
  match a, b with
  | WHITE, WHITE | BLACK, BLACK => true
  | _, _ => false
  end.

(** The global arrays written by the loop, as functions of their indices;
    they start zero-initialised. *)
Record Tables := mkTables {
  PseudoAttacks : PieceType -> Square -> Bitboard;
  PawnAttacks : Color -> Square -> Bitboard;
  LineBB : Square -> Square -> Bitboard;
  BetweenBB : Square -> Square -> Bitboard
}.

Definition zero_tables : Tables :=
  mkTables (fun _ _ => 0) (fun _ _ => 0) (fun _ _ => 0) (fun _ _ => 0).

Definition set_PseudoAttacks (tb : Tables) (pt : PieceType) (s : Square)
    (b : Bitboard) : Tables :=
  mkTables (fun pt' s' => if PieceType_eqb pt' pt && (s' =? s) then b
                          else PseudoAttacks tb pt' s')
           (PawnAttacks tb) (LineBB tb) (BetweenBB tb).

Definition set_PawnAttacks (tb : Tables) (c : Color) (s : Square)
    (b : Bitboard) : Tables :=
  mkTables (PseudoAttacks tb)
           (fun c' s' => if Color_eqb c' c && (s' =? s) then b
                         else PawnAttacks tb c' s')
           (LineBB tb) (BetweenBB tb).

Definition set_LineBB (tb : Tables) (s1 s2 : Square) (b : Bitboard) : Tables :=
  mkTables (PseudoAttacks tb) (PawnAttacks tb)
           (fun x y => if (x =? s1) && (y =? s2) then b else LineBB tb x y)
           (BetweenBB tb).

Definition set_BetweenBB (tb : Tables) (s1 s2 : Square) (b : Bitboard) : Tables :=
  mkTables (PseudoAttacks tb) (PawnAttacks tb) (LineBB tb)
           (fun x y => if (x =? s1) && (y =? s2) then b else BetweenBB tb x y).

Definition KingSteps : list Z := [-9; -8; -7; -1; 1; 7; 8; 9].
Definition KnightSteps : list Z := [-17; -15; -10; -6; 6; 10; 15; 17].

Section Derived.

(** [attacks_bb] and [pawn_attacks_bb] of [bitboard.h] are not part of the
    sources; the loop is modelled over any two such functions. *)
Variable attacks_bb : PieceType -> Square -> Bitboard -> Bitboard.
Variable pawn_attacks_bb : Color -> Bitboard -> Bitboard.

(** [for (int step : steps) PseudoAttacks[pt][s1] |= safe_destination(s1, step);] *)
Definition add_steps (pt : PieceType) (s1 : Square) (steps : list Z)
    (tb : Tables) : Tables :=
  fold_left (fun tb step =>
               set_PseudoAttacks tb pt s1
                 (Z.lor (PseudoAttacks tb pt s1) (safe_destination s1 step)))
            steps tb.

(** Lines 102-112. *)
Definition init_pseudo (s1 : Square) (tb : Tables) : Tables :=
  let tb := set_PawnAttacks tb WHITE s1 (pawn_attacks_bb WHITE (square_bb s1)) in
  let tb := set_PawnAttacks tb BLACK s1 (pawn_attacks_bb BLACK (square_bb s1)) in
  let tb := add_steps KING s1 KingSteps tb in
  let tb := add_steps KNIGHT s1 KnightSteps tb in
  let tb := set_PseudoAttacks tb BISHOP s1 (attacks_bb BISHOP s1 0) in
  let tb := set_PseudoAttacks tb QUEEN s1 (PseudoAttacks tb BISHOP s1) in
  let tb := set_PseudoAttacks tb ROOK s1 (attacks_bb ROOK s1 0) in
  set_PseudoAttacks tb QUEEN s1
    (Z.lor (PseudoAttacks tb QUEEN s1) (PseudoAttacks tb ROOK s1)).

(** The body of the loop over [s2] (lines 116-123). *)
Definition line_between_step (pt : PieceType) (s1 s2 : Square) (tb : Tables)
    : Tables :=
  let tb :=
    if negb (bb_and_sq (PseudoAttacks tb pt s1) s2 =? 0) then
      let tb := set_LineBB tb s1 s2
        (bb_or_sq (bb_or_sq (Z.land (attacks_bb pt s1 0) (attacks_bb pt s2 0)) s1) s2) in
      set_BetweenBB tb s1 s2
        (Z.land (attacks_bb pt s1 (square_bb s2)) (attacks_bb pt s2 (square_bb s1)))
    else tb in
  set_BetweenBB tb s1 s2 (bb_or_sq (BetweenBB tb s1 s2) s2).

(** Lines 114-123. *)
Definition init_lines (s1 : Square) (tb : Tables) : Tables :=
  fold_left (fun tb pt =>
               fold_left (fun tb s2 => line_between_step pt s1 s2 tb)
                         all_squares tb)
            [BISHOP; ROOK] tb.

(** The loop over [s1] (lines 100-124), from zero-initialised tables. *)
Definition init_derived : Tables :=
  fold_left (fun tb s1 => init_lines s1 (init_pseudo s1 tb))
            all_squares zero_tables.

End Derived.

(** Geometry used to state what the tables contain. *)

(** [s1] and [s2] are distinct and share a file, a rank or a diagonal. *)
Definition aligned (s1 s2 : Square) : bool :=
  negb (s1 =? s2)
  && ((s1 mod 8 =? s2 mod 8) || (s1 / 8 =? s2 / 8)
      || (Z.abs (s1 mod 8 - s2 mod 8) =? Z.abs (s1 / 8 - s2 / 8))).

(** The squares strictly between two aligned squares. *)
Definition open_segment (s1 s2 : Square) : Bitboard :=
  let df := Z.sgn (s2 mod 8 - s1 mod 8) in
  let dr := Z.sgn (s2 / 8 - s1 / 8) in
  let n := Z.max (Z.abs (s2 mod 8 - s1 mod 8)) (Z.abs (s2 / 8 - s1 / 8)) in
  fold_right (fun k acc =>
                Z.lor (2 ^ ((s1 / 8 + Z.of_nat k * dr) * 8
                            + (s1 mod 8 + Z.of_nat k * df))) acc)
             0 (seq 1 (Z.to_nat n - 1)).

(** The sliding category, if any, whose empty-board attack set from [s1]
    contains [s2]. *)
Definition line_type (s1 s2 : Square) : option PieceType :=
  if Z.testbit (sliding_attack ROOK s1 0) s2 then Some ROOK
  else if Z.testbit (sliding_attack BISHOP s1 0) s2 then Some BISHOP
  else None.

Definition line_value (s1 s2 : Square) : Bitboard :=
  match line_type s1 s2 with
  | Some pt => Z.lor (Z.lor (Z.land (sliding_attack pt s1 0) (sliding_attack pt s2 0))
                            (2 ^ s1)) (2 ^ s2)
  | None => 0
  end.

Definition between_value (s1 s2 : Square) : Bitboard :=
  match line_type s1 s2 with
  | Some pt => Z.lor (Z.land (sliding_attack pt s1 (square_bb s2))
                             (sliding_attack pt s2 (square_bb s1))) (2 ^ s2)
  | None => 2 ^ s2
  end.

(** Closed forms of what the loop leaves in a row of the tables. *)
Section DerivedClosed.
Variable attacks_bb : PieceType -> Square -> Bitboard -> Bitboard.

Definition contains (b : Bitboard) (s : Square) : bool :=
  negb (bb_and_sq b s =? 0).

Definition line_expr (pt : PieceType) (s1 s2 : Square) : Bitboard :=
  bb_or_sq (bb_or_sq (Z.land (attacks_bb pt s1 0) (attacks_bb pt s2 0)) s1) s2.

Definition between_expr (pt : PieceType) (s1 s2 : Square) : Bitboard :=
  Z.land (attacks_bb pt s1 (square_bb s2)) (attacks_bb pt s2 (square_bb s1)).

Definition line_row (old : Bitboard) (s1 s2 : Square) : Bitboard :=
  if existsb (Z.eqb s2) all_squares then
    if contains (attacks_bb ROOK s1 0) s2 then line_expr ROOK s1 s2
    else if contains (attacks_bb BISHOP s1 0) s2 then line_expr BISHOP s1 s2
    else old
  else old.

Definition between_row (old : Bitboard) (s1 s2 : Square) : Bitboard :=
  if existsb (Z.eqb s2) all_squares then
    bb_or_sq
      (if contains (attacks_bb ROOK s1 0) s2 then between_expr ROOK s1 s2
       else bb_or_sq
              (if contains (attacks_bb BISHOP s1 0) s2
               then between_expr BISHOP s1 s2 else old) s2) s2
  else old.

Definition steps_bb (s : Square) (steps : list Z) (old : Bitboard) : Bitboard :=
  fold_left (fun acc step => Z.lor acc (safe_destination s step)) steps old.

Definition pseudo_row (old : PieceType -> Bitboard) (pt : PieceType)
    (s : Square) : Bitboard :=
  match pt with
  | KING => steps_bb s KingSteps (old KING)
  | KNIGHT => steps_bb s KnightSteps (old KNIGHT)
  | BISHOP => attacks_bb BISHOP s 0
  | ROOK => attacks_bb ROOK s 0
  | QUEEN => Z.lor (attacks_bb BISHOP s 0) (attacks_bb ROOK s 0)
  | _ => old pt
  end.
End DerivedClosed.

(** The check of one pair of squares: the closed forms of the line and
    between entries against the geometry. *)
Definition pair_check (s1 s2 : Square) : bool :=
  let rook := Z.testbit (sliding_attack ROOK s1 0) s2 in
  let bishop := Z.testbit (sliding_attack BISHOP s1 0) s2 in
  Bool.eqb (aligned s1 s2) (rook || bishop)
  && negb (rook && bishop)
  && (if aligned s1 s2
      then between_value s1 s2 =? Z.lor (open_segment s1 s2) (2 ^ s2)
      else (between_value s1 s2 =? 2 ^ s2) && (line_value s1 s2 =? 0)).

(** ** Checks and geometry for further properties of the tables *)

Definition empty_attack_in_range (pt : PieceType) (s : Square) : bool :=
  (0 <=? sliding_attack pt s 0) && (sliding_attack pt s 0 <? 2 ^ 64).

(** On an empty board a rook reaches the other squares of its file and
    rank, a bishop the other squares of its diagonals. *)
Definition rook_line (s t : Square) : bool :=
  negb (s =? t) && ((s mod 8 =? t mod 8) || (s / 8 =? t / 8)).

Definition bishop_line (s t : Square) : bool :=
  negb (s =? t) && (Z.abs (s mod 8 - t mod 8) =? Z.abs (s / 8 - t / 8)).

Definition attack_row_check (s : Square) : bool :=
  let rook := sliding_attack ROOK s 0 in
  let bishop := sliding_attack BISHOP s 0 in
  forallb (fun t => Bool.eqb (Z.testbit rook t) (rook_line s t)
                    && Bool.eqb (Z.testbit bishop t) (bishop_line s t))
          all_squares.

Definition bits_of (pt : PieceType) : Z :=
  if PieceType_eqb pt ROOK then RookBits else BishopBits.

(** Size and shape of a relevant mask. *)
Definition mask_shape_check (pt : PieceType) (s : Square) : bool :=
  let m := mask (magic_at (magics_of pt) s) in
  (Z.of_nat (popcount m) <=? bits_of pt)
  && negb (Z.testbit m s)
  && (Z.land m (sliding_attack pt s 0) =? m).

(** The king and knight patterns in (file, rank) coordinates. *)
Definition king_move (s t : Square) : bool :=
  Z.max (Z.abs (s mod 8 - t mod 8)) (Z.abs (s / 8 - t / 8)) =? 1.

Definition knight_move (s t : Square) : bool :=
  let df := Z.abs (s mod 8 - t mod 8) in
  let dr := Z.abs (s / 8 - t / 8) in
  ((df =? 1) && (dr =? 2)) || ((df =? 2) && (dr =? 1)).

Definition step_pattern_check (s : Square) : bool :=
  let king := steps_bb s KingSteps 0 in
  let knight := steps_bb s KnightSteps 0 in
  forallb (fun t => Bool.eqb (Z.testbit king t) (king_move s t)
                    && Bool.eqb (Z.testbit knight t) (knight_move s t))
          all_squares
  && (0 <=? king) && (king <? 2 ^ 64) && (0 <=? knight) && (knight <? 2 ^ 64).

(** [t] lies on the straight line through [s1] and [s2]. *)
Definition collinear (s1 s2 t : Square) : bool :=
  (s2 mod 8 - s1 mod 8) * (t / 8 - s1 / 8)
  =? (s2 / 8 - s1 / 8) * (t mod 8 - s1 mod 8).

Definition line_bb_geometric (s1 s2 : Square) : Bitboard :=
  fold_right (fun t acc => if collinear s1 s2 t then Z.lor (2 ^ t) acc else acc)
             0 all_squares.

Definition line_pair_check (s1 s2 : Square) : bool :=
  (line_value s1 s2 =? line_value s2 s1)
  && (Z.ldiff (between_value s1 s2) (2 ^ s2) =? Z.ldiff (between_value s2 s1) (2 ^ s1))
  && (if aligned s1 s2
      then (line_value s1 s2 =? line_bb_geometric s1 s2)
           && (Z.land (between_value s1 s2) (line_value s1 s2) =? between_value s1 s2)
      else true).

(** The condition under which the pass of the builder for square [s]
    completes: no two subsets of the mask share an index. *)
Definition collision_free (index : Z -> Magic -> Bitboard -> Z) (bits : Z)
    (magics : list Magic) (s : Square) : Prop :=
  List.NoDup (map (unsigned_index index bits (magic_at magics s))
                  (subsets (mask (magic_at magics s)))).

(** ** The population-count table (lines 84-85) *)

(** [PopCnt16[i] = uint8_t(std::bitset<16>(i).count())]: the bit count of
    the low 16 bits, cast to 8 bits. *)
Definition PopCnt16 (i : Z) : Z :=
  Z.of_nat (popcount (i mod 2 ^ 16)) mod 2 ^ 8.

(** The positions below [n] at which a bit of [b] is set. *)
Definition set_bits (n : nat) (b : Z) : list nat :=
  List.filter (fun i => Z.testbit b (Z.of_nat i)) (seq 0 n).

(** ** [Bitboards::pretty] (lines 62-76) *)

(** Modelled from the spec: [make_square] of [types.h] in the rank-major
    numbering, [square = rank * 8 + file]. *)
Definition make_square (f r : Z) : Square := Z.shiftl r 3 + f.

(** The line feed character and [std::to_string] on an [int]. *)
Definition nl : string := String "010"%char EmptyString.
Definition to_string (n : Z) : string := NilZero.string_of_int (Z.to_int n).

Definition rule : string := ("+---+---+---+---+---+---+---+---+" ++ nl)%string.

(** [FILE_A .. FILE_H] upwards and [RANK_8 .. RANK_1] downwards, the orders
    of the two loops. *)
Definition files_up : list Z := [0; 1; 2; 3; 4; 5; 6; 7].
Definition ranks_down : list Z := [7; 6; 5; 4; 3; 2; 1; 0].

Definition pretty_cell (b : Bitboard) (f r : Z) : string :=
  if negb (bb_and_sq b (make_square f r) =? 0) then "| X "%string
  else "|   "%string.

Definition pretty_rank_end (r : Z) : string :=
  ("| " ++ to_string (1 + r) ++ nl ++ rule)%string.

Definition pretty (b : Bitboard) : string :=
  let s := rule in
  let s :=
    fold_left
      (fun s r =>
         let s := fold_left (fun s f => (s ++ pretty_cell b f r)%string) files_up s in
         (s ++ pretty_rank_end r)%string)
      ranks_down s in
  (s ++ "  a   b   c   d   e   f   g   h" ++ nl)%string.

(** Concatenation of the strings of a list. *)
Definition concat_strings (l : list string) : string :=
  fold_right String.append EmptyString l.

(** Offset of the mark of square (file [f], rank [r]) in the rendering. *)
Definition mark_offset (f r : Z) : nat :=
  (34 + 70 * Z.to_nat (7 - r) + 4 * Z.to_nat f + 2)%nat.

(** One rank of the rendering. *)
Definition pretty_line (b : Bitboard) (r : Z) : string :=
  (concat_strings (map (fun f => pretty_cell b f r) files_up) ++ pretty_rank_end r)%string.

(** ** The index collisions of a pass of [init_table], checked without the table *)

(** [multiply_shift_index] with the reduction modulo 2^64 written as a
    mask. *)
Definition index_fast (bits : Z) (m : Magic) (occupied : Bitboard) : Z :=
  Z.shiftr (Z.land (Z.land occupied (mask m) * magic m) (Z.ones 64)) (64 - bits).

(** The assertion [occured[idx] == false] of the loop body of [init_table]
    (line 308) on its own: the loop state is the set of the indices seen so
    far in the pass, and no table is written. *)
Definition check_slot (bits : Z) (m : Magic) (board : Bitboard)
    (seen : PositiveSet.t) : result PositiveSet.t :=
  let k := Z.to_pos (index_fast bits m board + 1) in
  if PositiveSet.mem k seen then AssertionFailed SlotUnused
  else Done (PositiveSet.add k seen).

Definition pass_collision_free (bits : Z) (magics : list Magic) (s : Square)
    : bool :=
  let m := magic_at magics s in
  is_done (carry_rippler (slots bits) (mask m) (check_slot bits m) 0
                         PositiveSet.empty).

Definition mirrored_collision_free (pt : PieceType) (s : Square) : bool :=
  pass_collision_free (bits_of pt) (mirrored_magics pt) s.

(** The descriptor of [mirrored_magics] for a square: the mask of the
    source's descriptor of the square with the multiplier of the source's
    descriptor of the opposite square [63 - s]. *)
Definition mirrored_entry_check (pt : PieceType) (s : Square) : bool :=
  let m := magic_at (mirrored_magics pt) s in
  (mask m =? mask (magic_at (magics_of pt) s))
  && (magic m =? magic (magic_at (magics_of pt) (63 - s))).

(* ================================================================= *)
(** * Properties *)

(** ** Bit-level facts *)

Lemma all_squares_spec (s : Z) : In s all_squares <-> 0 <= s < 64.
Proof.
  unfold all_squares. rewrite in_map_iff. split.
  - intros (n & <- & Hn). apply in_seq in Hn. lia.
  - intros H. exists (Z.to_nat s). split; [lia|]. apply in_seq. lia.
Qed.

Lemma forall_squares (f : Square -> bool) :
  forallb f all_squares = true -> forall s, 0 <= s < 64 -> f s = true.
Proof.
  intros H s Hs. rewrite forallb_forall in H. apply H, all_squares_spec, Hs.
Qed.

Lemma is_ok_spec (s : Square) : is_ok s = true <-> 0 <= s < 64.
Proof. unfold is_ok, SQ_A1, SQ_H8. lia. Qed.

Lemma testbit_one (k : Z) : Z.testbit 1 k = (k =? 0).
Proof.
  destruct k as [|p|p]; try reflexivity.
Qed.

Lemma square_bb_testbit (s i : Z) :
  0 <= i -> Z.testbit (square_bb s) i = (i =? s).
Proof.
  intros Hi. unfold square_bb. rewrite Z.shiftl_spec by assumption.
  rewrite testbit_one. lia.
Qed.

Lemma square_bb_pow2 (s : Z) : 0 <= s -> square_bb s = 2 ^ s.
Proof. intros Hs. unfold square_bb. rewrite Z.shiftl_1_l. reflexivity. Qed.

Lemma square_bb_nonzero (s : Z) : 0 <= s -> square_bb s <> 0.
Proof. intros Hs. rewrite square_bb_pow2 by assumption. lia. Qed.

Lemma bb_and_sq_testbit (b : Bitboard) (s : Square) :
  0 <= s -> (bb_and_sq b s =? 0) = negb (Z.testbit b s).
Proof.
  intros Hs. unfold bb_and_sq.
  destruct (Z.testbit b s) eqn:Hb; simpl.
  - apply Z.eqb_neq. intros H.
    assert (Ht : Z.testbit (Z.land b (square_bb s)) s = false)
      by (rewrite H; apply Z.bits_0).
    rewrite Z.land_spec, Hb, square_bb_testbit, Z.eqb_refl in Ht by assumption.
    discriminate.
  - apply Z.eqb_eq, Z.bits_inj'. intros n Hn.
    rewrite Z.land_spec, square_bb_testbit, Z.bits_0 by assumption.
    destruct (n =? s) eqn:E; [|apply andb_false_r].
    apply Z.eqb_eq in E. subst n. rewrite Hb. reflexivity.
Qed.

Lemma occupied_at_testbit (b : Bitboard) (s : Square) :
  0 <= s -> occupied_at b s = Z.testbit b s.
Proof.
  intros Hs. unfold occupied_at. rewrite bb_and_sq_testbit by assumption.
  apply negb_involutive.
Qed.

Lemma safe_destination_ok (s d : Z) :
  safe_destination s d <> 0 -> 0 <= s + d < 64.
Proof.
  unfold safe_destination. cbv zeta.
  destruct (is_ok (s + d)) eqn:E; simpl; [|congruence].
  intros _. apply is_ok_spec, E.
Qed.

(** ** The ray walk in closed form *)


Lemma ray_loop_spec (fuel : nat) (d : Direction) (occupied : Bitboard) :
  forall (s : Square) (attacks : Bitboard),
  ray_closed fuel d s = true ->
  ray_loop fuel d occupied s attacks =
    Some (if occupied_at occupied s then attacks
          else Z.lor attacks
                 (bb_of_squares (blocked_prefix occupied (ray_path fuel d s)))).
Proof.
  induction fuel as [|fuel IH]; intros s attacks Hc; simpl in *.
  - unfold occupied_at.
    destruct (safe_destination s d =? 0) eqn:Hs; simpl.
    + rewrite Z.lor_0_r. destruct (bb_and_sq occupied s =? 0); reflexivity.
    + discriminate.
  - unfold occupied_at at 1.
    destruct (safe_destination s d =? 0) eqn:Hs; simpl.
    + rewrite Z.lor_0_r. destruct (bb_and_sq occupied s =? 0); reflexivity.
    + destruct (bb_and_sq occupied s =? 0) eqn:Ho; simpl; [|reflexivity].
      rewrite IH by assumption. unfold bb_or_sq.
      destruct (occupied_at occupied (s + d)); simpl.
      * rewrite Z.lor_0_r. reflexivity.
      * rewrite Z.lor_assoc. reflexivity.
Qed.

Lemma rays_closed :
  forallb (fun s => forallb (fun d => ray_closed ray_fuel d s) all_directions)
          all_squares = true.
Proof. vm_compute. reflexivity. Qed.

Lemma ray_closed_7 (d : Direction) (s : Square) :
  In d all_directions -> 0 <= s < 64 -> ray_closed ray_fuel d s = true.
Proof.
  intros Hd Hs. pose proof (forall_squares _ rays_closed s Hs) as H.
  cbv beta in H. rewrite forallb_forall in H. apply H, Hd.
Qed.

Lemma directions_all (pt : PieceType) (d : Direction) :
  In d (directions pt) -> In d all_directions.
Proof.
  unfold directions, all_directions. intros H. apply in_or_app.
  destruct (PieceType_eqb pt ROOK); [left|right]; exact H.
Qed.

(** Closed form of the outer loop. *)
Lemma rays_loop_spec (ds : list Direction) (occupied : Bitboard) (sq : Square) :
  (forall d, In d ds -> In d all_directions) -> 0 <= sq < 64 ->
  forall attacks,
  rays_loop ray_fuel ds occupied sq attacks =
    Some (if occupied_at occupied sq then attacks
          else fold_left (fun a d => Z.lor a (bb_of_squares
                    (blocked_prefix occupied (ray_path ray_fuel d sq)))) ds attacks).
Proof.
  intros Hds Hsq. induction ds as [|d ds IH]; intros attacks; cbn [rays_loop fold_left].
  - destruct (occupied_at occupied sq); reflexivity.
  - rewrite ray_loop_spec by (apply ray_closed_7; [apply Hds; left; reflexivity|assumption]).
    rewrite IH by (intros d' Hd'; apply Hds; right; exact Hd').
    destruct (occupied_at occupied sq); reflexivity.
Qed.

Lemma sliding_attack_closed_form (pt : PieceType) (sq : Square) (occupied : Bitboard) :
  0 <= sq < 64 ->
  sliding_attack_fuel ray_fuel pt sq occupied =
    Some (if occupied_at occupied sq then 0
          else fold_left (fun a d => Z.lor a (bb_of_squares
                    (blocked_prefix occupied (ray_path ray_fuel d sq))))
                 (directions pt) 0).
Proof.
  intros Hsq. unfold sliding_attack_fuel.
  apply rays_loop_spec; [apply directions_all | assumption].
Qed.


Lemma sliding_attack_fuel_total (pt : PieceType) (sq : Square) (occupied : Bitboard) :
  0 <= sq < 64 ->
  sliding_attack_fuel ray_fuel pt sq occupied = Some (sliding_attack pt sq occupied).
Proof.
  intros Hsq. unfold sliding_attack.
  rewrite sliding_attack_closed_form by assumption. reflexivity.
Qed.

Lemma sliding_attack_unfold (pt : PieceType) (sq : Square) (occupied : Bitboard) :
  0 <= sq < 64 ->
  sliding_attack pt sq occupied =
    if occupied_at occupied sq then 0
    else fold_left (fun a d => Z.lor a (bb_of_squares
                    (blocked_prefix occupied (ray_path ray_fuel d sq))))
                 (directions pt) 0.
Proof.
  intros Hsq. unfold sliding_attack.
  rewrite sliding_attack_closed_form by assumption. reflexivity.
Qed.

Lemma bb_of_squares_testbit (l : list Square) (i : Z) :
  0 <= i -> Z.testbit (bb_of_squares l) i = existsb (Z.eqb i) l.
Proof.
  intros Hi. induction l as [|x l IH]; simpl.
  - apply Z.bits_0.
  - rewrite Z.lor_spec, square_bb_testbit, IH by assumption. reflexivity.
Qed.

Lemma fold_lor_testbit {A : Type} (F : A -> Bitboard) (l : list A) (a : Bitboard) (i : Z) :
  Z.testbit (fold_left (fun acc x => Z.lor acc (F x)) l a) i =
  Z.testbit a i || existsb (fun x => Z.testbit (F x) i) l.
Proof.
  revert a. induction l as [|x l IH]; intros a; simpl.
  - rewrite orb_false_r. reflexivity.
  - rewrite IH, Z.lor_spec, orb_assoc. reflexivity.
Qed.

Lemma blocked_prefix_incl (occupied : Bitboard) (l : list Square) (x : Square) :
  In x (blocked_prefix occupied l) -> In x l.
Proof.
  induction l as [|y l IH]; simpl; [tauto|].
  intros [H|H]; [left; exact H|].
  destruct (occupied_at occupied y); [destruct H | right; apply IH, H].
Qed.

Lemma existsb_eqb_In (i : Z) (l : list Z) :
  existsb (Z.eqb i) l = true <-> In i l.
Proof.
  rewrite existsb_exists. split.
  - intros (x & Hx & E). apply Z.eqb_eq in E. subst. exact Hx.
  - intros H. exists i. split; [exact H | apply Z.eqb_refl].
Qed.

Lemma origin_not_on_rays :
  forallb (fun s => forallb (fun d => negb (existsb (Z.eqb s) (ray_path ray_fuel d s)))
                      all_directions) all_squares = true.
Proof. vm_compute. reflexivity. Qed.

Lemma origin_not_on_ray (d : Direction) (s : Square) :
  In d all_directions -> 0 <= s < 64 -> ~ In s (ray_path ray_fuel d s).
Proof.
  intros Hd Hs Hin. pose proof (forall_squares _ origin_not_on_rays s Hs) as H.
  cbv beta in H. rewrite forallb_forall in H. specialize (H d Hd).
  apply existsb_eqb_In in Hin. rewrite Hin in H. discriminate.
Qed.

(** Claim C10: when the occupancy contains the origin square, the
    occupied-square test of the loop guard is applied to the origin before
    any step, so every ray loop exits at once (with any fuel and any
    direction) and [sliding_attack] returns the empty bitboard. *)
Theorem sliding_attack_occupied_origin (pt : PieceType) (sq : Square)
    (occupied : Bitboard) :
  0 <= sq < 64 ->
  Z.testbit occupied sq = true ->
  (forall (fuel : nat) (d : Direction) (attacks : Bitboard),
      ray_loop fuel d occupied sq attacks = Some attacks) /\
  sliding_attack_fuel ray_fuel pt sq occupied = Some 0 /\
  sliding_attack pt sq occupied = 0.
Proof.
  intros Hsq Hocc.
  assert (Ho : occupied_at occupied sq = true)
    by (rewrite occupied_at_testbit by lia; exact Hocc).
  split; [|split].
  - intros fuel d attacks. unfold occupied_at in Ho.
    apply negb_true_iff in Ho.
    destruct fuel; simpl; rewrite Ho, andb_false_r; reflexivity.
  - rewrite sliding_attack_closed_form, Ho by assumption. reflexivity.
  - rewrite sliding_attack_unfold, Ho by assumption. reflexivity.
Qed.

Lemma sliding_attack_occupied_origin_witness :
  sliding_attack ROOK SQ_D4 (square_bb SQ_D4) = 0.
Proof.
  apply (sliding_attack_occupied_origin ROOK SQ_D4 (square_bb SQ_D4)).
  - unfold SQ_D4. lia.
  - reflexivity.
Defined.

(** A square in the result of [sliding_attack] lies on one of the rays of
    the piece type from the origin. *)
Lemma attacked_on_ray (pt : PieceType) (sq : Square) (occupied : Bitboard)
    (i : Z) :
  0 <= sq < 64 -> 0 <= i ->
  Z.testbit (sliding_attack pt sq occupied) i = true ->
  exists d, In d (directions pt) /\ In i (ray_path ray_fuel d sq).
Proof.
  intros Hsq Hi H. rewrite sliding_attack_unfold in H by assumption.
  destruct (occupied_at occupied sq); [rewrite Z.bits_0 in H; discriminate|].
  rewrite fold_lor_testbit, Z.bits_0 in H. cbn [orb] in H.
  apply existsb_exists in H. destruct H as (d & Hd & H).
  rewrite bb_of_squares_testbit in H by assumption.
  apply existsb_eqb_In, blocked_prefix_incl in H.
  exists d. split; assumption.
Qed.

(** Claim C9: for every piece type, every origin square of the board and
    every occupancy, the result of [sliding_attack] does not contain the
    origin square. *)
Theorem sliding_attack_excludes_origin (pt : PieceType) (sq : Square)
    (occupied : Bitboard) :
  0 <= sq < 64 ->
  Z.testbit (sliding_attack pt sq occupied) sq = false.
Proof.
  intros Hsq. apply not_true_is_false. intros H.
  apply attacked_on_ray in H; [|assumption|lia].
  destruct H as (d & Hd & Hin).
  revert Hin. apply origin_not_on_ray; [|assumption].
  apply (directions_all pt), Hd.
Qed.

Lemma sliding_attack_excludes_origin_witness :
  Z.testbit (sliding_attack BISHOP SQ_E5 0x0000240000240000) SQ_E5 = false.
Proof.
  apply (sliding_attack_excludes_origin BISHOP SQ_E5 0x0000240000240000).
  unfold SQ_E5. lia.
Defined.

Lemma file_of_mod (s : Z) : file_of s = s mod 8.
Proof. unfold file_of. change 7 with (Z.ones 3). rewrite Z.land_ones by lia. reflexivity. Qed.

Lemma rank_of_div (s : Z) : rank_of s = s / 8.
Proof. unfold rank_of. rewrite Z.shiftr_div_pow2 by lia. reflexivity. Qed.

(** Claim C8: [safe_destination s step] is the singleton bitboard of
    [s + step] when that square is on the board and its Chebyshev distance
    from [s] is at most 2, and the empty bitboard otherwise; a step of +1
    from the last file (or -1 from the first file) gives the empty bitboard.
    The [int] addition [s + step] of the source is the addition of [Z]
    whenever the sum is representable. *)
Theorem safe_destination_correct (s : Square) (step : Z) :
  0 <= s < 64 ->
  safe_destination s step =
    (if (0 <=? s + step) && (s + step <? 64) &&
        (Z.max (Z.abs (s mod 8 - (s + step) mod 8))
               (Z.abs (s / 8 - (s + step) / 8)) <=? 2)
     then 2 ^ (s + step) else 0) /\
  (s mod 8 = 7 -> safe_destination s 1 = 0) /\
  (s mod 8 = 0 -> safe_destination s (-1) = 0).
Proof.
  intros Hs.
  assert (G : forall st, safe_destination s st =
    (if (0 <=? s + st) && (s + st <? 64) &&
        (Z.max (Z.abs (s mod 8 - (s + st) mod 8))
               (Z.abs (s / 8 - (s + st) / 8)) <=? 2)
     then 2 ^ (s + st) else 0)).
  { intros st. unfold safe_destination, distance, SquareDistance, distance_File,
      distance_Rank, is_ok, SQ_A1, SQ_H8. cbv zeta.
    rewrite !file_of_mod, !rank_of_div.
    replace (s + st <=? 63) with (s + st <? 64) by lia.
    destruct ((0 <=? s + st) && (s + st <? 64)) eqn:E; simpl; [|reflexivity].
    rewrite square_bb_pow2 by lia. reflexivity. }
  split; [apply G|]. split; intros Hf; rewrite G.
  - replace ((s + 1) mod 8) with 0.
    + replace (Z.max (Z.abs (s mod 8 - 0)) (Z.abs (s / 8 - (s + 1) / 8)) <=? 2)
        with false by lia.
      rewrite andb_false_r. reflexivity.
    + symmetry. rewrite (Z.div_mod s 8) at 1 by lia. rewrite Hf.
      replace (8 * (s / 8) + 7 + 1) with ((s / 8 + 1) * 8) by lia.
      apply Z.mod_mul. lia.
  - destruct (Z.eq_dec s 0) as [->|Hne]; [reflexivity|].
    replace ((s + -1) mod 8) with 7.
    + replace (Z.max (Z.abs (s mod 8 - 7)) (Z.abs (s / 8 - (s + -1) / 8)) <=? 2)
        with false by lia.
      rewrite andb_false_r. reflexivity.
    + symmetry. rewrite (Z.div_mod s 8) at 1 by lia. rewrite Hf.
      replace (8 * (s / 8) + 0 + -1) with (7 + (s / 8 - 1) * 8) by lia.
      rewrite Z.mod_add by lia. reflexivity.
Qed.

Lemma safe_destination_correct_witness :
  safe_destination SQ_H1 1 = 0 /\ safe_destination SQ_E4 NORTH = 2 ^ SQ_E5.
Proof.
  split.
  - apply (safe_destination_correct SQ_H1 1); [unfold SQ_H1; lia | reflexivity].
  - rewrite (proj1 (safe_destination_correct SQ_E4 NORTH ltac:(unfold SQ_E4; lia))).
    reflexivity.
Defined.

(** ** The ray walk against the words of the specification *)


Lemma steps_agree :
  forallb (fun s => forallb (step_agrees s) all_vectors) all_squares = true.
Proof. vm_compute. reflexivity. Qed.

Lemma step_agrees_at (s : Square) (v : Z * Z) :
  0 <= s < 64 -> In v all_vectors ->
  (safe_destination s (dir_of v) =? 0) = negb (on_board (s mod 8 + fst v) (s / 8 + snd v))
  /\ (s / 8 + snd v) * 8 + (s mod 8 + fst v) = s + dir_of v.
Proof.
  intros Hs Hv. pose proof (forall_squares _ steps_agree s Hs) as H.
  cbv beta in H. rewrite forallb_forall in H. specialize (H v Hv).
  unfold step_agrees in H. cbv zeta in H.
  apply andb_true_iff in H. destruct H as [H1 H2].
  apply Z.eqb_eq in H2. apply eqb_prop in H1. split; [|exact H2].
  rewrite <- H1. rewrite negb_involutive. reflexivity.
Qed.

Lemma spec_walk_path (n : nat) (v : Z * Z) (occupancy : Bitboard) :
  In v all_vectors ->
  forall s, 0 <= s < 64 ->
  spec_walk n (fst v) (snd v) occupancy s =
  bb_of_squares (blocked_prefix occupancy (ray_path n (dir_of v) s)).
Proof.
  intros Hv. induction n as [|n IH]; intros s Hs.
  - simpl. destruct (safe_destination s (dir_of v) =? 0); reflexivity.
  - cbn [spec_walk ray_path]. cbv zeta.
    destruct (step_agrees_at s v Hs Hv) as [E1 E2].
    rewrite E1, E2.
    destruct (on_board (s mod 8 + fst v) (s / 8 + snd v)) eqn:Hb; simpl; [|reflexivity].
    simpl in E1. apply Z.eqb_neq in E1.
    apply safe_destination_ok in E1.
    rewrite occupied_at_testbit, square_bb_pow2 by lia.
    destruct (Z.testbit occupancy (s + dir_of v)); [reflexivity|].
    rewrite IH by assumption. reflexivity.
Qed.

Lemma directions_spec (pt : PieceType) :
  directions pt = map dir_of (spec_directions pt).
Proof. destruct pt; reflexivity. Qed.

Lemma spec_directions_all (pt : PieceType) (v : Z * Z) :
  In v (spec_directions pt) -> In v all_vectors.
Proof.
  unfold all_vectors. intros H. apply in_or_app.
  destruct pt; simpl in H |- *; tauto.
Qed.

Lemma spec_fold_path (occupancy : Bitboard) (sq : Square) (l : list (Z * Z)) :
  0 <= sq < 64 ->
  (forall v, In v l -> In v all_vectors) ->
  forall acc,
  fold_left (fun acc '(df, dr) => Z.lor acc (spec_walk 7 df dr occupancy sq)) l acc =
  fold_left (fun a d => Z.lor a (bb_of_squares
                    (blocked_prefix occupancy (ray_path ray_fuel d sq))))
            (map dir_of l) acc.
Proof.
  intros Hsq. induction l as [|[df dr] l IH]; intros Hall acc; cbn [fold_left map]; [reflexivity|].
  rewrite IH by (intros v Hv; apply Hall; right; exact Hv).
  f_equal. f_equal.
  apply (spec_walk_path 7 (df, dr) occupancy); [apply Hall; left; reflexivity | assumption].
Qed.

Lemma slidingAttacks_spec_unfold (pt : PieceType) (sq : Square) (occupancy : Bitboard) :
  0 <= sq < 64 ->
  slidingAttacks_spec pt sq occupancy =
  fold_left (fun a d => Z.lor a (bb_of_squares
                    (blocked_prefix occupancy (ray_path ray_fuel d sq))))
            (directions pt) 0.
Proof.
  intros Hsq. unfold slidingAttacks_spec. rewrite directions_spec.
  apply spec_fold_path; [assumption | apply spec_directions_all].
Qed.

(** Claim C3 (amended): for ROOK and BISHOP, every origin square of the
    board and every occupancy that does not contain the origin,
    [sliding_attack] returns (with 7 units of fuel) exactly what the walk in
    the words of the specification returns: each of the 4 directions is
    walked one step at a time, a step that leaves the board stops the ray,
    otherwise the destination is added, and the ray stops after the first
    destination that is occupied. *)
Theorem sliding_attack_refines_spec (pt : PieceType) (sq : Square)
    (occupancy : Bitboard) :
  pt = ROOK \/ pt = BISHOP ->
  0 <= sq < 64 ->
  Z.testbit occupancy sq = false ->
  sliding_attack_fuel ray_fuel pt sq occupancy = Some (slidingAttacks_spec pt sq occupancy)
  /\ sliding_attack pt sq occupancy = slidingAttacks_spec pt sq occupancy.
Proof.
  intros _ Hsq Hocc.
  rewrite sliding_attack_closed_form, sliding_attack_unfold by assumption.
  rewrite occupied_at_testbit, Hocc by lia.
  rewrite slidingAttacks_spec_unfold by assumption. split; reflexivity.
Qed.

Lemma sliding_attack_refines_spec_witness :
  sliding_attack ROOK SQ_D4 (square_bb SQ_D6) = slidingAttacks_spec ROOK SQ_D4 (square_bb SQ_D6).
Proof.
  apply (sliding_attack_refines_spec ROOK SQ_D4 (square_bb SQ_D6)).
  - left; reflexivity.
  - unfold SQ_D4; lia.
  - reflexivity.
Defined.

Lemma sliding_attack_spec_counterexample :
  0 <= SQ_A1 < 64 /\
  sliding_attack ROOK SQ_A1 (square_bb SQ_A1) = 0 /\
  slidingAttacks_spec ROOK SQ_A1 (square_bb SQ_A1) = 0x01010101010101FE /\
  sliding_attack ROOK SQ_A1 (square_bb SQ_A1)
    <> slidingAttacks_spec ROOK SQ_A1 (square_bb SQ_A1).
Proof.
  split; [unfold SQ_A1; lia|]. split; [vm_compute; reflexivity|]. split; [vm_compute; reflexivity|].
  vm_compute. discriminate.
Qed.

Lemma land_double_bit (a b : Z) (x y : bool) :
  Z.land (2 * a + Z.b2z x) (2 * b + Z.b2z y) = 2 * Z.land a b + Z.b2z (x && y).
Proof.
  apply Z.bits_inj'. intros n Hn.
  destruct (Z.eq_dec n 0) as [->|Hne].
  - rewrite Z.land_spec, !Z.testbit_0_r. reflexivity.
  - replace n with (Z.succ (n - 1)) by lia.
    rewrite Z.land_spec, !Z.testbit_succ_r, Z.land_spec by lia. reflexivity.
Qed.

Lemma land_double (a b : Z) : Z.land (2 * a) (2 * b) = 2 * Z.land a b.
Proof.
  pose proof (land_double_bit a b false false) as H. simpl in H.
  rewrite !Z.add_0_r in H. exact H.
Qed.

Lemma land_double_l (a b : Z) : Z.land (2 * a) (2 * b + 1) = 2 * Z.land a b.
Proof.
  pose proof (land_double_bit a b false true) as H. simpl in H.
  rewrite !Z.add_0_r in H. exact H.
Qed.

Lemma land_double_1 (a b : Z) : Z.land (2 * a + 1) (2 * b + 1) = 2 * Z.land a b + 1.
Proof. exact (land_double_bit a b true true). Qed.

Lemma land_sub_pred (p m : Z) :
  Z.land p m = p -> Z.land (p - m - 1) m = p.
Proof.
  intros Hsub.
  assert (Hd : Z.land p (Z.lnot m) = 0).
  { rewrite <- Hsub, <- Z.land_assoc, Z.land_lnot_diag, Z.land_0_r. reflexivity. }
  replace (p - m - 1) with (p + Z.lnot m) by (unfold Z.lnot; lia).
  rewrite Z.add_nocarry_lxor by exact Hd.
  rewrite Z.lxor_lor by exact Hd.
  rewrite Z.land_lor_distr_l, Hsub.
  rewrite (Z.land_comm (Z.lnot m)), Z.land_lnot_diag. apply Z.lor_0_r.
Qed.

Lemma pdep_pos_subset (m : positive) : forall n,
  Z.land (pdep_pos n m) (Zpos m) = pdep_pos n m.
Proof.
  induction m as [m IH|m IH|]; intros n; cbn [pdep_pos].
  - change (Z.pos m~1) with (2 * Z.pos m + 1).
    pose proof (Z.mod_pos_bound n 2 ltac:(lia)) as Hb.
    assert (E : n mod 2 = 0 \/ n mod 2 = 1) by lia.
    destruct E as [E|E]; rewrite E.
    + rewrite Z.add_0_r, land_double_l, IH. reflexivity.
    + rewrite land_double_1, IH. reflexivity.
  - change (Z.pos m~0) with (2 * Z.pos m). rewrite land_double, IH. reflexivity.
  - pose proof (Z.mod_pos_bound n 2 ltac:(lia)) as Hb.
    assert (E : n mod 2 = 0 \/ n mod 2 = 1) by lia.
    destruct E as [E|E]; rewrite E; reflexivity.
Qed.

Lemma pdep_pos_nonneg (m : positive) : forall n, 0 <= pdep_pos n m.
Proof.
  induction m as [m IH|m IH|]; intros n; cbn [pdep_pos].
  - pose proof (IH (n / 2)). pose proof (Z.mod_pos_bound n 2 ltac:(lia)). lia.
  - pose proof (IH n). lia.
  - pose proof (Z.mod_pos_bound n 2 ltac:(lia)). lia.
Qed.

(** One Carry-Rippler step moves from the [n]-th subset to the next. *)
Lemma pdep_pos_next (m : positive) : forall n,
  Z.land (pdep_pos n m - Zpos m) (Zpos m) = pdep_pos (n + 1) m.
Proof.
  induction m as [m IH|m IH|]; intros n; cbn [pdep_pos].
  - change (Z.pos m~1) with (2 * Z.pos m + 1).
    pose proof (Z.mod_pos_bound n 2 ltac:(lia)) as Hb.
    assert (E : n mod 2 = 0 \/ n mod 2 = 1) by lia.
    destruct E as [E|E]; rewrite E.
    + replace (2 * pdep_pos (n / 2) m + 0 - (2 * Z.pos m + 1))
        with (2 * (pdep_pos (n / 2) m - Z.pos m - 1) + 1) by lia.
      rewrite land_double_1, land_sub_pred by apply pdep_pos_subset.
      replace ((n + 1) / 2) with (n / 2) by (Z.div_mod_to_equations; lia).
      replace ((n + 1) mod 2) with 1 by (Z.div_mod_to_equations; lia).
      reflexivity.
    + replace (2 * pdep_pos (n / 2) m + 1 - (2 * Z.pos m + 1))
        with (2 * (pdep_pos (n / 2) m - Z.pos m)) by lia.
      rewrite land_double_l, IH.
      replace ((n + 1) / 2) with (n / 2 + 1) by (Z.div_mod_to_equations; lia).
      replace ((n + 1) mod 2) with 0 by (Z.div_mod_to_equations; lia).
      lia.
  - change (Z.pos m~0) with (2 * Z.pos m).
    replace (2 * pdep_pos n m - 2 * Z.pos m) with (2 * (pdep_pos n m - Z.pos m)) by lia.
    rewrite land_double, IH. reflexivity.
  - pose proof (Z.mod_pos_bound n 2 ltac:(lia)) as Hb.
    assert (E : n mod 2 = 0 \/ n mod 2 = 1) by lia.
    destruct E as [E|E]; rewrite E.
    + replace ((n + 1) mod 2) with 1 by (Z.div_mod_to_equations; lia). reflexivity.
    + replace ((n + 1) mod 2) with 0 by (Z.div_mod_to_equations; lia). reflexivity.
Qed.

Lemma pext_pdep_pos (m : positive) : forall n,
  pext_pos (pdep_pos n m) m = n mod 2 ^ Z.of_nat (Pos_popcount m).
Proof.
  induction m as [m IH|m IH|]; intros n; cbn [pdep_pos pext_pos Pos_popcount].
  - replace ((2 * pdep_pos (n / 2) m + n mod 2) / 2) with (pdep_pos (n / 2) m)
      by (Z.div_mod_to_equations; lia).
    replace ((2 * pdep_pos (n / 2) m + n mod 2) mod 2) with (n mod 2)
      by (Z.div_mod_to_equations; lia).
    rewrite IH, Nat2Z.inj_succ, Z.pow_succ_r by lia.
    rewrite Z.rem_mul_r by lia. lia.
  - replace (2 * pdep_pos n m / 2) with (pdep_pos n m)
      by (Z.div_mod_to_equations; lia).
    apply IH.
  - change (2 ^ Z.of_nat 1) with 2. apply Z.mod_mod. lia.
Qed.

Lemma pdep_pext_pos (m : positive) : forall b,
  0 <= b -> Z.land b (Zpos m) = b -> pdep_pos (pext_pos b m) m = b.
Proof.
  induction m as [m IH|m IH|]; intros b Hb Hsub; cbn [pdep_pos pext_pos].
  - change (Z.pos m~1) with (2 * Z.pos m + 1) in Hsub.
    pose proof (Z.mod_pos_bound b 2 ltac:(lia)) as Hbb.
    assert (Hh : Z.land (b / 2) (Zpos m) = b / 2).
    { rewrite (Z.div_mod b 2 ltac:(lia)) in Hsub at 1 2.
      assert (E : b mod 2 = 0 \/ b mod 2 = 1) by lia.
      destruct E as [E|E]; rewrite E in Hsub.
      - rewrite Z.add_0_r, land_double_l in Hsub. lia.
      - rewrite land_double_1 in Hsub. lia. }
    replace ((2 * pext_pos (b / 2) m + b mod 2) / 2) with (pext_pos (b / 2) m)
      by (Z.div_mod_to_equations; lia).
    replace ((2 * pext_pos (b / 2) m + b mod 2) mod 2) with (b mod 2)
      by (Z.div_mod_to_equations; lia).
    rewrite IH by (try exact Hh; Z.div_mod_to_equations; lia).
    Z.div_mod_to_equations; lia.
  - change (Z.pos m~0) with (2 * Z.pos m) in Hsub.
    pose proof (Z.mod_pos_bound b 2 ltac:(lia)) as Hbb.
    assert (Hh : Z.land (b / 2) (Zpos m) = b / 2 /\ b mod 2 = 0).
    { rewrite (Z.div_mod b 2 ltac:(lia)) in Hsub at 1 2.
      assert (E : b mod 2 = 0 \/ b mod 2 = 1) by lia.
      destruct E as [E|E]; rewrite E in Hsub.
      - rewrite Z.add_0_r, land_double in Hsub. lia.
      - rewrite Z.land_comm in Hsub. rewrite land_double_l in Hsub. lia. }
    destruct Hh as [Hh He].
    rewrite IH by (try exact Hh; Z.div_mod_to_equations; lia).
    Z.div_mod_to_equations; lia.
  - assert (E : b = 0 \/ b = 1).
    { change 1 with (Z.ones 1) in Hsub. rewrite Z.land_ones in Hsub by lia.
      change (2 ^ 1) with 2 in Hsub.
      pose proof (Z.mod_pos_bound b 2 ltac:(lia)). lia. }
    destruct E as [-> | ->]; reflexivity.
Qed.

Lemma testbit_above_64 (m i : Z) : 0 <= m < 2 ^ 64 -> 64 <= i -> Z.testbit m i = false.
Proof.
  intros Hm Hi. rewrite <- (Z.mod_small m (2 ^ 64)) by assumption.
  apply Z.mod_pow2_bits_high. lia.
Qed.

Lemma land_mod_64 (x m : Z) :
  0 <= m < 2 ^ 64 -> Z.land (x mod 2 ^ 64) m = Z.land x m.
Proof.
  intros Hm. apply Z.bits_inj'. intros n Hn. rewrite !Z.land_spec.
  destruct (Z.lt_ge_cases n 64) as [Hlt|Hge].
  - rewrite Z.mod_pow2_bits_low by lia. reflexivity.
  - rewrite (testbit_above_64 m n) by assumption. rewrite !andb_false_r. reflexivity.
Qed.

Lemma next_subset_pdep (mask : Bitboard) (n : Z) :
  0 <= mask < 2 ^ 64 -> next_subset mask (pdep n mask) = pdep (n + 1) mask.
Proof.
  intros Hm. unfold next_subset. rewrite land_mod_64 by assumption.
  destruct mask as [|m|m]; [reflexivity| |lia].
  apply pdep_pos_next.
Qed.

Lemma pdep_0 (mask : Bitboard) : pdep 0 mask = 0.
Proof.
  destruct mask as [|m|m]; try reflexivity. simpl.
  induction m as [m IH|m IH|]; cbn [pdep_pos].
  - change (0 / 2) with 0. rewrite IH. reflexivity.
  - rewrite IH. reflexivity.
  - reflexivity.
Qed.

Lemma pdep_pos_pow2 (m : positive) :
  forall q, pdep_pos (2 ^ Z.of_nat (Pos_popcount m) * q) m = 0.
Proof.
  induction m as [m IH|m IH|]; intros q; cbn [pdep_pos Pos_popcount].
  - rewrite Nat2Z.inj_succ, Z.pow_succ_r by lia.
    replace (2 * 2 ^ Z.of_nat (Pos_popcount m) * q)
      with ((2 ^ Z.of_nat (Pos_popcount m) * q) * 2) by lia.
    rewrite Z.div_mul, Z.mod_mul, IH by lia. reflexivity.
  - rewrite IH. reflexivity.
  - change (2 ^ Z.of_nat 1) with 2. rewrite Z.mul_comm, Z.mod_mul by lia. reflexivity.
Qed.

Lemma pdep_pow2 (mask : Bitboard) : pdep (2 ^ Z.of_nat (popcount mask)) mask = 0.
Proof.
  destruct mask as [|m|m]; try reflexivity. simpl popcount. cbn [pdep].
  rewrite <- (Z.mul_1_r (2 ^ _)). apply pdep_pos_pow2.
Qed.

Lemma pext_pdep (mask : Bitboard) (n : Z) :
  0 < mask -> pext (pdep n mask) mask = n mod 2 ^ Z.of_nat (popcount mask).
Proof.
  intros Hm. destruct mask as [|m|m]; try lia. apply pext_pdep_pos.
Qed.

Lemma pdep_inj (mask : Bitboard) (n n' : Z) :
  0 <= n < 2 ^ Z.of_nat (popcount mask) ->
  0 <= n' < 2 ^ Z.of_nat (popcount mask) ->
  pdep n mask = pdep n' mask -> n = n'.
Proof.
  intros Hn Hn' E.
  destruct (Z.eq_dec mask 0) as [->|Hne].
  { simpl in Hn, Hn'. lia. }
  destruct (Z.lt_ge_cases mask 0) as [Hneg|Hpos].
  { destruct mask; try lia. simpl in Hn, Hn'. lia. }
  assert (E' : pext (pdep n mask) mask = pext (pdep n' mask) mask) by (rewrite E; reflexivity).
  rewrite !pext_pdep in E' by lia.
  rewrite !Z.mod_small in E' by assumption. exact E'.
Qed.

Lemma pdep_nonzero (mask : Bitboard) (n : Z) :
  0 < n < 2 ^ Z.of_nat (popcount mask) -> pdep n mask <> 0.
Proof.
  intros Hn E. rewrite <- (pdep_0 mask) in E.
  apply pdep_inj in E; lia.
Qed.

Lemma pdep_subset (mask : Bitboard) (n : Z) :
  0 <= pdep n mask /\ Z.land (pdep n mask) mask = pdep n mask.
Proof.
  destruct mask as [|m|m]; simpl pdep; try (split; [lia|reflexivity]).
  split; [apply pdep_pos_nonneg | apply pdep_pos_subset].
Qed.

Lemma pext_pos_bound (m : positive) : forall b,
  0 <= b -> 0 <= pext_pos b m < 2 ^ Z.of_nat (Pos_popcount m).
Proof.
  induction m as [m IH|m IH|]; intros b Hb; cbn [pext_pos Pos_popcount].
  - rewrite Nat2Z.inj_succ, Z.pow_succ_r by lia.
    pose proof (IH (b / 2) ltac:(Z.div_mod_to_equations; lia)).
    pose proof (Z.mod_pos_bound b 2 ltac:(lia)). lia.
  - apply IH. Z.div_mod_to_equations; lia.
  - change (2 ^ Z.of_nat 1) with 2. apply Z.mod_pos_bound. lia.
Qed.

(** Every subset of the mask is the deposit of its extract. *)
Lemma pdep_pext (mask b : Bitboard) :
  0 <= mask -> 0 <= b -> Z.land b mask = b ->
  pdep (pext b mask) mask = b /\ 0 <= pext b mask < 2 ^ Z.of_nat (popcount mask).
Proof.
  intros Hm Hb Hsub. destruct mask as [|m|m]; [| |lia].
  - rewrite Z.land_0_r in Hsub. subst b. simpl. split; [reflexivity|lia].
  - split; [apply pdep_pext_pos; assumption | apply pext_pos_bound; assumption].
Qed.

Lemma run_body_collect (l visited : list Bitboard) :
  run_body (fun board visited => Done (visited ++ [board])) l visited
  = Done (visited ++ l).
Proof.
  revert visited. induction l as [|b l IH]; intros visited; simpl.
  - rewrite app_nil_r. reflexivity.
  - rewrite IH, <- app_assoc. reflexivity.
Qed.

(** The loop visits [pdep j mask], [pdep (j+1) mask], ... up to the last
    subset and then stops. *)
Lemma carry_rippler_from {St : Type} (mask : Bitboard)
    (body : Bitboard -> St -> result St) :
  0 <= mask < 2 ^ 64 ->
  forall (fuel j : nat) (st : St),
  (j < 2 ^ popcount mask)%nat ->
  (2 ^ popcount mask - j <= fuel)%nat ->
  carry_rippler fuel mask body (pdep (Z.of_nat j) mask) st =
  run_body body (map (fun n => pdep (Z.of_nat n) mask)
                     (seq j (2 ^ popcount mask - j))) st.
Proof.
  intros Hm. induction fuel as [|fuel IH]; intros j st Hj Hf; [lia|].
  replace (2 ^ popcount mask - j)%nat with (S (2 ^ popcount mask - S j))%nat by lia.
  cbn [carry_rippler seq map run_body].
  destruct (body (pdep (Z.of_nat j) mask) st) as [st'| |]; try reflexivity.
  cbv zeta. rewrite next_subset_pdep by assumption.
  replace (Z.of_nat j + 1) with (Z.of_nat (S j)) by lia.
  destruct (Nat.eq_dec (S j) (2 ^ popcount mask)%nat) as [E|Hne].
  - rewrite E, Nat2Z.inj_pow. change (Z.of_nat 2) with 2.
    rewrite pdep_pow2, Nat.sub_diag. reflexivity.
  - assert (Hnz : pdep (Z.of_nat (S j)) mask <> 0).
    { apply pdep_nonzero. split; [lia|].
      rewrite <- (Nat2Z.inj_pow 2). lia. }
    apply Z.eqb_neq in Hnz. rewrite Hnz.
    apply IH; lia.
Qed.

Lemma pow2_pos_nat (k : nat) : (0 < 2 ^ k)%nat.
Proof. induction k; simpl; lia. Qed.

Lemma carry_rippler_spec {St : Type} (mask : Bitboard)
    (body : Bitboard -> St -> result St) (fuel : nat) (st : St) :
  0 <= mask < 2 ^ 64 ->
  (2 ^ popcount mask <= fuel)%nat ->
  carry_rippler fuel mask body 0 st = run_body body (subsets mask) st.
Proof.
  intros Hm Hf.
  pose proof (carry_rippler_from mask body Hm fuel 0%nat st) as H.
  change (Z.of_nat 0) with 0 in H. rewrite pdep_0, Nat.sub_0_r in H.
  apply H; [apply pow2_pos_nat | lia].
Qed.

Lemma subsets_In (mask b : Bitboard) :
  0 <= mask ->
  In b (subsets mask) <-> 0 <= b /\ Z.land b mask = b.
Proof.
  intros Hm. unfold subsets. rewrite in_map_iff. split.
  - intros (n & <- & _). apply pdep_subset.
  - intros [Hb Hsub]. destruct (pdep_pext mask b Hm Hb Hsub) as [E Hr].
    exists (Z.to_nat (pext b mask)). split.
    + rewrite Z2Nat.id by lia. exact E.
    + apply in_seq. split; [lia|]. simpl.
      apply Nat2Z.inj_lt. rewrite Z2Nat.id, Nat2Z.inj_pow by lia. apply Hr.
Qed.

Lemma subsets_NoDup (mask : Bitboard) : List.NoDup (subsets mask).
Proof.
  unfold subsets. apply NoDup_map_NoDup_ForallPairs; [|apply seq_NoDup].
  intros x y Hx Hy E. apply in_seq in Hx, Hy.
  apply Nat2Z.inj. apply (pdep_inj mask); try exact E.
  - rewrite <- (Nat2Z.inj_pow 2). lia.
  - rewrite <- (Nat2Z.inj_pow 2). lia.
Qed.

Lemma subsets_length (mask : Bitboard) :
  length (subsets mask) = (2 ^ popcount mask)%nat.
Proof. unfold subsets. rewrite length_map, length_seq. reflexivity. Qed.

(** Claim C4: for every 64-bit mask, the recurrence
    [subset = (subset - mask) & mask] started from the empty subset stops
    (any fuel of at least [2 ^ popcount mask] is enough) after visiting
    exactly [2 ^ popcount mask] bitboards, without repeats, the first one
    being the empty subset; the bitboards visited are exactly the subsets
    of the mask. *)
Theorem carry_rippler_enumerates (mask : Bitboard) :
  0 <= mask < 2 ^ 64 ->
  exists visited : list Bitboard,
    (forall fuel, (2 ^ popcount mask <= fuel)%nat ->
       enumerate_subsets fuel mask = Done visited) /\
    length visited = (2 ^ popcount mask)%nat /\
    List.NoDup visited /\
    nth 0 visited 1 = 0 /\
    (forall b, In b visited <-> 0 <= b /\ Z.land b mask = b).
Proof.
  intros Hm. exists (subsets mask). split; [|split; [|split; [|split]]].
  - intros fuel Hf. unfold enumerate_subsets.
    rewrite carry_rippler_spec by assumption. apply run_body_collect.
  - apply subsets_length.
  - apply subsets_NoDup.
  - unfold subsets. pose proof (pow2_pos_nat (popcount mask)).
    destruct (2 ^ popcount mask)%nat; [lia|]. simpl. apply pdep_0.
  - intros b. apply subsets_In. lia.
Qed.

Lemma carry_rippler_enumerates_witness :
  exists visited : list Bitboard,
    enumerate_subsets 4 0x0000000000000102 = Done visited /\
    length visited = 4%nat.
Proof.
  destruct (carry_rippler_enumerates 0x0000000000000102 ltac:(lia))
    as (visited & Hrun & Hlen & _).
  exists visited. split; [apply Hrun; simpl; lia | exact Hlen].
Defined.

(** A loop that completes has visited exactly the subsets of the mask,
    whatever the fuel was. *)
Lemma carry_rippler_done_from {St : Type} (mask : Bitboard)
    (body : Bitboard -> St -> result St) :
  0 <= mask < 2 ^ 64 ->
  forall (fuel j : nat) (st st' : St),
  (j < 2 ^ popcount mask)%nat ->
  carry_rippler fuel mask body (pdep (Z.of_nat j) mask) st = Done st' ->
  run_body body (map (fun n => pdep (Z.of_nat n) mask)
                     (seq j (2 ^ popcount mask - j))) st = Done st'.
Proof.
  intros Hm. induction fuel as [|fuel IH]; intros j st st' Hj Hrun; [discriminate|].
  replace (2 ^ popcount mask - j)%nat with (S (2 ^ popcount mask - S j))%nat by lia.
  cbn [carry_rippler seq map run_body] in Hrun |- *.
  destruct (body (pdep (Z.of_nat j) mask) st) as [st1| |]; try discriminate.
  cbv zeta in Hrun. rewrite next_subset_pdep in Hrun by assumption.
  replace (Z.of_nat j + 1) with (Z.of_nat (S j)) in Hrun by lia.
  destruct (Nat.eq_dec (S j) (2 ^ popcount mask)%nat) as [E|Hne].
  - rewrite E, Nat2Z.inj_pow in Hrun. change (Z.of_nat 2) with 2 in Hrun.
    rewrite pdep_pow2 in Hrun. rewrite E, Nat.sub_diag. exact Hrun.
  - assert (Hnz : pdep (Z.of_nat (S j)) mask <> 0).
    { apply pdep_nonzero. split; [lia|].
      rewrite <- (Nat2Z.inj_pow 2). lia. }
    apply Z.eqb_neq in Hnz. rewrite Hnz in Hrun.
    apply IH; [lia | exact Hrun].
Qed.

Lemma carry_rippler_done {St : Type} (mask : Bitboard)
    (body : Bitboard -> St -> result St) (fuel : nat) (st st' : St) :
  0 <= mask < 2 ^ 64 ->
  carry_rippler fuel mask body 0 st = Done st' ->
  run_body body (subsets mask) st = Done st'.
Proof.
  intros Hm Hrun.
  pose proof (carry_rippler_done_from mask body Hm fuel 0%nat st st') as H.
  change (Z.of_nat 0) with 0 in H. rewrite pdep_0, Nat.sub_0_r in H.
  apply H; [apply pow2_pos_nat | exact Hrun].
Qed.

(** *** Reads and writes of a table *)

Lemma table_set_other_row (t : AttackTable) (s : Square) (idx b : Z) (n : nat) :
  n <> Z.to_nat s -> table_set t s idx b !! n = t !! n.
Proof.
  intros Hn. unfold table_set. destruct (t !! Z.to_nat s); [|reflexivity].
  apply list_lookup_insert_ne. congruence.
Qed.

Lemma table_set_row (t : AttackTable) (s : Square) (idx b : Z) (row : list Bitboard) :
  t !! Z.to_nat s = Some row ->
  table_set t s idx b !! Z.to_nat s = Some (<[Z.to_nat idx := b]> row).
Proof.
  intros Hr. unfold table_set. rewrite Hr.
  apply list_lookup_insert_eq. apply lookup_lt_Some in Hr. exact Hr.
Qed.

Lemma table_get_set_same (t : AttackTable) (s : Square) (idx b : Z) (row : list Bitboard) :
  t !! Z.to_nat s = Some row -> (Z.to_nat idx < length row)%nat ->
  table_get (table_set t s idx b) s idx = b.
Proof.
  intros Hr Hi. unfold table_get. rewrite (table_set_row t s idx b row Hr).
  rewrite list_lookup_insert_eq by exact Hi. reflexivity.
Qed.

Lemma table_get_set_other (t : AttackTable) (s : Square) (idx idx' b : Z) :
  Z.to_nat idx' <> Z.to_nat idx ->
  table_get (table_set t s idx b) s idx' = table_get t s idx'.
Proof.
  intros Hi. unfold table_get.
  destruct (t !! Z.to_nat s) as [row|] eqn:Hr.
  - rewrite (table_set_row t s idx b row Hr).
    rewrite list_lookup_insert_ne by congruence. reflexivity.
  - unfold table_set. rewrite Hr, Hr. reflexivity.
Qed.

Lemma table_get_row_ext (t t' : AttackTable) (s : Square) (idx : Z) :
  t' !! Z.to_nat s = t !! Z.to_nat s -> table_get t' s idx = table_get t s idx.
Proof. intros E. unfold table_get. rewrite E. reflexivity. Qed.

(** *** One pass of the builder *)

Lemma unsigned_index_nonneg (index_of : Z -> Magic -> Bitboard -> Z) (bits : Z)
    (m : Magic) (board : Bitboard) :
  0 <= unsigned_index index_of bits m board.
Proof. unfold unsigned_index. apply Z.mod_pos_bound. lia. Qed.

Section Pass.
Variable index_of : Z -> Magic -> Bitboard -> Z.
Variables (pt : PieceType) (bits : Z) (m : Magic) (s : Square).

Lemma fill_slot_done (board : Bitboard) (occured occured' : list bool)
    (t t' : AttackTable) :
  fill_slot index_of pt bits m s board (occured, t) = Done (occured', t') ->
  unsigned_index index_of bits m board < 2 ^ bits /\
  occured !! Z.to_nat (unsigned_index index_of bits m board) = Some false /\
  occured' = <[Z.to_nat (unsigned_index index_of bits m board) := true]> occured /\
  t' = table_set t s (unsigned_index index_of bits m board) (sliding_attack pt s board).
Proof.
  unfold fill_slot. cbv zeta.
  destruct (unsigned_index index_of bits m board <? 2 ^ bits) eqn:Hlt; [|discriminate].
  destruct (occured !! Z.to_nat (unsigned_index index_of bits m board)) as [[|]|] eqn:Ho;
    try discriminate.
  intros H. injection H as <- <-. repeat split. lia.
Qed.

(** What a completed run of the loop body over a list of boards leaves
    behind. *)
Lemma run_fill_inv (l : list Bitboard) :
  forall (occured occured' : list bool) (t t' : AttackTable),
  run_body (fill_slot index_of pt bits m s) l (occured, t) = Done (occured', t') ->
  (exists row, t !! Z.to_nat s = Some row /\ length row = length occured) ->
  (forall n, n <> Z.to_nat s -> t' !! n = t !! n) /\
  (forall idx, occured !! Z.to_nat idx = Some true ->
     occured' !! Z.to_nat idx = Some true /\
     table_get t' s idx = table_get t s idx) /\
  (forall b, In b l ->
     table_get t' s (unsigned_index index_of bits m b) = sliding_attack pt s b) /\
  List.NoDup (map (unsigned_index index_of bits m) l) /\
  (forall b, In b l -> 0 <= unsigned_index index_of bits m b < 2 ^ bits) /\
  (forall b, In b l -> occured !! Z.to_nat (unsigned_index index_of bits m b) <> Some true).
Proof.
  induction l as [|b l IH]; intros occured occured' t t' Hrun Hrow.
  - simpl in Hrun. injection Hrun as <- <-.
    split; [tauto|]. split; [tauto|]. split; [intros b []|].
    split; [apply List.NoDup_nil|]. split; intros b [].
  - cbn [run_body] in Hrun.
    destruct (fill_slot index_of pt bits m s b (occured, t)) as [[occ1 t1]| |] eqn:Hb;
      try discriminate.
    apply fill_slot_done in Hb. destruct Hb as (Hlt & Hfree & -> & ->).
    destruct Hrow as (row & Hrow & Hlen).
    pose proof (lookup_lt_Some _ _ _ Hfree) as Hin.
    specialize (IH _ _ _ _ Hrun).
    destruct IH as (Hother & Hkeep & Hval & Hnd & Hrange & Hfresh).
    { exists (<[Z.to_nat (unsigned_index index_of bits m b) := sliding_attack pt s b]> row).
      split; [apply table_set_row, Hrow|].
      rewrite !length_insert. exact Hlen. }
    assert (Hmark : (<[Z.to_nat (unsigned_index index_of bits m b) := true]> occured)
                      !! Z.to_nat (unsigned_index index_of bits m b) = Some true)
      by (apply list_lookup_insert_eq; exact Hin).
    split; [|split; [|split; [|split; [|split]]]].
    + intros n Hn. rewrite Hother by exact Hn.
      apply table_set_other_row, Hn.
    + intros idx Hidx.
      assert (Hne : Z.to_nat idx <> Z.to_nat (unsigned_index index_of bits m b))
        by (intros E; rewrite E in Hidx; congruence).
      destruct (Hkeep idx) as [Hk1 Hk2].
      { rewrite list_lookup_insert_ne by congruence. exact Hidx. }
      split; [exact Hk1|]. rewrite Hk2. apply table_get_set_other, Hne.
    + intros b' [<-|Hb'].
      * destruct (Hkeep (unsigned_index index_of bits m b) Hmark) as [_ Hk]. rewrite Hk.
        apply (table_get_set_same t s _ _ row Hrow). lia.
      * apply Hval, Hb'.
    + cbn [map]. constructor; [|exact Hnd].
      intros Hdup. apply in_map_iff in Hdup. destruct Hdup as (b' & E & Hb').
      apply (Hfresh b' Hb'). rewrite E. exact Hmark.
    + intros b' [<-|Hb']; [split; [apply unsigned_index_nonneg|exact Hlt] | apply Hrange, Hb'].
    + intros b' [<-|Hb'] Hset; [congruence|].
      apply (Hfresh b' Hb').
      destruct (Nat.eq_dec (Z.to_nat (unsigned_index index_of bits m b)) (Z.to_nat (unsigned_index index_of bits m b'))) as [E|Hne].
      * rewrite <- E. exact Hmark.
      * rewrite list_lookup_insert_ne by exact Hne. exact Hset.
Qed.
End Pass.

Lemma slider_cases (pt : PieceType) : pt = ROOK \/ pt = BISHOP -> In pt sliders.
Proof. intros [->| ->]; simpl; tauto. Qed.

Lemma forall_sliders_squares (f : PieceType -> Square -> bool) :
  forallb (fun pt => forallb (f pt) all_squares) sliders = true ->
  forall pt s, pt = ROOK \/ pt = BISHOP -> 0 <= s < 64 -> f pt s = true.
Proof.
  intros H pt s Hpt Hs. rewrite forallb_forall in H.
  apply (forall_squares _ (H pt (slider_cases pt Hpt)) s Hs).
Qed.

Lemma masks_in_range :
  forallb (fun pt => forallb (mask_in_range pt) all_squares) sliders = true.
Proof. vm_compute. reflexivity. Qed.

Lemma masks_cover_rays :
  forallb (fun pt => forallb (mask_covers_ray pt) all_squares) sliders = true.
Proof. vm_compute. reflexivity. Qed.

Lemma masks_as_source :
  forallb (fun pt => forallb (mask_as_source pt) all_squares) sliders = true.
Proof. vm_compute. reflexivity. Qed.

Lemma relevant_mask_range (pt : PieceType) (s : Square) :
  pt = ROOK \/ pt = BISHOP -> 0 <= s < 64 -> 0 <= relevant_mask pt s < 2 ^ 64.
Proof.
  intros Hpt Hs. pose proof (forall_sliders_squares _ masks_in_range pt s Hpt Hs) as H.
  unfold mask_in_range in H. lia.
Qed.

Lemma blocked_prefix_ext (o1 o2 : Bitboard) (l : list Square) :
  (forall x, In x (removelast l) -> occupied_at o1 x = occupied_at o2 x) ->
  blocked_prefix o1 l = blocked_prefix o2 l.
Proof.
  induction l as [|x l IH]; intros H; [reflexivity|].
  cbn [blocked_prefix]. destruct l as [|y l].
  - destruct (occupied_at o1 x), (occupied_at o2 x); reflexivity.
  - rewrite (H x) by (left; reflexivity).
    rewrite IH by (intros z Hz; apply H; right; exact Hz). reflexivity.
Qed.

Lemma fold_lor_ext {A : Type} (F G : A -> Bitboard) (l : list A) (a : Bitboard) :
  (forall x, In x l -> F x = G x) ->
  fold_left (fun acc x => Z.lor acc (F x)) l a =
  fold_left (fun acc x => Z.lor acc (G x)) l a.
Proof.
  revert a. induction l as [|x l IH]; intros a H; simpl; [reflexivity|].
  rewrite (H x) by (left; reflexivity).
  apply IH. intros y Hy. apply H. right. exact Hy.
Qed.

(** Occupancy outside the relevant mask never changes the attack set of an
    unoccupied origin. *)
Lemma sliding_attack_relevant (pt : PieceType) (s : Square) (occupied : Bitboard) :
  pt = ROOK \/ pt = BISHOP -> 0 <= s < 64 ->
  Z.testbit occupied s = false ->
  sliding_attack pt s (Z.land occupied (relevant_mask pt s)) =
  sliding_attack pt s occupied.
Proof.
  intros Hpt Hs Hfree. rewrite !sliding_attack_unfold by assumption.
  rewrite !occupied_at_testbit, Z.land_spec, Hfree by lia. simpl.
  apply fold_lor_ext. intros d Hd. f_equal.
  apply blocked_prefix_ext. intros x Hx.
  pose proof (forall_sliders_squares _ masks_cover_rays pt s Hpt Hs) as H.
  unfold mask_covers_ray in H. rewrite forallb_forall in H.
  specialize (H d Hd). rewrite forallb_forall in H. specialize (H x Hx).
  apply andb_true_iff in H. destruct H as [H0 Hb].
  rewrite !occupied_at_testbit, Z.land_spec, Hb by lia. apply andb_true_r.
Qed.

Section Table.
Variable index_of : Z -> Magic -> Bitboard -> Z.
Variables (pt : PieceType) (bits : Z) (magics : list Magic) (fuel : nat).

Lemma init_table_loop_inv (squares : list Square) :
  forall t t' : AttackTable,
  init_table_loop index_of fuel pt bits magics squares t = Done t' ->
  List.NoDup squares ->
  (forall s, In s squares -> 0 <= s /\ 0 <= mask (magic_at magics s) < 2 ^ 64) ->
  (forall s, In s squares ->
     exists row, t !! Z.to_nat s = Some row /\ length row = slots bits) ->
  (forall s, In s squares ->
     (forall b, In b (subsets (mask (magic_at magics s))) ->
        table_get t' s (unsigned_index index_of bits (magic_at magics s) b) = sliding_attack pt s b) /\
     List.NoDup (map (unsigned_index index_of bits (magic_at magics s)) (subsets (mask (magic_at magics s))))) /\
  (forall n, (forall s, In s squares -> n <> Z.to_nat s) -> t' !! n = t !! n).
Proof.
  induction squares as [|s rest IH]; intros t t' Hrun Hnd Hsq Hrows.
  - simpl in Hrun. injection Hrun as <-. split; [intros s []|reflexivity].
  - cbn [init_table_loop] in Hrun. cbv zeta in Hrun.
    fold (magic_at magics s) in Hrun.
    destruct (carry_rippler fuel (mask (magic_at magics s))
                (fill_slot index_of pt bits (magic_at magics s) s) 0
                (replicate (slots bits) false, t)) as [[occ1 t1]| |] eqn:Hpass;
      try discriminate.
    apply carry_rippler_done in Hpass; [|apply Hsq; left; reflexivity].
    apply run_fill_inv in Hpass.
    2:{ destruct (Hrows s (or_introl eq_refl)) as (row & Hr & Hl).
        exists row. split; [exact Hr|]. rewrite Hl, length_replicate. reflexivity. }
    destruct Hpass as (Hother & _ & Hval & Hdist & _).
    apply List.NoDup_cons_iff in Hnd. destruct Hnd as [Hnotin Hnd].
    assert (Hne : forall s', In s' rest -> Z.to_nat s' <> Z.to_nat s).
    { intros s' Hs' E. apply Hnotin.
      destruct (Hsq s (or_introl eq_refl)) as [H0 _].
      destruct (Hsq s' (or_intror Hs')) as [H0' _].
      replace s with s' by lia. exact Hs'. }
    specialize (IH t1 t' Hrun Hnd).
    destruct IH as (Hrest & Hframe).
    { intros s' Hs'. apply Hsq. right. exact Hs'. }
    { intros s' Hs'. rewrite Hother by (apply Hne, Hs').
      apply Hrows. right. exact Hs'. }
    split.
    + intros s' [<-|Hs'].
      * split; [|exact Hdist]. intros b Hb.
        rewrite (table_get_row_ext t1 t').
        -- apply Hval, Hb.
        -- apply Hframe. intros s' Hs' E. apply (Hne s' Hs'). symmetry. exact E.
      * apply Hrest, Hs'.
    + intros n Hn. rewrite Hframe by (intros s' Hs'; apply Hn; right; exact Hs').
      apply Hother. apply Hn. left. reflexivity.
Qed.
End Table.

Lemma all_squares_NoDup : List.NoDup all_squares.
Proof.
  unfold all_squares. apply NoDup_map_NoDup_ForallPairs; [|apply seq_NoDup].
  intros x y _ _ E. lia.
Qed.

Lemma is_done_inv {A : Type} (r : result A) :
  is_done r = true -> exists a, r = Done a.
Proof. destruct r; simpl; intros H; try discriminate. eexists; reflexivity. Qed.

(** Claim C7: for ROOK and BISHOP and every square, the mask of the
    square's magic descriptor is the empty-board sliding attack set with
    the squares of [edges] removed; [edges] holds the squares of the edge
    ranks other than the square's rank and of the edge files other than the
    square's file, and the mask contains none of them. *)
Theorem magic_mask_excludes_edges (pt : PieceType) (s : Square) :
  pt = ROOK \/ pt = BISHOP ->
  0 <= s < 64 ->
  let m := mask (magic_at (magics_of pt) s) in
  m = Z.land (sliding_attack pt s 0) (bb_not (edges s)) /\
  Z.land m (edges s) = 0 /\
  (forall t, 0 <= t < 64 ->
     Z.testbit (edges s) t = on_edge s t /\
     Z.testbit m t = Z.testbit (sliding_attack pt s 0) t && negb (on_edge s t)).
Proof.
  intros Hpt Hs m.
  pose proof (forall_sliders_squares _ masks_as_source pt s Hpt Hs) as H.
  unfold mask_as_source in H.
  apply andb_true_iff in H. destruct H as [H H3].
  apply andb_true_iff in H. destruct H as [H1 H2].
  apply Z.eqb_eq in H1, H2. fold m in H1.
  split; [exact H1|]. split; [rewrite H1; exact H2|].
  intros t Ht. apply (forall_squares _ H3) in Ht.
  apply andb_true_iff in Ht. destruct Ht as [Ha Hb].
  apply eqb_prop in Ha, Hb. rewrite H1. split; [exact Hb | exact Ha].
Qed.

Lemma magic_mask_excludes_edges_witness :
  mask (magic_at (magics_of ROOK) SQ_D4)
  = Z.land (sliding_attack ROOK SQ_D4 0) (bb_not (edges SQ_D4)).
Proof.
  apply (magic_mask_excludes_edges ROOK SQ_D4).
  - left; reflexivity.
  - unfold SQ_D4; lia.
Defined.

Lemma PieceType_eqb_spec (a b : PieceType) : PieceType_eqb a b = true <-> a = b.
Proof. destruct a, b; simpl; split; intros H; congruence. Qed.

Lemma PieceType_eqb_refl (a : PieceType) : PieceType_eqb a a = true.
Proof. destruct a; reflexivity. Qed.

Lemma existsb_eqb_cons (y a : Z) (l : list Z) :
  existsb (Z.eqb y) (a :: l) = (y =? a) || existsb (Z.eqb y) l.
Proof. reflexivity. Qed.

Section DerivedProofs.
Variable attacks_bb : PieceType -> Square -> Bitboard -> Bitboard.
Variable pawn_attacks_bb : Color -> Bitboard -> Bitboard.

Lemma step_Pseudo pt s1 s2 tb :
  PseudoAttacks (line_between_step attacks_bb pt s1 s2 tb) = PseudoAttacks tb.
Proof.
  unfold line_between_step.
  destruct (negb (bb_and_sq (PseudoAttacks tb pt s1) s2 =? 0)); reflexivity.
Qed.

Lemma step_Line pt s1 s2 tb x y :
  LineBB (line_between_step attacks_bb pt s1 s2 tb) x y =
  if (x =? s1) && (y =? s2) && contains (PseudoAttacks tb pt s1) s2
  then line_expr attacks_bb pt s1 s2 else LineBB tb x y.
Proof.
  unfold line_between_step, contains.
  destruct (negb (bb_and_sq (PseudoAttacks tb pt s1) s2 =? 0)); simpl.
  - rewrite andb_true_r. reflexivity.
  - rewrite andb_false_r. reflexivity.
Qed.

Lemma step_Between pt s1 s2 tb x y :
  BetweenBB (line_between_step attacks_bb pt s1 s2 tb) x y =
  if (x =? s1) && (y =? s2)
  then bb_or_sq (if contains (PseudoAttacks tb pt s1) s2
                 then between_expr attacks_bb pt s1 s2
                 else BetweenBB tb s1 s2) s2
  else BetweenBB tb x y.
Proof.
  unfold line_between_step, contains.
  destruct (negb (bb_and_sq (PseudoAttacks tb pt s1) s2 =? 0)); simpl.
  - rewrite !Z.eqb_refl. simpl.
    destruct ((x =? s1) && (y =? s2)); reflexivity.
  - reflexivity.
Qed.

(** The loop over [s2] for one piece type. *)
Lemma inner_loop pt s1 (l : list Square) :
  forall tb, List.NoDup l ->
  let tb' := fold_left (fun tb s2 => line_between_step attacks_bb pt s1 s2 tb) l tb in
  PseudoAttacks tb' = PseudoAttacks tb /\
  (forall x y, LineBB tb' x y =
     if (x =? s1) && existsb (Z.eqb y) l && contains (PseudoAttacks tb pt s1) y
     then line_expr attacks_bb pt s1 y else LineBB tb x y) /\
  (forall x y, BetweenBB tb' x y =
     if (x =? s1) && existsb (Z.eqb y) l
     then bb_or_sq (if contains (PseudoAttacks tb pt s1) y
                    then between_expr attacks_bb pt s1 y
                    else BetweenBB tb x y) y
     else BetweenBB tb x y).
Proof.
  induction l as [|a l IH]; intros tb Hnd; cbn [fold_left].
  - split; [reflexivity|]. split; intros x y; simpl;
      rewrite andb_false_r; reflexivity.
  - apply List.NoDup_cons_iff in Hnd. destruct Hnd as [Ha Hnd].
    destruct (IH (line_between_step attacks_bb pt s1 a tb) Hnd) as (HP & HL & HB). clear IH.
    rewrite step_Pseudo in HP, HL, HB.
    split; [exact HP|]. split; intros x y.
    + rewrite HL, step_Line, existsb_eqb_cons.
      destruct (y =? a) eqn:Eya.
      * apply Z.eqb_eq in Eya. subst y.
        assert (En : existsb (Z.eqb a) l = false).
        { apply not_true_is_false. intros H. apply Ha.
          apply existsb_exists in H. destruct H as (z & Hz & E).
          apply Z.eqb_eq in E. subst z. exact Hz. }
        rewrite En. simpl. rewrite !andb_false_r, !andb_true_r. simpl.
        reflexivity.
      * simpl. rewrite !andb_false_r. simpl.
        destruct ((x =? s1) && existsb (Z.eqb y) l && contains (PseudoAttacks tb pt s1) y);
          reflexivity.
    + rewrite HB, step_Between, existsb_eqb_cons.
      destruct (y =? a) eqn:Eya.
      * apply Z.eqb_eq in Eya. subst y.
        assert (En : existsb (Z.eqb a) l = false).
        { apply not_true_is_false. intros H. apply Ha.
          apply existsb_exists in H. destruct H as (z & Hz & E).
          apply Z.eqb_eq in E. subst z. exact Hz. }
        rewrite En. simpl. rewrite !andb_false_r, !andb_true_r.
        destruct (x =? s1) eqn:Ex; [|reflexivity].
        apply Z.eqb_eq in Ex. subst x. reflexivity.
      * simpl. rewrite !andb_false_r.
        destruct ((x =? s1) && existsb (Z.eqb y) l); reflexivity.
Qed.
End DerivedProofs.

Lemma existsb_eqb_false (a : Z) (l : list Z) :
  ~ In a l -> existsb (Z.eqb a) l = false.
Proof.
  intros Ha. apply not_true_is_false. intros H. apply Ha.
  apply existsb_exists in H. destruct H as (z & Hz & E).
  apply Z.eqb_eq in E. subst z. exact Hz.
Qed.

Lemma existsb_eqb_true (a : Z) (l : list Z) :
  In a l -> existsb (Z.eqb a) l = true.
Proof.
  intros Ha. apply existsb_exists. exists a. split; [exact Ha|apply Z.eqb_refl].
Qed.

Section DerivedLoops.
Variable attacks_bb : PieceType -> Square -> Bitboard -> Bitboard.
Variable pawn_attacks_bb : Color -> Bitboard -> Bitboard.

Lemma add_steps_spec (pt : PieceType) (s1 : Square) (steps : list Z) :
forall tb,
let tb' := add_steps pt s1 steps tb in
(forall pt' s', PseudoAttacks tb' pt' s' =
   if PieceType_eqb pt' pt && (s' =? s1)
   then steps_bb s1 steps (PseudoAttacks tb pt s1)
   else PseudoAttacks tb pt' s') /\
PawnAttacks tb' = PawnAttacks tb /\
LineBB tb' = LineBB tb /\ BetweenBB tb' = BetweenBB tb.
Proof.
unfold add_steps, steps_bb.
induction steps as [|st steps IH]; intros tb; cbn [fold_left].
- split; [|repeat split]. intros pt' s'.
  destruct (PieceType_eqb pt' pt && (s' =? s1)) eqn:E; [|reflexivity].
  apply andb_true_iff in E. destruct E as [E1 E2].
  apply PieceType_eqb_spec in E1. apply Z.eqb_eq in E2. subst. reflexivity.
- destruct (IH (set_PseudoAttacks tb pt s1
                  (Z.lor (PseudoAttacks tb pt s1) (safe_destination s1 st))))
    as (HP & HW & HL & HB). clear IH.
  split; [|split; [exact HW|split; [exact HL|exact HB]]].
  intros pt' s'. rewrite HP. cbn [PseudoAttacks set_PseudoAttacks].
  rewrite PieceType_eqb_refl, Z.eqb_refl. cbn [andb].
  destruct (PieceType_eqb pt' pt && (s' =? s1)); reflexivity.
Qed.

Lemma Pseudo_set_Pseudo tb pt s b pt' s' :
PseudoAttacks (set_PseudoAttacks tb pt s b) pt' s' =
if PieceType_eqb pt' pt && (s' =? s) then b else PseudoAttacks tb pt' s'.
Proof. reflexivity. Qed.

Lemma Pseudo_set_Pawn tb c s b : PseudoAttacks (set_PawnAttacks tb c s b) = PseudoAttacks tb.
Proof. reflexivity. Qed.

Lemma Pawn_set_Pawn tb c s b c' s' :
PawnAttacks (set_PawnAttacks tb c s b) c' s' =
if Color_eqb c' c && (s' =? s) then b else PawnAttacks tb c' s'.
Proof. reflexivity. Qed.

Lemma Pawn_set_Pseudo tb pt s b : PawnAttacks (set_PseudoAttacks tb pt s b) = PawnAttacks tb.
Proof. reflexivity. Qed.

Lemma Line_set_Pseudo tb pt s b : LineBB (set_PseudoAttacks tb pt s b) = LineBB tb.
Proof. reflexivity. Qed.

Lemma Line_set_Pawn tb c s b : LineBB (set_PawnAttacks tb c s b) = LineBB tb.
Proof. reflexivity. Qed.

Lemma Between_set_Pseudo tb pt s b : BetweenBB (set_PseudoAttacks tb pt s b) = BetweenBB tb.
Proof. reflexivity. Qed.

Lemma Between_set_Pawn tb c s b : BetweenBB (set_PawnAttacks tb c s b) = BetweenBB tb.
Proof. reflexivity. Qed.

Lemma init_pseudo_spec (s1 : Square) (tb : Tables) :
let tb' := init_pseudo attacks_bb pawn_attacks_bb s1 tb in
(forall pt s, PseudoAttacks tb' pt s =
   if s =? s1 then pseudo_row attacks_bb (fun pt => PseudoAttacks tb pt s1) pt s1
   else PseudoAttacks tb pt s) /\
(forall c s, PawnAttacks tb' c s =
   if s =? s1 then pawn_attacks_bb c (square_bb s1) else PawnAttacks tb c s) /\
LineBB tb' = LineBB tb /\ BetweenBB tb' = BetweenBB tb.
Proof.
unfold init_pseudo. cbv zeta.
remember (set_PawnAttacks (set_PawnAttacks tb WHITE s1 (pawn_attacks_bb WHITE (square_bb s1)))
            BLACK s1 (pawn_attacks_bb BLACK (square_bb s1))) as t1 eqn:Et1.
destruct (add_steps_spec KING s1 KingSteps t1) as (HP1 & HW1 & HL1 & HB1).
remember (add_steps KING s1 KingSteps t1) as t2 eqn:Et2. clear Et2.
destruct (add_steps_spec KNIGHT s1 KnightSteps t2) as (HP2 & HW2 & HL2 & HB2).
remember (add_steps KNIGHT s1 KnightSteps t2) as t3 eqn:Et3. clear Et3.
assert (HP0 : PseudoAttacks t1 = PseudoAttacks tb)
  by (rewrite Et1, !Pseudo_set_Pawn; reflexivity).
split; [|split; [|split]].
- intros pt s. rewrite !Pseudo_set_Pseudo, !HP2, !HP1, !HP0, !Z.eqb_refl.
  destruct (s =? s1) eqn:Es; rewrite ?andb_false_r, ?andb_true_r;
    [|reflexivity].
  apply Z.eqb_eq in Es. subst s.
  destruct pt; cbn [PieceType_eqb andb pseudo_row]; reflexivity.
- intros c s. rewrite !Pawn_set_Pseudo, HW2, HW1, Et1, !Pawn_set_Pawn.
  destruct (s =? s1); rewrite ?andb_false_r, ?andb_true_r; [|reflexivity].
  destruct c; reflexivity.
- rewrite !Line_set_Pseudo, HL2, HL1, Et1, !Line_set_Pawn. reflexivity.
- rewrite !Between_set_Pseudo, HB2, HB1, Et1, !Between_set_Pawn. reflexivity.
Qed.

Lemma init_lines_spec (s1 : Square) (tb : Tables) :
let tb' := init_lines attacks_bb s1 tb in
PseudoAttacks tb' = PseudoAttacks tb /\
(forall x y, LineBB tb' x y =
   if (x =? s1) && existsb (Z.eqb y) all_squares then
     if contains (PseudoAttacks tb ROOK s1) y then line_expr attacks_bb ROOK s1 y
     else if contains (PseudoAttacks tb BISHOP s1) y
          then line_expr attacks_bb BISHOP s1 y
          else LineBB tb x y
   else LineBB tb x y) /\
(forall x y, BetweenBB tb' x y =
   if (x =? s1) && existsb (Z.eqb y) all_squares then
     bb_or_sq
       (if contains (PseudoAttacks tb ROOK s1) y
        then between_expr attacks_bb ROOK s1 y
        else bb_or_sq
               (if contains (PseudoAttacks tb BISHOP s1) y
                then between_expr attacks_bb BISHOP s1 y
                else BetweenBB tb x y) y) y
   else BetweenBB tb x y).
Proof.
unfold init_lines. cbn [fold_left].
destruct (inner_loop attacks_bb BISHOP s1 all_squares tb all_squares_NoDup)
  as (HP1 & HL1 & HB1).
set (t1 := fold_left (fun tb s2 => line_between_step attacks_bb BISHOP s1 s2 tb)
             all_squares tb) in *.
destruct (inner_loop attacks_bb ROOK s1 all_squares t1 all_squares_NoDup)
  as (HP2 & HL2 & HB2).
rewrite HP1 in HP2, HL2, HB2.
split; [exact HP2|]. split; intros x y.
- rewrite HL2, HL1.
  destruct ((x =? s1) && existsb (Z.eqb y) all_squares); simpl; [|reflexivity].
  destruct (contains (PseudoAttacks tb ROOK s1) y); reflexivity.
- rewrite HB2, HB1.
  destruct ((x =? s1) && existsb (Z.eqb y) all_squares); simpl; reflexivity.
Qed.

(** One iteration of the loop over [s1]. *)
Lemma init_square_spec (s1 : Square) (tb : Tables) :
let tb' := init_lines attacks_bb s1 (init_pseudo attacks_bb pawn_attacks_bb s1 tb) in
(forall pt s, PseudoAttacks tb' pt s =
   if s =? s1 then pseudo_row attacks_bb (fun pt => PseudoAttacks tb pt s1) pt s1
   else PseudoAttacks tb pt s) /\
(forall x y, LineBB tb' x y =
   if x =? s1 then line_row attacks_bb (LineBB tb x y) s1 y else LineBB tb x y) /\
(forall x y, BetweenBB tb' x y =
   if x =? s1 then between_row attacks_bb (BetweenBB tb x y) s1 y
   else BetweenBB tb x y).
Proof.
cbv zeta.
destruct (init_pseudo_spec s1 tb) as (HP & _ & HL & HB).
destruct (init_lines_spec s1 (init_pseudo attacks_bb pawn_attacks_bb s1 tb))
  as (HP' & HL' & HB').
split; [|split].
- intros pt s. rewrite HP'. apply HP.
- intros x y. rewrite HL', HL, !HP, Z.eqb_refl. unfold line_row. cbn [pseudo_row].
  destruct (x =? s1); simpl; [|reflexivity]. reflexivity.
- intros x y. rewrite HB', HB, !HP, Z.eqb_refl. unfold between_row. cbn [pseudo_row].
  destruct (x =? s1); simpl; reflexivity.
Qed.

Lemma outer_loop (l : list Square) :
forall tb, List.NoDup l ->
let tb' := fold_left (fun tb s1 =>
             init_lines attacks_bb s1 (init_pseudo attacks_bb pawn_attacks_bb s1 tb))
             l tb in
(forall pt s, PseudoAttacks tb' pt s =
   if existsb (Z.eqb s) l
   then pseudo_row attacks_bb (fun pt => PseudoAttacks tb pt s) pt s
   else PseudoAttacks tb pt s) /\
(forall x y, LineBB tb' x y =
   if existsb (Z.eqb x) l then line_row attacks_bb (LineBB tb x y) x y
   else LineBB tb x y) /\
(forall x y, BetweenBB tb' x y =
   if existsb (Z.eqb x) l then between_row attacks_bb (BetweenBB tb x y) x y
   else BetweenBB tb x y).
Proof.
induction l as [|a l IH]; intros tb Hnd; cbn [fold_left].
- repeat split; reflexivity.
- apply List.NoDup_cons_iff in Hnd. destruct Hnd as [Ha Hnd].
  destruct (init_square_spec a tb) as (HP1 & HL1 & HB1).
  set (t1 := init_lines attacks_bb a (init_pseudo attacks_bb pawn_attacks_bb a tb)) in *.
  destruct (IH t1 Hnd) as (HP & HL & HB). clear IH.
  pose proof (existsb_eqb_false a l Ha) as En.
  split; [|split].
  + intros pt s. rewrite HP, existsb_eqb_cons.
    destruct (s =? a) eqn:E.
    * apply Z.eqb_eq in E. subst s. rewrite En. cbn [orb].
      rewrite HP1, Z.eqb_refl. reflexivity.
    * cbn [orb]. destruct (existsb (Z.eqb s) l).
      -- destruct pt; cbn [pseudo_row]; rewrite ?HP1, ?E; reflexivity.
      -- rewrite HP1, E. reflexivity.
  + intros x y. rewrite HL, existsb_eqb_cons, HL1.
    destruct (x =? a) eqn:E.
    * apply Z.eqb_eq in E. subst x. rewrite En. reflexivity.
    * cbn [orb]. reflexivity.
  + intros x y. rewrite HB, existsb_eqb_cons, HB1.
    destruct (x =? a) eqn:E.
    * apply Z.eqb_eq in E. subst x. rewrite En. reflexivity.
    * cbn [orb]. reflexivity.
Qed.

(** What [Bitboards::init] leaves in the tables, for squares of the board. *)
Lemma init_derived_spec (s1 s2 : Square) :
0 <= s1 < 64 -> 0 <= s2 < 64 ->
let tb := init_derived attacks_bb pawn_attacks_bb in
(forall pt, PseudoAttacks tb pt s1 = pseudo_row attacks_bb (fun _ => 0) pt s1) /\
LineBB tb s1 s2 =
  (if contains (attacks_bb ROOK s1 0) s2 then line_expr attacks_bb ROOK s1 s2
   else if contains (attacks_bb BISHOP s1 0) s2
        then line_expr attacks_bb BISHOP s1 s2 else 0) /\
BetweenBB tb s1 s2 =
  bb_or_sq
    (if contains (attacks_bb ROOK s1 0) s2 then between_expr attacks_bb ROOK s1 s2
     else bb_or_sq
            (if contains (attacks_bb BISHOP s1 0) s2
             then between_expr attacks_bb BISHOP s1 s2 else 0) s2) s2.
Proof.
intros H1 H2. cbv zeta. unfold init_derived.
destruct (outer_loop all_squares zero_tables all_squares_NoDup) as (HP & HL & HB).
pose proof (existsb_eqb_true s1 all_squares (proj2 (all_squares_spec s1) H1)) as E1.
pose proof (existsb_eqb_true s2 all_squares (proj2 (all_squares_spec s2) H2)) as E2.
split; [|split].
- intros pt. rewrite HP, E1. reflexivity.
- rewrite HL, E1. unfold line_row. rewrite E2. reflexivity.
- rewrite HB, E1. unfold between_row. rewrite E2. reflexivity.
Qed.

End DerivedLoops.

Lemma pairs_checked :
  forallb (fun s1 => forallb (pair_check s1) all_squares) all_squares = true.
Proof. vm_compute. reflexivity. Qed.

Lemma pair_checked (s1 s2 : Square) :
  0 <= s1 < 64 -> 0 <= s2 < 64 -> pair_check s1 s2 = true.
Proof.
  intros H1 H2. pose proof (forall_squares _ pairs_checked s1 H1) as H.
  cbv beta in H. apply (forall_squares _ H s2 H2).
Qed.

Lemma contains_testbit (b : Bitboard) (s : Square) :
  0 <= s -> contains b s = Z.testbit b s.
Proof.
  intros Hs. unfold contains. rewrite bb_and_sq_testbit by assumption.
  apply negb_involutive.
Qed.

Lemma attacked_not_origin (pt : PieceType) (s1 s2 : Square) :
  0 <= s1 < 64 -> 0 <= s2 ->
  Z.testbit (sliding_attack pt s1 0) s2 = true ->
  Z.testbit (square_bb s2) s1 = false /\ Z.testbit (square_bb s1) s2 = false.
Proof.
  intros H1 H2 Hin.
  assert (Hne : s1 <> s2).
  { intros ->. apply attacked_on_ray in Hin; [|assumption|lia].
    destruct Hin as (d & Hd & Hin). revert Hin.
    apply origin_not_on_ray; [apply (directions_all pt), Hd | assumption]. }
  rewrite !square_bb_testbit by lia. split; apply Z.eqb_neq; lia.
Qed.

Section DerivedTables.
Variable attacks_bb : PieceType -> Square -> Bitboard -> Bitboard.
Variable pawn_attacks_bb : Color -> Bitboard -> Bitboard.

(** The table lookup agrees with the ray-walking oracle on occupancies
  that do not contain the origin. *)
Hypothesis attacks_bb_oracle :
forall pt s occupied,
  pt = ROOK \/ pt = BISHOP -> 0 <= s < 64 ->
  Z.testbit occupied s = false ->
  attacks_bb pt s occupied = sliding_attack pt s occupied.

Lemma attacks_bb_empty (pt : PieceType) (s : Square) :
pt = ROOK \/ pt = BISHOP -> 0 <= s < 64 ->
attacks_bb pt s 0 = sliding_attack pt s 0.
Proof. intros Hpt Hs. apply attacks_bb_oracle; [assumption..|apply Z.bits_0]. Qed.

Lemma line_expr_oracle (pt : PieceType) (s1 s2 : Square) :
pt = ROOK \/ pt = BISHOP -> 0 <= s1 < 64 -> 0 <= s2 < 64 ->
line_expr attacks_bb pt s1 s2 =
Z.lor (Z.lor (Z.land (sliding_attack pt s1 0) (sliding_attack pt s2 0)) (2 ^ s1))
      (2 ^ s2).
Proof.
intros Hpt H1 H2. unfold line_expr, bb_or_sq.
rewrite !attacks_bb_empty, !square_bb_pow2 by (assumption || lia). reflexivity.
Qed.

Lemma between_expr_oracle (pt : PieceType) (s1 s2 : Square) :
pt = ROOK \/ pt = BISHOP -> 0 <= s1 < 64 -> 0 <= s2 < 64 ->
Z.testbit (sliding_attack pt s1 0) s2 = true ->
between_expr attacks_bb pt s1 s2 =
Z.land (sliding_attack pt s1 (square_bb s2)) (sliding_attack pt s2 (square_bb s1)).
Proof.
intros Hpt H1 H2 Hin. unfold between_expr.
destruct (attacked_not_origin pt s1 s2 H1 ltac:(lia) Hin) as [Ha Hb].
rewrite !attacks_bb_oracle by assumption. reflexivity.
Qed.

Lemma final_Pseudo (pt : PieceType) (s : Square) :
pt = ROOK \/ pt = BISHOP -> 0 <= s < 64 ->
PseudoAttacks (init_derived attacks_bb pawn_attacks_bb) pt s = sliding_attack pt s 0.
Proof.
intros Hpt Hs.
destruct (init_derived_spec attacks_bb pawn_attacks_bb s s Hs Hs) as (HP & _).
rewrite HP. destruct Hpt as [-> | ->]; cbn [pseudo_row];
  apply attacks_bb_empty; (assumption || tauto).
Qed.

Lemma final_Line (s1 s2 : Square) :
0 <= s1 < 64 -> 0 <= s2 < 64 ->
LineBB (init_derived attacks_bb pawn_attacks_bb) s1 s2 = line_value s1 s2.
Proof.
intros H1 H2.
destruct (init_derived_spec attacks_bb pawn_attacks_bb s1 s2 H1 H2) as (_ & HL & _).
rewrite HL. unfold line_value, line_type.
rewrite !contains_testbit, !attacks_bb_empty by (assumption || tauto || lia).
destruct (Z.testbit (sliding_attack ROOK s1 0) s2);
  [apply line_expr_oracle; (assumption || tauto)|].
destruct (Z.testbit (sliding_attack BISHOP s1 0) s2);
  [apply line_expr_oracle; (assumption || tauto)|reflexivity].
Qed.

Lemma final_Between (s1 s2 : Square) :
0 <= s1 < 64 -> 0 <= s2 < 64 ->
BetweenBB (init_derived attacks_bb pawn_attacks_bb) s1 s2 = between_value s1 s2.
Proof.
intros H1 H2.
destruct (init_derived_spec attacks_bb pawn_attacks_bb s1 s2 H1 H2) as (_ & _ & HB).
rewrite HB. unfold between_value, line_type, bb_or_sq.
rewrite !contains_testbit, !attacks_bb_empty by (assumption || tauto || lia).
destruct (Z.testbit (sliding_attack ROOK s1 0) s2) eqn:ER.
- rewrite between_expr_oracle by (assumption || tauto).
  rewrite (square_bb_pow2 s2) at 2 by lia. reflexivity.
- destruct (Z.testbit (sliding_attack BISHOP s1 0) s2) eqn:EB.
  + rewrite between_expr_oracle by (assumption || tauto).
    rewrite <- Z.lor_assoc, Z.lor_diag.
    rewrite (square_bb_pow2 s2) at 2 by lia. reflexivity.
  + rewrite Z.lor_0_l, Z.lor_diag. apply square_bb_pow2. lia.
Qed.

End DerivedTables.

Lemma pair_facts (s1 s2 : Square) :
  0 <= s1 < 64 -> 0 <= s2 < 64 ->
  aligned s1 s2 = Z.testbit (sliding_attack ROOK s1 0) s2
                  || Z.testbit (sliding_attack BISHOP s1 0) s2 /\
  (Z.testbit (sliding_attack ROOK s1 0) s2 = true ->
   Z.testbit (sliding_attack BISHOP s1 0) s2 = false) /\
  (aligned s1 s2 = true ->
   between_value s1 s2 = Z.lor (open_segment s1 s2) (2 ^ s2)) /\
  (aligned s1 s2 = false ->
   between_value s1 s2 = 2 ^ s2 /\ line_value s1 s2 = 0).
Proof.
  intros H1 H2. pose proof (pair_checked s1 s2 H1 H2) as H.
  unfold pair_check in H. cbv zeta in H.
  apply andb_true_iff in H. destruct H as [H Hc].
  apply andb_true_iff in H. destruct H as [Ha Hd].
  apply eqb_prop in Ha. apply negb_true_iff, andb_false_iff in Hd.
  split; [exact Ha|]. split; [|split].
  - intros HR. destruct Hd as [Hd|Hd]; congruence.
  - intros Hal. rewrite Hal in Hc. apply Z.eqb_eq, Hc.
  - intros Hal. rewrite Hal in Hc. apply andb_true_iff in Hc.
    destruct Hc as [Hc1 Hc2]. split; apply Z.eqb_eq; assumption.
Qed.

Lemma line_type_cases (s1 s2 : Square) (pt : PieceType) :
  0 <= s1 < 64 -> 0 <= s2 < 64 ->
  pt = ROOK \/ pt = BISHOP ->
  Z.testbit (sliding_attack pt s1 0) s2 = true ->
  line_type s1 s2 = Some pt.
Proof.
  intros H1 H2 Hpt Hin. unfold line_type.
  destruct (pair_facts s1 s2 H1 H2) as (_ & Hdis & _).
  destruct Hpt as [-> | ->].
  - rewrite Hin. reflexivity.
  - destruct (Z.testbit (sliding_attack ROOK s1 0) s2) eqn:ER.
    + rewrite Hdis in Hin by reflexivity. discriminate.
    + rewrite Hin. reflexivity.
Qed.

Lemma aligned_irrefl (s : Square) : aligned s s = false.
Proof. unfold aligned. rewrite Z.eqb_refl. reflexivity. Qed.

Section Claims.
Variable attacks_bb : PieceType -> Square -> Bitboard -> Bitboard.
Variable pawn_attacks_bb : Color -> Bitboard -> Bitboard.
Hypothesis attacks_bb_oracle :
forall pt s occupied,
  pt = ROOK \/ pt = BISHOP -> 0 <= s < 64 ->
  Z.testbit occupied s = false ->
  attacks_bb pt s occupied = sliding_attack pt s occupied.

(** Claim C5: after initialization, for all squares [s1], [s2] of the
    board, [BetweenBB[s1][s2]] contains [s2]; [BetweenBB[s][s]] is the
    singleton of [s]; for aligned squares it is the set of squares strictly
    between them plus [s2], which is the intersection of the attack from
    [s1] with [s2] as blocker and the attack from [s2] with [s1] as
    blocker, plus [s2]; for squares sharing no line it is the singleton of
    [s2]. *)
Theorem between_table (s1 s2 : Square) :
0 <= s1 < 64 -> 0 <= s2 < 64 ->
let tb := init_derived attacks_bb pawn_attacks_bb in
Z.testbit (BetweenBB tb s1 s2) s2 = true /\
BetweenBB tb s1 s1 = 2 ^ s1 /\
(aligned s1 s2 = true ->
   BetweenBB tb s1 s2 = Z.lor (open_segment s1 s2) (2 ^ s2) /\
   exists pt, (pt = ROOK \/ pt = BISHOP) /\
     Z.testbit (PseudoAttacks tb pt s1) s2 = true /\
     BetweenBB tb s1 s2 =
       Z.lor (Z.land (attacks_bb pt s1 (square_bb s2))
                     (attacks_bb pt s2 (square_bb s1))) (2 ^ s2)) /\
(aligned s1 s2 = false -> BetweenBB tb s1 s2 = 2 ^ s2).
Proof.
intros H1 H2. cbv zeta.
rewrite !(final_Between attacks_bb pawn_attacks_bb attacks_bb_oracle) by assumption.
destruct (pair_facts s1 s2 H1 H2) as (Hal & Hdis & Hseg & Hnon).
split; [|split; [|split]].
- unfold between_value.
  destruct (line_type s1 s2); rewrite ?Z.lor_spec, Z.pow2_bits_true by lia;
    rewrite ?orb_true_r; reflexivity.
- destruct (pair_facts s1 s1 H1 H1) as (_ & _ & _ & Hn).
  apply Hn, aligned_irrefl.
- intros Ha. split; [apply Hseg, Ha|].
  rewrite Ha in Hal. symmetry in Hal. apply orb_true_iff in Hal.
  assert (Hex : exists pt, (pt = ROOK \/ pt = BISHOP) /\
                  Z.testbit (sliding_attack pt s1 0) s2 = true).
  { destruct Hal as [HR|HB]; [exists ROOK|exists BISHOP]; tauto. }
  destruct Hex as (pt & Hpt & Hin). exists pt. split; [exact Hpt|].
  rewrite (final_Pseudo attacks_bb pawn_attacks_bb attacks_bb_oracle) by assumption.
  split; [exact Hin|].
  unfold between_value. rewrite (line_type_cases s1 s2 pt) by assumption.
  destruct (attacked_not_origin pt s1 s2 H1 ltac:(lia) Hin) as [Hx Hy].
  rewrite !attacks_bb_oracle by assumption. reflexivity.
- intros Ha. apply Hnon, Ha.
Qed.

(** Claim C6: after initialization, for all squares [s1], [s2] of the
    board, [s2] lies in the bishop or rook pseudo-attacks of [s1] exactly
    when the two squares are aligned; in that case [LineBB[s1][s2]] is the
    intersection of the two squares' empty-board attack sets of that
    category, united with [s1] and [s2]; otherwise it is empty. *)
Theorem line_table (s1 s2 : Square) :
0 <= s1 < 64 -> 0 <= s2 < 64 ->
let tb := init_derived attacks_bb pawn_attacks_bb in
Z.testbit (PseudoAttacks tb BISHOP s1) s2 || Z.testbit (PseudoAttacks tb ROOK s1) s2
  = aligned s1 s2 /\
(forall pt, pt = ROOK \/ pt = BISHOP ->
   Z.testbit (PseudoAttacks tb pt s1) s2 = true ->
   LineBB tb s1 s2 =
     Z.lor (Z.lor (Z.land (sliding_attack pt s1 0) (sliding_attack pt s2 0))
                  (2 ^ s1)) (2 ^ s2)) /\
(Z.testbit (PseudoAttacks tb BISHOP s1) s2 = false ->
 Z.testbit (PseudoAttacks tb ROOK s1) s2 = false ->
 LineBB tb s1 s2 = 0).
Proof.
intros H1 H2. cbv zeta.
rewrite (final_Line attacks_bb pawn_attacks_bb attacks_bb_oracle) by assumption.
destruct (pair_facts s1 s2 H1 H2) as (Hal & Hdis & Hseg & Hnon).
split; [|split].
- rewrite !(final_Pseudo attacks_bb pawn_attacks_bb attacks_bb_oracle)
    by (assumption || tauto).
  rewrite Hal. apply orb_comm.
- intros pt Hpt Hin.
  rewrite (final_Pseudo attacks_bb pawn_attacks_bb attacks_bb_oracle) in Hin
    by assumption.
  unfold line_value. rewrite (line_type_cases s1 s2 pt) by assumption.
  reflexivity.
- rewrite !(final_Pseudo attacks_bb pawn_attacks_bb attacks_bb_oracle)
    by (assumption || tauto).
  intros HB HR. apply Hnon. rewrite Hal, HB, HR. reflexivity.
Qed.

End Claims.

Lemma between_table_witness :
  let tb := init_derived sliding_attack (fun _ _ => 0) in
  Z.testbit (BetweenBB tb SQ_A1 SQ_D4) SQ_D4 = true /\
  BetweenBB tb SQ_A1 SQ_A1 = 2 ^ SQ_A1.
Proof.
  assert (H : forall pt s occupied,
    pt = ROOK \/ pt = BISHOP -> 0 <= s < 64 ->
    Z.testbit occupied s = false ->
    sliding_attack pt s occupied = sliding_attack pt s occupied) by reflexivity.
  destruct (between_table sliding_attack (fun _ _ => 0) H SQ_A1 SQ_D4
              ltac:(unfold SQ_A1; lia) ltac:(unfold SQ_D4; lia)) as (Ha & Hb & _).
  split; [exact Ha | exact Hb].
Defined.

Lemma line_table_witness :
  let tb := init_derived sliding_attack (fun _ _ => 0) in
  Z.testbit (PseudoAttacks tb BISHOP SQ_A1) SQ_D4
  || Z.testbit (PseudoAttacks tb ROOK SQ_A1) SQ_D4 = aligned SQ_A1 SQ_D4.
Proof.
  assert (H : forall pt s occupied,
    pt = ROOK \/ pt = BISHOP -> 0 <= s < 64 ->
    Z.testbit occupied s = false ->
    sliding_attack pt s occupied = sliding_attack pt s occupied) by reflexivity.
  apply (line_table sliding_attack (fun _ _ => 0) H SQ_A1 SQ_D4
              ltac:(unfold SQ_A1; lia) ltac:(unfold SQ_D4; lia)).
Defined.

(** ** More on the ray walk *)

Lemma ray_closed_more (n k : nat) (d : Direction) :
  forall s, ray_closed n d s = true -> ray_closed (n + k) d s = true.
Proof.
  induction n as [|n IH]; intros s H.
  - simpl in H. destruct (safe_destination s d =? 0) eqn:E; [|discriminate].
    destruct k; simpl; rewrite E; reflexivity.
  - cbn [ray_closed Nat.add] in H |- *.
    destruct (safe_destination s d =? 0); [reflexivity|]. apply IH, H.
Qed.

Lemma ray_path_more (n k : nat) (d : Direction) :
  forall s, ray_closed n d s = true -> ray_path (n + k) d s = ray_path n d s.
Proof.
  induction n as [|n IH]; intros s H.
  - simpl in H. destruct (safe_destination s d =? 0) eqn:E; [|discriminate].
    destruct k; simpl; rewrite E; reflexivity.
  - cbn [ray_closed ray_path Nat.add] in H |- *.
    destruct (safe_destination s d =? 0); [reflexivity|]. rewrite IH by exact H.
    reflexivity.
Qed.

Lemma ray_loop_more (k : nat) (d : Direction) (occupied : Bitboard)
    (s : Square) (attacks : Bitboard) :
  In d all_directions -> 0 <= s < 64 ->
  ray_loop (ray_fuel + k) d occupied s attacks = ray_loop ray_fuel d occupied s attacks.
Proof.
  intros Hd Hs. pose proof (ray_closed_7 d s Hd Hs) as Hc.
  rewrite (ray_loop_spec (ray_fuel + k)) by (apply ray_closed_more, Hc).
  rewrite (ray_loop_spec ray_fuel) by exact Hc.
  rewrite ray_path_more by exact Hc. reflexivity.
Qed.

Lemma rays_loop_more (k : nat) (ds : list Direction) (occupied : Bitboard) (sq : Square) :
  (forall d, In d ds -> In d all_directions) -> 0 <= sq < 64 ->
  forall attacks,
  rays_loop (ray_fuel + k) ds occupied sq attacks = rays_loop ray_fuel ds occupied sq attacks.
Proof.
  intros Hds Hsq. induction ds as [|d ds IH]; intros attacks; cbn [rays_loop].
  - reflexivity.
  - rewrite ray_loop_more by (try assumption; apply Hds; left; reflexivity).
    destruct (ray_loop ray_fuel d occupied sq attacks); [|reflexivity].
    apply IH. intros d' Hd'. apply Hds. right. exact Hd'.
Qed.

(** Property X1: the ray loops of [sliding_attack] terminate on every
    square of the board: with any fuel of at least 7 the walk returns, and
    returns the same bitboard, for every piece type and occupancy. *)
Theorem sliding_attack_terminates (fuel : nat) (pt : PieceType) (sq : Square)
    (occupied : Bitboard) :
  0 <= sq < 64 -> (7 <= fuel)%nat ->
  sliding_attack_fuel fuel pt sq occupied = Some (sliding_attack pt sq occupied).
Proof.
  intros Hsq Hf. replace fuel with (ray_fuel + (fuel - 7))%nat by (unfold ray_fuel; lia).
  unfold sliding_attack_fuel. rewrite rays_loop_more by (try assumption; apply directions_all).
  apply sliding_attack_fuel_total, Hsq.
Qed.

Lemma sliding_attack_terminates_witness :
  sliding_attack_fuel 20 ROOK SQ_A1 0 = Some (sliding_attack ROOK SQ_A1 0)
  /\ sliding_attack_fuel 6 ROOK SQ_A1 0 = None.
Proof.
  split.
  - apply (sliding_attack_terminates 20 ROOK SQ_A1 0); [unfold SQ_A1; lia | lia].
  - vm_compute. reflexivity.
Defined.

Lemma blocked_prefix_empty (l : list Square) : blocked_prefix 0 l = l.
Proof.
  induction l as [|x l IH]; [reflexivity|]. cbn [blocked_prefix].
  unfold occupied_at, bb_and_sq. rewrite Z.land_0_l. simpl. rewrite IH. reflexivity.
Qed.

Lemma land_bound_64 (a b : Z) : 0 <= b < 2 ^ 64 -> 0 <= Z.land a b < 2 ^ 64.
Proof.
  intros Hb.
  assert (E : Z.land a b = Z.land a b mod 2 ^ 64).
  { rewrite <- Z.land_ones by lia. rewrite <- Z.land_assoc.
    rewrite (Z.land_ones b) by lia. rewrite Z.mod_small by assumption. reflexivity. }
  rewrite E. apply Z.mod_pos_bound. lia.
Qed.

Lemma empty_attacks_in_range :
  forallb (fun pt => forallb (empty_attack_in_range pt) all_squares)
          [NO_PIECE_TYPE; PAWN; KNIGHT; BISHOP; ROOK; QUEEN; KING] = true.
Proof. vm_compute. reflexivity. Qed.

Lemma empty_attack_range (pt : PieceType) (s : Square) :
  0 <= s < 64 -> 0 <= sliding_attack pt s 0 < 2 ^ 64.
Proof.
  intros Hs. pose proof empty_attacks_in_range as H.
  rewrite forallb_forall in H.
  assert (Hin : In pt [NO_PIECE_TYPE; PAWN; KNIGHT; BISHOP; ROOK; QUEEN; KING])
    by (destruct pt; simpl; tauto).
  pose proof (forall_squares _ (H pt Hin) s Hs) as Hr.
  unfold empty_attack_in_range in Hr. lia.
Qed.

Lemma sliding_attack_subset_empty (pt : PieceType) (sq : Square) (occupied : Bitboard) :
  0 <= sq < 64 ->
  Z.land (sliding_attack pt sq occupied) (sliding_attack pt sq 0)
  = sliding_attack pt sq occupied.
Proof.
  intros Hsq. apply Z.bits_inj'. intros i Hi. rewrite Z.land_spec.
  destruct (Z.testbit (sliding_attack pt sq occupied) i) eqn:E; [|reflexivity].
  simpl. rewrite sliding_attack_unfold in E |- * by assumption.
  destruct (occupied_at occupied sq); [rewrite Z.bits_0 in E; discriminate|].
  replace (occupied_at 0 sq) with false
    by (unfold occupied_at, bb_and_sq; rewrite Z.land_0_l; reflexivity).
  rewrite fold_lor_testbit, Z.bits_0 in E |- *. simpl in E |- *.
  apply existsb_exists in E. destruct E as (d & Hd & E).
  apply existsb_exists. exists d. split; [exact Hd|].
  rewrite bb_of_squares_testbit in E |- * by assumption.
  apply existsb_eqb_In in E. apply existsb_eqb_In.
  rewrite blocked_prefix_empty. apply blocked_prefix_incl in E. exact E.
Qed.

(** Property X2: for every occupancy the result of [sliding_attack] is a
    subset of the empty-board attack set of the same square and category, and
    it is a 64-bit bitboard. *)
Theorem sliding_attack_within_empty_board (pt : PieceType) (sq : Square)
    (occupied : Bitboard) :
  0 <= sq < 64 ->
  Z.land (sliding_attack pt sq occupied) (sliding_attack pt sq 0)
    = sliding_attack pt sq occupied /\
  0 <= sliding_attack pt sq occupied < 2 ^ 64.
Proof.
  intros Hsq. split; [apply sliding_attack_subset_empty, Hsq|].
  rewrite <- sliding_attack_subset_empty by assumption.
  apply land_bound_64, empty_attack_range, Hsq.
Qed.

Lemma sliding_attack_within_empty_board_witness :
  0 <= sliding_attack ROOK SQ_D4 0x0000000008000400 < 2 ^ 64.
Proof.
  apply (sliding_attack_within_empty_board ROOK SQ_D4 0x0000000008000400).
  unfold SQ_D4. lia.
Defined.

(** Property X3: when the origin is not occupied, [sliding_attack] depends
    on the occupancy only through its intersection with the mask of the
    square's magic descriptor. *)
Theorem sliding_attack_relevant_occupancy (pt : PieceType) (s : Square)
    (occupied : Bitboard) :
  pt = ROOK \/ pt = BISHOP -> 0 <= s < 64 ->
  Z.testbit occupied s = false ->
  sliding_attack pt s (Z.land occupied (mask (magic_at (magics_of pt) s)))
  = sliding_attack pt s occupied.
Proof.
  intros Hpt Hs Hfree.
  pose proof (forall_sliders_squares _ masks_as_source pt s Hpt Hs) as H.
  unfold mask_as_source in H.
  apply andb_true_iff in H. destruct H as [H _].
  apply andb_true_iff in H. destruct H as [H _]. apply Z.eqb_eq in H.
  rewrite H. apply sliding_attack_relevant; assumption.
Qed.

Lemma sliding_attack_relevant_occupancy_witness :
  sliding_attack ROOK SQ_D4
    (Z.land 0xFF000000000000FF (mask (magic_at (magics_of ROOK) SQ_D4)))
  = sliding_attack ROOK SQ_D4 0xFF000000000000FF.
Proof.
  apply (sliding_attack_relevant_occupancy ROOK SQ_D4 0xFF000000000000FF).
  - left; reflexivity.
  - unfold SQ_D4; lia.
  - reflexivity.
Defined.

Lemma attack_rows_checked : forallb attack_row_check all_squares = true.
Proof. vm_compute. reflexivity. Qed.

Lemma mask_shapes_checked :
  forallb (fun pt => forallb (mask_shape_check pt) all_squares) sliders = true.
Proof. vm_compute. reflexivity. Qed.

Lemma step_patterns_checked : forallb step_pattern_check all_squares = true.
Proof. vm_compute. reflexivity. Qed.

Lemma line_pairs_checked :
  forallb (fun s1 => forallb (line_pair_check s1) all_squares) all_squares = true.
Proof. vm_compute. reflexivity. Qed.

Lemma empty_board_attacks (s t : Square) :
  0 <= s < 64 -> 0 <= t < 64 ->
  Z.testbit (sliding_attack ROOK s 0) t = rook_line s t /\
  Z.testbit (sliding_attack BISHOP s 0) t = bishop_line s t.
Proof.
  intros Hs Ht. pose proof (forall_squares _ attack_rows_checked s Hs) as H.
  unfold attack_row_check in H. cbv zeta in H.
  apply (forall_squares _ H) in Ht. apply andb_true_iff in Ht.
  destruct Ht as [Ha Hb]. apply eqb_prop in Ha, Hb. split; assumption.
Qed.

Lemma rook_line_sym (s t : Square) : rook_line s t = rook_line t s.
Proof.
  unfold rook_line. rewrite (Z.eqb_sym s t), (Z.eqb_sym (s mod 8)), (Z.eqb_sym (s / 8)).
  reflexivity.
Qed.

Lemma bishop_line_sym (s t : Square) : bishop_line s t = bishop_line t s.
Proof.
  unfold bishop_line. rewrite (Z.eqb_sym s t).
  replace (Z.abs (s mod 8 - t mod 8)) with (Z.abs (t mod 8 - s mod 8)) by lia.
  replace (Z.abs (s / 8 - t / 8)) with (Z.abs (t / 8 - s / 8)) by lia.
  reflexivity.
Qed.

(** Property X4: on an empty board the rook attack set of a square is the
    rest of its file and rank, the bishop attack set is the rest of its
    diagonals, and the attack relation is symmetric. *)
Theorem empty_board_attack_geometry (s t : Square) :
  0 <= s < 64 -> 0 <= t < 64 ->
  Z.testbit (sliding_attack ROOK s 0) t = rook_line s t /\
  Z.testbit (sliding_attack BISHOP s 0) t = bishop_line s t /\
  (forall pt, pt = ROOK \/ pt = BISHOP ->
     Z.testbit (sliding_attack pt s 0) t = Z.testbit (sliding_attack pt t 0) s).
Proof.
  intros Hs Ht.
  destruct (empty_board_attacks s t Hs Ht) as [HR HB].
  destruct (empty_board_attacks t s Ht Hs) as [HR' HB'].
  split; [exact HR|]. split; [exact HB|].
  intros pt [-> | ->].
  - rewrite HR, HR'. apply rook_line_sym.
  - rewrite HB, HB'. apply bishop_line_sym.
Qed.

Lemma empty_board_attack_geometry_witness :
  Z.testbit (sliding_attack ROOK SQ_A1 0) SQ_A8 = rook_line SQ_A1 SQ_A8.
Proof.
  destruct (empty_board_attack_geometry SQ_A1 SQ_A8
              ltac:(unfold SQ_A1; lia) ltac:(unfold SQ_A8; lia)) as [H _].
  exact H.
Defined.

(** Property X5: from one square, no square is in both a rook attack set
    and a bishop attack set, whatever the two occupancies. *)
Theorem rook_bishop_attacks_disjoint (s : Square) (occ1 occ2 : Bitboard) :
  0 <= s < 64 ->
  Z.land (sliding_attack ROOK s occ1) (sliding_attack BISHOP s occ2) = 0.
Proof.
  intros Hs. apply Z.bits_inj'. intros i Hi. rewrite Z.land_spec, Z.bits_0.
  pose proof (sliding_attack_subset_empty ROOK s occ1 Hs) as HsubR.
  pose proof (sliding_attack_subset_empty BISHOP s occ2 Hs) as HsubB.
  assert (HrR : 0 <= sliding_attack ROOK s occ1 < 2 ^ 64)
    by (rewrite <- HsubR; apply land_bound_64, empty_attack_range, Hs).
  destruct (Z.lt_ge_cases i 64) as [Hlt|Hge].
  - destruct (Z.testbit (sliding_attack ROOK s occ1) i) eqn:ER; [|reflexivity].
    destruct (Z.testbit (sliding_attack BISHOP s occ2) i) eqn:EB; [|reflexivity].
    exfalso.
    rewrite <- HsubR, Z.land_spec in ER. rewrite <- HsubB, Z.land_spec in EB.
    apply andb_true_iff in ER, EB. destruct ER as [_ ER]. destruct EB as [_ EB].
    destruct (empty_board_attacks s i Hs ltac:(lia)) as [HR HB].
    rewrite HR in ER. rewrite HB in EB. unfold rook_line in ER. unfold bishop_line in EB.
    apply andb_true_iff in ER, EB. destruct ER as [Hne H1]. destruct EB as [_ H2].
    apply negb_true_iff, Z.eqb_neq in Hne.
    apply Z.eqb_eq in H2. apply orb_true_iff in H1. apply Hne.
    rewrite (Z.div_mod s 8), (Z.div_mod i 8) by lia.
    destruct H1 as [H1|H1]; apply Z.eqb_eq in H1; lia.
  - rewrite (testbit_above_64 _ i HrR Hge). reflexivity.
Qed.

Lemma rook_bishop_attacks_disjoint_witness :
  Z.land (sliding_attack ROOK SQ_D4 0x10) (sliding_attack BISHOP SQ_D4 0x4000) = 0.
Proof.
  apply (rook_bishop_attacks_disjoint SQ_D4 0x10 0x4000). unfold SQ_D4. lia.
Defined.

Lemma mask_fits_row (pt : PieceType) (s : Square) :
  pt = ROOK \/ pt = BISHOP -> 0 <= s < 64 ->
  (2 ^ popcount (mask (magic_at (magics_of pt) s)) <= slots (bits_of pt))%nat.
Proof.
  intros Hpt Hs.
  pose proof (forall_sliders_squares _ mask_shapes_checked pt s Hpt Hs) as H.
  unfold mask_shape_check in H. cbv zeta in H.
  apply andb_true_iff in H. destruct H as [H _].
  apply andb_true_iff in H. destruct H as [H1 _]. apply Z.leb_le in H1.
  unfold slots. apply Nat2Z.inj_le.
  rewrite Nat2Z.inj_pow, Z2Nat.id by (apply Z.pow_nonneg; lia).
  apply Z.pow_le_mono_r; lia.
Qed.

(** Property X6: every relevant mask has at most [RookBits] (rook) or
    [BishopBits] (bishop) bits, so its subsets fit a table row; it does not
    contain the square itself and is a subset of the empty-board attack set.
    *)
Theorem relevant_mask_shape (pt : PieceType) (s : Square) :
  pt = ROOK \/ pt = BISHOP -> 0 <= s < 64 ->
  let m := mask (magic_at (magics_of pt) s) in
  Z.of_nat (popcount m) <= bits_of pt /\
  (2 ^ popcount m <= slots (bits_of pt))%nat /\
  Z.testbit m s = false /\
  Z.land m (sliding_attack pt s 0) = m.
Proof.
  intros Hpt Hs m.
  pose proof (forall_sliders_squares _ mask_shapes_checked pt s Hpt Hs) as H.
  unfold mask_shape_check in H. cbv zeta in H. fold m in H.
  apply andb_true_iff in H. destruct H as [H H3].
  apply andb_true_iff in H. destruct H as [H1 H2].
  apply Z.leb_le in H1. apply negb_true_iff in H2. apply Z.eqb_eq in H3.
  split; [exact H1|]. split; [|split; assumption].
  apply mask_fits_row; assumption.
Qed.

Lemma relevant_mask_shape_witness :
  Z.of_nat (popcount (mask (magic_at (magics_of ROOK) SQ_A1))) <= bits_of ROOK.
Proof.
  destruct (relevant_mask_shape ROOK SQ_A1 (or_introl eq_refl)
              ltac:(unfold SQ_A1; lia)) as [H _].
  exact H.
Defined.

Lemma king_move_distance (s t : Square) :
  king_move s t = (SquareDistance s t =? 1).
Proof.
  unfold king_move, SquareDistance, distance_File, distance_Rank.
  rewrite !file_of_mod, !rank_of_div. reflexivity.
Qed.

Lemma knight_move_distance (s t : Square) :
  knight_move s t =
  ((distance_File s t =? 1) && (distance_Rank s t =? 2))
  || ((distance_File s t =? 2) && (distance_Rank s t =? 1)).
Proof.
  unfold knight_move, distance_File, distance_Rank.
  rewrite !file_of_mod, !rank_of_div. reflexivity.
Qed.

Lemma step_pattern_facts (s : Square) :
  0 <= s < 64 ->
  (forall t, 0 <= t < 64 ->
     Z.testbit (steps_bb s KingSteps 0) t = king_move s t /\
     Z.testbit (steps_bb s KnightSteps 0) t = knight_move s t) /\
  0 <= steps_bb s KingSteps 0 < 2 ^ 64 /\
  0 <= steps_bb s KnightSteps 0 < 2 ^ 64.
Proof.
  intros Hs. pose proof (forall_squares _ step_patterns_checked s Hs) as H.
  unfold step_pattern_check in H. cbv zeta in H.
  apply andb_true_iff in H. destruct H as [H Hb4].
  apply andb_true_iff in H. destruct H as [H Hb3].
  apply andb_true_iff in H. destruct H as [H Hb2].
  apply andb_true_iff in H. destruct H as [H Hb1].
  split; [|lia].
  intros t Ht. apply (forall_squares _ H) in Ht.
  apply andb_true_iff in Ht. destruct Ht as [Ha Hc].
  apply eqb_prop in Ha, Hc. split; assumption.
Qed.

Section PseudoTables.
Variable attacks_bb : PieceType -> Square -> Bitboard -> Bitboard.
Variable pawn_attacks_bb : Color -> Bitboard -> Bitboard.

(** Property X7: after initialization [PseudoAttacks[KING][s]] is exactly
    the set of squares of the board at distance 1 from [s], and is a 64-bit
    bitboard. *)
Theorem king_pseudo_attacks (s t : Square) :
  0 <= s < 64 -> 0 <= t < 64 ->
  let king := PseudoAttacks (init_derived attacks_bb pawn_attacks_bb) KING s in
  Z.testbit king t = (SquareDistance s t =? 1) /\ 0 <= king < 2 ^ 64.
Proof.
  intros Hs Ht. cbv zeta.
  destruct (init_derived_spec attacks_bb pawn_attacks_bb s s Hs Hs) as (HP & _).
  rewrite HP. cbn [pseudo_row].
  destruct (step_pattern_facts s Hs) as (Hbits & Hk & _).
  split; [|exact Hk]. rewrite <- king_move_distance. apply Hbits, Ht.
Qed.

(** Property X8: after initialization [PseudoAttacks[KNIGHT][s]] is
    exactly the set of squares one file and two ranks, or two files and one
    rank, away from [s]: no knight step wraps around the board. *)
Theorem knight_pseudo_attacks (s t : Square) :
  0 <= s < 64 -> 0 <= t < 64 ->
  let knight := PseudoAttacks (init_derived attacks_bb pawn_attacks_bb) KNIGHT s in
  Z.testbit knight t =
    ((distance_File s t =? 1) && (distance_Rank s t =? 2))
    || ((distance_File s t =? 2) && (distance_Rank s t =? 1)) /\
  0 <= knight < 2 ^ 64.
Proof.
  intros Hs Ht. cbv zeta.
  destruct (init_derived_spec attacks_bb pawn_attacks_bb s s Hs Hs) as (HP & _).
  rewrite HP. cbn [pseudo_row].
  destruct (step_pattern_facts s Hs) as (Hbits & _ & Hk).
  split; [|exact Hk]. rewrite <- knight_move_distance. apply Hbits, Ht.
Qed.

(** Property X9: after initialization the bishop and rook pseudo-attacks
    of a square are the lookups on the empty board, the queen pseudo-attacks
    are their union, and the pawn entry of [PseudoAttacks] is left zero. *)
Theorem queen_pseudo_attacks (s : Square) :
  0 <= s < 64 ->
  let tb := init_derived attacks_bb pawn_attacks_bb in
  PseudoAttacks tb BISHOP s = attacks_bb BISHOP s 0 /\
  PseudoAttacks tb ROOK s = attacks_bb ROOK s 0 /\
  PseudoAttacks tb QUEEN s
    = Z.lor (PseudoAttacks tb BISHOP s) (PseudoAttacks tb ROOK s) /\
  PseudoAttacks tb PAWN s = 0.
Proof.
  intros Hs. cbv zeta.
  destruct (init_derived_spec attacks_bb pawn_attacks_bb s s Hs Hs) as (HP & _).
  rewrite !HP. cbn [pseudo_row]. repeat split; reflexivity.
Qed.

End PseudoTables.

Lemma king_pseudo_attacks_witness :
  Z.testbit (PseudoAttacks (init_derived sliding_attack (fun _ _ => 0)) KING SQ_H1) SQ_A2
  = (SquareDistance SQ_H1 SQ_A2 =? 1).
Proof.
  destruct (king_pseudo_attacks sliding_attack (fun _ _ => 0) SQ_H1 SQ_A2
              ltac:(unfold SQ_H1; lia) ltac:(unfold SQ_A2; lia)) as [H _].
  exact H.
Defined.

Lemma knight_pseudo_attacks_witness :
  0 <= PseudoAttacks (init_derived sliding_attack (fun _ _ => 0)) KNIGHT SQ_G1 < 2 ^ 64.
Proof.
  destruct (knight_pseudo_attacks sliding_attack (fun _ _ => 0) SQ_G1 SQ_F3
              ltac:(unfold SQ_G1; lia) ltac:(unfold SQ_F3; lia)) as [_ H].
  exact H.
Defined.

Lemma queen_pseudo_attacks_witness :
  let tb := init_derived sliding_attack (fun _ _ => 0) in
  PseudoAttacks tb QUEEN SQ_D4
  = Z.lor (PseudoAttacks tb BISHOP SQ_D4) (PseudoAttacks tb ROOK SQ_D4).
Proof.
  destruct (queen_pseudo_attacks sliding_attack (fun _ _ => 0) SQ_D4
              ltac:(unfold SQ_D4; lia)) as (_ & _ & H & _).
  exact H.
Defined.

Lemma line_bb_geometric_testbit (s1 s2 t : Square) :
  0 <= t < 64 -> Z.testbit (line_bb_geometric s1 s2) t = collinear s1 s2 t.
Proof.
  intros Ht. unfold line_bb_geometric.
  assert (G : forall l, (forall x, In x l -> 0 <= x) -> List.NoDup l ->
    Z.testbit (fold_right (fun x acc => if collinear s1 s2 x then Z.lor (2 ^ x) acc else acc) 0 l) t
    = existsb (Z.eqb t) l && collinear s1 s2 t).
  { induction l as [|x l IH]; intros Hpos Hnd; cbn [fold_right existsb].
    - apply Z.bits_0.
    - apply List.NoDup_cons_iff in Hnd. destruct Hnd as [Hx Hnd].
      specialize (IH (fun y Hy => Hpos y (or_intror Hy)) Hnd).
      pose proof (Hpos x (or_introl eq_refl)) as Hx0.
      destruct (t =? x) eqn:E.
      + apply Z.eqb_eq in E. subst x.
        destruct (collinear s1 s2 t) eqn:Ec.
        * rewrite Z.lor_spec, Z.pow2_bits_true by lia. reflexivity.
        * rewrite IH, andb_false_r. reflexivity.
      + destruct (collinear s1 s2 x).
        * rewrite Z.lor_spec, Z.pow2_bits_false by (apply Z.eqb_neq in E; lia).
          rewrite IH. reflexivity.
        * rewrite IH. reflexivity. }
  rewrite G.
  - rewrite (existsb_eqb_true t all_squares) by (apply all_squares_spec, Ht). reflexivity.
  - intros x Hx. apply all_squares_spec in Hx. lia.
  - apply all_squares_NoDup.
Qed.

Lemma line_pair_facts (s1 s2 : Square) :
  0 <= s1 < 64 -> 0 <= s2 < 64 ->
  line_value s1 s2 = line_value s2 s1 /\
  Z.ldiff (between_value s1 s2) (2 ^ s2) = Z.ldiff (between_value s2 s1) (2 ^ s1) /\
  (aligned s1 s2 = true ->
     line_value s1 s2 = line_bb_geometric s1 s2 /\
     Z.land (between_value s1 s2) (line_value s1 s2) = between_value s1 s2).
Proof.
  intros H1 H2. pose proof (forall_squares _ line_pairs_checked s1 H1) as H.
  cbv beta in H. apply (forall_squares _ H) in H2. unfold line_pair_check in H2.
  apply andb_true_iff in H2. destruct H2 as [Ha Hc].
  apply andb_true_iff in Ha. destruct Ha as [Ha Hb].
  apply Z.eqb_eq in Ha, Hb. split; [exact Ha|]. split; [exact Hb|].
  intros Hal. rewrite Hal in Hc. apply andb_true_iff in Hc.
  destruct Hc as [Hc1 Hc2]. apply Z.eqb_eq in Hc1, Hc2. split; assumption.
Qed.

Section LineTables.
Variable attacks_bb : PieceType -> Square -> Bitboard -> Bitboard.
Variable pawn_attacks_bb : Color -> Bitboard -> Bitboard.
Hypothesis attacks_bb_oracle :
  forall pt s occupied,
    pt = ROOK \/ pt = BISHOP -> 0 <= s < 64 ->
    Z.testbit occupied s = false ->
    attacks_bb pt s occupied = sliding_attack pt s occupied.

(** Property X10: after initialization [LineBB] is symmetric in its two
    squares, and for aligned squares it holds exactly the squares of the board
    on the straight line through them. *)
Theorem line_table_geometry (s1 s2 : Square) :
  0 <= s1 < 64 -> 0 <= s2 < 64 ->
  let tb := init_derived attacks_bb pawn_attacks_bb in
  LineBB tb s1 s2 = LineBB tb s2 s1 /\
  (aligned s1 s2 = true ->
     forall t, 0 <= t < 64 -> Z.testbit (LineBB tb s1 s2) t = collinear s1 s2 t).
Proof.
  intros H1 H2. cbv zeta.
  rewrite !(final_Line attacks_bb pawn_attacks_bb attacks_bb_oracle) by assumption.
  destruct (line_pair_facts s1 s2 H1 H2) as (Hsym & _ & Hal).
  split; [exact Hsym|]. intros Ha t Ht.
  destruct (Hal Ha) as [Hg _]. rewrite Hg. apply line_bb_geometric_testbit, Ht.
Qed.

(** Property X11: after initialization the between sets of (s1, s2) and of
    (s2, s1) agree once the respective destination square is removed, and for
    aligned squares the between set lies on the line through them. *)
Theorem between_table_symmetry (s1 s2 : Square) :
  0 <= s1 < 64 -> 0 <= s2 < 64 ->
  let tb := init_derived attacks_bb pawn_attacks_bb in
  Z.ldiff (BetweenBB tb s1 s2) (2 ^ s2) = Z.ldiff (BetweenBB tb s2 s1) (2 ^ s1) /\
  (aligned s1 s2 = true ->
     Z.land (BetweenBB tb s1 s2) (LineBB tb s1 s2) = BetweenBB tb s1 s2).
Proof.
  intros H1 H2. cbv zeta.
  rewrite !(final_Line attacks_bb pawn_attacks_bb attacks_bb_oracle) by assumption.
  rewrite !(final_Between attacks_bb pawn_attacks_bb attacks_bb_oracle) by assumption.
  destruct (line_pair_facts s1 s2 H1 H2) as (_ & Hsym & Hal).
  split; [exact Hsym|]. intros Ha. apply Hal, Ha.
Qed.

End LineTables.

Lemma line_table_geometry_witness :
  let tb := init_derived sliding_attack (fun _ _ => 0) in
  LineBB tb SQ_A1 SQ_H8 = LineBB tb SQ_H8 SQ_A1.
Proof.
  assert (H : forall pt s occupied,
    pt = ROOK \/ pt = BISHOP -> 0 <= s < 64 ->
    Z.testbit occupied s = false ->
    sliding_attack pt s occupied = sliding_attack pt s occupied) by reflexivity.
  destruct (line_table_geometry sliding_attack (fun _ _ => 0) H SQ_A1 SQ_H8
              ltac:(unfold SQ_A1; lia) ltac:(unfold SQ_H8; lia)) as [Hs _].
  exact Hs.
Defined.

Lemma between_table_symmetry_witness :
  let tb := init_derived sliding_attack (fun _ _ => 0) in
  Z.ldiff (BetweenBB tb SQ_A1 SQ_H8) (2 ^ SQ_H8)
  = Z.ldiff (BetweenBB tb SQ_H8 SQ_A1) (2 ^ SQ_A1).
Proof.
  assert (H : forall pt s occupied,
    pt = ROOK \/ pt = BISHOP -> 0 <= s < 64 ->
    Z.testbit occupied s = false ->
    sliding_attack pt s occupied = sliding_attack pt s occupied) by reflexivity.
  destruct (between_table_symmetry sliding_attack (fun _ _ => 0) H SQ_A1 SQ_H8
              ltac:(unfold SQ_A1; lia) ltac:(unfold SQ_H8; lia)) as [Hs _].
  exact Hs.
Defined.

(** ** When the builder completes *)

Section PassCompletes.
Variable index_of : Z -> Magic -> Bitboard -> Z.
Variables (pt : PieceType) (bits : Z) (m : Magic) (s : Square).

Lemma run_fill_done (l : list Bitboard) :
  forall (occured : list bool) (t : AttackTable),
  is_done (run_body (fill_slot index_of pt bits m s) l (occured, t)) = true <->
  List.NoDup (map (unsigned_index index_of bits m) l) /\
  (forall b, In b l ->
     unsigned_index index_of bits m b < 2 ^ bits /\
     occured !! Z.to_nat (unsigned_index index_of bits m b) = Some false).
Proof.
  induction l as [|b l IH]; intros occured t; cbn [run_body map].
  - split; [intros _; split; [apply List.NoDup_nil | intros b []] | reflexivity].
  - destruct (fill_slot index_of pt bits m s b (occured, t)) as [[occ1 t1]| |] eqn:Hb.
    + apply fill_slot_done in Hb. destruct Hb as (Hlt & Hfree & -> & ->).
      pose proof (lookup_lt_Some _ _ _ Hfree) as Hin.
      rewrite IH. split.
      * intros [Hnd Hall]. split.
        -- constructor; [|exact Hnd]. intros Hdup.
           apply in_map_iff in Hdup. destruct Hdup as (b' & E & Hb').
           destruct (Hall b' Hb') as [_ Hf]. rewrite E in Hf.
           rewrite list_lookup_insert_eq in Hf by exact Hin. discriminate.
        -- intros b' [<-|Hb']; [split; assumption|].
           destruct (Hall b' Hb') as [Hr Hf]. split; [exact Hr|].
           destruct (Nat.eq_dec (Z.to_nat (unsigned_index index_of bits m b)) (Z.to_nat (unsigned_index index_of bits m b')))
             as [E|Hne].
           ++ rewrite <- E, list_lookup_insert_eq in Hf by exact Hin. discriminate.
           ++ rewrite list_lookup_insert_ne in Hf by exact Hne. exact Hf.
      * intros [Hnd Hall]. apply List.NoDup_cons_iff in Hnd. destruct Hnd as [Hnot Hnd].
        split; [exact Hnd|]. intros b' Hb'.
        destruct (Hall b' (or_intror Hb')) as [Hr Hf]. split; [exact Hr|].
        rewrite list_lookup_insert_ne; [exact Hf|].
        intros E. apply Hnot. apply in_map_iff. exists b'. split; [|exact Hb'].
        pose proof (unsigned_index_nonneg index_of bits m b).
        pose proof (unsigned_index_nonneg index_of bits m b'). lia.
    + split; [discriminate|]. intros [_ Hall]. exfalso.
      destruct (Hall b (or_introl eq_refl)) as [Hr Hf].
      unfold fill_slot in Hb. cbv zeta in Hb.
      apply Z.ltb_lt in Hr. rewrite Hr, Hf in Hb. discriminate.
    + exfalso. unfold fill_slot in Hb. cbv zeta in Hb.
      destruct (unsigned_index index_of bits m b <? 2 ^ bits); [|discriminate].
      destruct (occured !! Z.to_nat (unsigned_index index_of bits m b)) as [[|]|]; discriminate.
Qed.

Lemma run_fill_no_fuel (l : list Bitboard) :
  forall st, run_body (fill_slot index_of pt bits m s) l st <> OutOfFuel.
Proof.
  induction l as [|b l IH]; intros [occured t]; cbn [run_body]; [discriminate|].
  destruct (fill_slot index_of pt bits m s b (occured, t)) as [st1| |] eqn:Hb.
  - apply IH.
  - discriminate.
  - exfalso. unfold fill_slot in Hb. cbv zeta in Hb.
    destruct (unsigned_index index_of bits m b <? 2 ^ bits); [|discriminate].
    destruct (occured !! Z.to_nat (unsigned_index index_of bits m b)) as [[|]|]; discriminate.
Qed.
End PassCompletes.

Lemma replicate_false_lookup (n i : nat) :
  replicate n false !! i = Some false <-> (i < n)%nat.
Proof.
  split.
  - intros H. apply lookup_lt_Some in H. rewrite length_replicate in H. exact H.
  - intros H. apply lookup_replicate_2, H.
Qed.

Section TableCompletes.
Variable index_of : Z -> Magic -> Bitboard -> Z.
Variables (pt : PieceType) (bits : Z) (magics : list Magic).
Hypothesis bits_range : 0 <= bits.

Lemma run_fill_in_range (m : Magic) (s : Square) (l : list Bitboard) :
  (forall b, In b l -> unsigned_index index_of bits m b < 2 ^ bits) ->
  forall st,
  run_body (fill_slot index_of pt bits m s) l st <> AssertionFailed IndexInRange.
Proof.
  induction l as [|b l IH]; intros Hr [occured t]; cbn [run_body]; [discriminate|].
  destruct (fill_slot index_of pt bits m s b (occured, t)) as [st1|which|] eqn:Hb.
  - apply IH. intros b' Hb'. apply Hr. right. exact Hb'.
  - intros E. injection E as ->.
    unfold fill_slot in Hb. cbv zeta in Hb.
    pose proof (Hr b (or_introl eq_refl)) as Hlt. apply Z.ltb_lt in Hlt.
    rewrite Hlt in Hb.
    destruct (occured !! Z.to_nat (unsigned_index index_of bits m b)) as [[|]|];
      discriminate.
  - discriminate.
Qed.

Lemma fresh_slot (s : Square) (b : Bitboard) :
  unsigned_index index_of bits (magic_at magics s) b < 2 ^ bits ->
  replicate (slots bits) false
    !! Z.to_nat (unsigned_index index_of bits (magic_at magics s) b) = Some false.
Proof.
  intros Hr.
  pose proof (unsigned_index_nonneg index_of bits (magic_at magics s) b) as H0.
  apply replicate_false_lookup. unfold slots. lia.
Qed.

(** The outcome of the loop over the squares when the index stays below
    [1 << bits]: the fuel is enough, the range assertion holds, and the
    loop completes exactly when no pass meets a slot twice. *)
Lemma init_table_loop_done (squares : list Square) :
  (forall s, In s squares ->
     0 <= mask (magic_at magics s) < 2 ^ 64 /\
     (2 ^ popcount (mask (magic_at magics s)) <= slots bits)%nat /\
     (forall b, unsigned_index index_of bits (magic_at magics s) b < 2 ^ bits)) ->
  forall t,
  init_table_loop index_of (slots bits) pt bits magics squares t <> OutOfFuel /\
  init_table_loop index_of (slots bits) pt bits magics squares t
    <> AssertionFailed IndexInRange /\
  (is_done (init_table_loop index_of (slots bits) pt bits magics squares t) = true <->
   forall s, In s squares -> collision_free index_of bits magics s).
Proof.
  induction squares as [|s rest IH]; intros Hsq t; cbn [init_table_loop].
  - split; [discriminate|]. split; [discriminate|].
    split; [intros _ s []|reflexivity].
  - cbv zeta. fold (magic_at magics s).
    destruct (Hsq s (or_introl eq_refl)) as (Hm & Hf & Hr).
    rewrite carry_rippler_spec by assumption.
    pose proof (run_fill_done index_of pt bits (magic_at magics s) s
                  (subsets (mask (magic_at magics s)))
                  (replicate (slots bits) false) t) as Hiff.
    pose proof (run_fill_no_fuel index_of pt bits (magic_at magics s) s
                  (subsets (mask (magic_at magics s)))
                  (replicate (slots bits) false, t)) as Hnf.
    pose proof (run_fill_in_range (magic_at magics s) s
                  (subsets (mask (magic_at magics s))) (fun b _ => Hr b)
                  (replicate (slots bits) false, t)) as Hir.
    destruct (run_body (fill_slot index_of pt bits (magic_at magics s) s)
                (subsets (mask (magic_at magics s)))
                (replicate (slots bits) false, t)) as [[occ1 t1]|which|].
    + destruct (IH (fun s' Hs' => Hsq s' (or_intror Hs')) t1) as (IH1 & IH2 & IH3).
      split; [exact IH1|]. split; [exact IH2|]. rewrite IH3. split.
      * intros Hall s' [<-|Hs']; [apply Hiff; reflexivity | apply Hall, Hs'].
      * intros Hall s' Hs'. apply Hall. right. exact Hs'.
    + split; [discriminate|]. split.
      * intros E. apply Hir. injection E as ->. reflexivity.
      * split; [discriminate|]. intros Hall. exfalso.
        assert (Hd : is_done (@AssertionFailed (list bool * AttackTable) which) = true);
          [|discriminate].
        apply Hiff. split; [apply Hall; left; reflexivity|].
        intros b _. split; [apply Hr | apply fresh_slot, Hr].
    + contradiction.
Qed.
End TableCompletes.

(** ** Distances *)

(** Property X13: the distance stored in [SquareDistance] is symmetric,
    zero exactly for equal squares, at most 7, and satisfies the triangle
    inequality. *)
Theorem SquareDistance_metric (s1 s2 s3 : Square) :
  0 <= s1 < 64 -> 0 <= s2 < 64 -> 0 <= s3 < 64 ->
  SquareDistance s1 s2 = SquareDistance s2 s1 /\
  (SquareDistance s1 s2 = 0 <-> s1 = s2) /\
  0 <= SquareDistance s1 s2 <= 7 /\
  SquareDistance s1 s3 <= SquareDistance s1 s2 + SquareDistance s2 s3.
Proof.
  intros H1 H2 H3. unfold SquareDistance, distance_File, distance_Rank.
  rewrite !file_of_mod, !rank_of_div.
  pose proof (Z.div_mod s1 8 ltac:(lia)). pose proof (Z.mod_pos_bound s1 8 ltac:(lia)).
  pose proof (Z.div_mod s2 8 ltac:(lia)). pose proof (Z.mod_pos_bound s2 8 ltac:(lia)).
  pose proof (Z.div_mod s3 8 ltac:(lia)). pose proof (Z.mod_pos_bound s3 8 ltac:(lia)).
  repeat split; lia.
Qed.

Lemma SquareDistance_metric_witness :
  SquareDistance SQ_A1 SQ_H8 = SquareDistance SQ_H8 SQ_A1.
Proof.
  destruct (SquareDistance_metric SQ_A1 SQ_H8 SQ_D4 ltac:(unfold SQ_A1; lia)
              ltac:(unfold SQ_H8; lia) ltac:(unfold SQ_D4; lia)) as [H _].
  exact H.
Defined.

(** ** Population count *)

Lemma popcount_double (x : Z) (c : bool) :
  0 <= x -> popcount (2 * x + Z.b2z c) = (popcount x + Nat.b2n c)%nat.
Proof.
  intros Hx. destruct x as [|p|p]; [| |lia]; destruct c; simpl;
    rewrite ?Pos.mul_1_l; try reflexivity; lia.
Qed.

Lemma Z_bit_decompose (l : Z) :
  0 <= l -> exists l' c, l = 2 * l' + Z.b2z c /\ 0 <= l' /\ l' = l / 2 /\ c = Z.odd l.
Proof.
  intros Hl. exists (l / 2), (Z.odd l).
  pose proof (Z.div_mod l 2 ltac:(lia)) as El.
  pose proof (Z.mod_pos_bound l 2 ltac:(lia)) as Hb.
  assert (Ec : l mod 2 = Z.b2z (Z.odd l))
    by (rewrite Zmod_odd; destruct (Z.odd l); reflexivity).
  repeat split; lia.
Qed.

Lemma popcount_split (k : nat) : forall h l,
  0 <= h -> 0 <= l < 2 ^ Z.of_nat k ->
  popcount (h * 2 ^ Z.of_nat k + l) = (popcount h + popcount l)%nat.
Proof.
  induction k as [|k IH]; intros h l Hh Hl.
  - change (2 ^ Z.of_nat 0) with 1 in *. replace l with 0 by lia.
    rewrite Z.mul_1_r, Z.add_0_r. simpl. lia.
  - rewrite Nat2Z.inj_succ, Z.pow_succ_r in * by lia.
    destruct (Z_bit_decompose l ltac:(lia)) as (l' & c & -> & Hl' & _ & _).
    replace (h * (2 * 2 ^ Z.of_nat k) + (2 * l' + Z.b2z c))
      with (2 * (h * 2 ^ Z.of_nat k + l') + Z.b2z c) by lia.
    rewrite !popcount_double by nia.
    rewrite IH; [lia|assumption|]. destruct c; simpl in Hl; lia.
Qed.

Lemma popcount_bound (k : nat) : forall l,
  0 <= l < 2 ^ Z.of_nat k -> (popcount l <= k)%nat.
Proof.
  induction k as [|k IH]; intros l Hl.
  - change (2 ^ Z.of_nat 0) with 1 in *. replace l with 0 by lia. simpl. lia.
  - rewrite Nat2Z.inj_succ, Z.pow_succ_r in * by lia.
    destruct (Z_bit_decompose l ltac:(lia)) as (l' & c & -> & Hl' & _ & _).
    rewrite popcount_double by lia.
    assert (Hr : 0 <= l' < 2 ^ Z.of_nat k) by (destruct c; simpl in Hl; lia).
    specialize (IH l' Hr). destruct c; simpl; lia.
Qed.

Lemma set_bits_succ (k : nat) (l : Z) :
  0 <= l ->
  length (set_bits (S k) l) = (length (set_bits k (l / 2)) + Nat.b2n (Z.odd l))%nat.
Proof.
  intros Hl. unfold set_bits. rewrite <- cons_seq. cbn [List.filter].
  change (Z.of_nat 0) with 0. rewrite Z.bit0_odd.
  assert (E : length (List.filter (fun i => Z.testbit l (Z.of_nat i)) (seq 1 k))
              = length (List.filter (fun i => Z.testbit (l / 2) (Z.of_nat i)) (seq 0 k))).
  { rewrite <- seq_shift. generalize (seq 0 k) as xs.
    induction xs as [|x xs IH]; [reflexivity|]. cbn [map List.filter].
    replace (Z.testbit l (Z.of_nat (S x))) with (Z.testbit (l / 2) (Z.of_nat x)).
    - destruct (Z.testbit (l / 2) (Z.of_nat x)); cbn [length]; rewrite IH; reflexivity.
    - rewrite Nat2Z.inj_succ. rewrite <- Z.div2_div, Z.div2_spec.
      rewrite Z.shiftr_spec by lia. f_equal; lia. }
  destruct (Z.odd l); cbn [length Nat.b2n]; rewrite E; lia.
Qed.

Lemma popcount_set_bits (k : nat) : forall l,
  0 <= l < 2 ^ Z.of_nat k -> popcount l = length (set_bits k l).
Proof.
  induction k as [|k IH]; intros l Hl.
  - change (2 ^ Z.of_nat 0) with 1 in *. replace l with 0 by lia. reflexivity.
  - rewrite Nat2Z.inj_succ, Z.pow_succ_r in * by lia.
    rewrite set_bits_succ by lia.
    destruct (Z_bit_decompose l ltac:(lia)) as (l' & c & E & Hl' & El' & Ec).
    rewrite <- El', <- Ec.
    assert (Hr : 0 <= l' < 2 ^ Z.of_nat k) by (destruct c; simpl in E; lia).
    rewrite <- IH by exact Hr. rewrite E at 1. apply popcount_double, Hl'.
Qed.

(** Property X14: for every 16-bit value the entry of [PopCnt16] is the
    number of set bits of the value; it is at most 16, so the cast to 8 bits
    loses nothing. *)
Theorem PopCnt16_counts_bits (i : Z) :
  0 <= i < 2 ^ 16 ->
  PopCnt16 i = Z.of_nat (length (set_bits 16 i)) /\ 0 <= PopCnt16 i <= 16.
Proof.
  intros Hi. unfold PopCnt16. rewrite (Z.mod_small i) by assumption.
  pose proof (popcount_bound 16 i Hi) as Hb.
  rewrite Z.mod_small by (change (2 ^ 8) with 256; lia).
  rewrite (popcount_set_bits 16 i Hi) in *. lia.
Qed.

Lemma PopCnt16_counts_bits_witness :
  PopCnt16 0xFFFF = Z.of_nat (length (set_bits 16 0xFFFF)).
Proof.
  destruct (PopCnt16_counts_bits 0xFFFF ltac:(lia)) as [H _]. exact H.
Defined.

(** Property X15: the entries of [PopCnt16] of the four 16-bit words of a
    64-bit bitboard add up to the number of set bits of the bitboard. *)
Theorem PopCnt16_assembles_popcount (b : Bitboard) :
  0 <= b < 2 ^ 64 ->
  PopCnt16 (Z.land b 0xFFFF)
  + PopCnt16 (Z.land (Z.shiftr b 16) 0xFFFF)
  + PopCnt16 (Z.land (Z.shiftr b 32) 0xFFFF)
  + PopCnt16 (Z.shiftr b 48)
  = Z.of_nat (popcount b) /\
  Z.of_nat (popcount b) = Z.of_nat (length (set_bits 64 b)).
Proof.
  intros Hb. split; [|rewrite (popcount_set_bits 64 b Hb); reflexivity].
  change 0xFFFF with (Z.ones 16). rewrite !Z.land_ones, !Z.shiftr_div_pow2 by lia.
  set (w0 := b mod 2 ^ 16). set (w1 := (b / 2 ^ 16) mod 2 ^ 16).
  set (w2 := (b / 2 ^ 32) mod 2 ^ 16). set (w3 := b / 2 ^ 48).
  assert (H0 : 0 <= w0 < 2 ^ 16) by (apply Z.mod_pos_bound; lia).
  assert (H1 : 0 <= w1 < 2 ^ 16) by (apply Z.mod_pos_bound; lia).
  assert (H2 : 0 <= w2 < 2 ^ 16) by (apply Z.mod_pos_bound; lia).
  assert (H3 : 0 <= w3 < 2 ^ 16).
  { unfold w3. split; [apply Z.div_pos; lia|].
    apply Z.div_lt_upper_bound; [lia|]. change (2 ^ 48 * 2 ^ 16) with (2 ^ 64). lia. }
  assert (E : b = ((w3 * 2 ^ 16 + w2) * 2 ^ 16 + w1) * 2 ^ 16 + w0).
  { unfold w0, w1, w2, w3.
    change (2 ^ 32) with (2 ^ 16 * 2 ^ 16). change (2 ^ 48) with (2 ^ 16 * 2 ^ 16 * 2 ^ 16).
    rewrite <- !Z.div_div by lia.
    pose proof (Z.div_mod b (2 ^ 16) ltac:(lia)).
    pose proof (Z.div_mod (b / 2 ^ 16) (2 ^ 16) ltac:(lia)).
    pose proof (Z.div_mod (b / 2 ^ 16 / 2 ^ 16) (2 ^ 16) ltac:(lia)).
    pose proof (Z.mod_small (b / 2 ^ 16 / 2 ^ 16 / 2 ^ 16) (2 ^ 16)).
    lia. }
  unfold PopCnt16.
  rewrite !(Z.mod_small _ (2 ^ 16)) by assumption.
  pose proof (popcount_bound 16 w0 H0). pose proof (popcount_bound 16 w1 H1).
  pose proof (popcount_bound 16 w2 H2). pose proof (popcount_bound 16 w3 H3).
  rewrite !(Z.mod_small _ (2 ^ 8)) by (change (2 ^ 8) with 256; lia).
  clearbody w0 w1 w2 w3. rewrite E.
  pose proof (popcount_split 16 ((w3 * 2 ^ 16 + w2) * 2 ^ 16 + w1) w0 ltac:(nia) H0) as P0.
  pose proof (popcount_split 16 (w3 * 2 ^ 16 + w2) w1 ltac:(nia) H1) as P1.
  pose proof (popcount_split 16 w3 w2 ltac:(lia) H2) as P2.
  change (Z.of_nat 16) with 16 in P0, P1, P2.
  rewrite P0, P1, P2. lia.
Qed.

Lemma PopCnt16_assembles_popcount_witness :
  PopCnt16 (Z.land 0x8000000100010001 0xFFFF)
  + PopCnt16 (Z.land (Z.shiftr 0x8000000100010001 16) 0xFFFF)
  + PopCnt16 (Z.land (Z.shiftr 0x8000000100010001 32) 0xFFFF)
  + PopCnt16 (Z.shiftr 0x8000000100010001 48)
  = Z.of_nat (popcount 0x8000000100010001).
Proof.
  destruct (PopCnt16_assembles_popcount 0x8000000100010001 ltac:(lia)) as [H _].
  exact H.
Defined.

(** ** Order of the subset enumeration *)







Lemma string_length_append (s1 s2 : string) :
  String.length (s1 ++ s2) = (String.length s1 + String.length s2)%nat.
Proof. induction s1 as [|c s1 IH]; simpl; [reflexivity|]. rewrite IH. reflexivity. Qed.

Lemma string_append_assoc (s1 s2 s3 : string) :
  ((s1 ++ s2) ++ s3 = s1 ++ (s2 ++ s3))%string.
Proof. induction s1 as [|c s1 IH]; simpl; [reflexivity|]. rewrite IH. reflexivity. Qed.

Lemma string_append_nil_r (s : string) : (s ++ "")%string = s.
Proof. induction s as [|c s IH]; simpl; [reflexivity|]. rewrite IH. reflexivity. Qed.

Lemma fold_append {A : Type} (g : A -> string) (l : list A) (s0 : string) :
  fold_left (fun s x => (s ++ g x)%string) l s0
  = (s0 ++ concat_strings (map g l))%string.
Proof.
  revert s0. induction l as [|x l IH]; intros s0; cbn [fold_left map concat_strings fold_right].
  - rewrite string_append_nil_r. reflexivity.
  - rewrite IH, string_append_assoc. reflexivity.
Qed.

(** Reading inside a concatenation of blocks of equal width. *)
Lemma get_block {A : Type} (g : A -> string) (w : nat) (l : list A) (rest : string) :
  (forall x, In x l -> String.length (g x) = w) ->
  forall (i j : nat) (x : A),
  nth_error l i = Some x -> (j < w)%nat ->
  String.get (i * w + j) (concat_strings (map g l) ++ rest) = String.get j (g x).
Proof.
  induction l as [|y l IH]; intros Hw i j x Hi Hj.
  - destruct i; discriminate.
  - cbn [map concat_strings fold_right]. fold (concat_strings (map g l)).
    rewrite string_append_assoc. destruct i as [|i].
    + injection Hi as ->. simpl. symmetry. apply append_correct1.
      rewrite Hw by (left; reflexivity). exact Hj.
    + cbn [nth_error] in Hi.
      replace (S i * w + j)%nat with ((i * w + j) + String.length (g y))%nat
        by (rewrite Hw by (left; reflexivity); lia).
      rewrite <- append_correct2.
      apply IH; [intros z Hz; apply Hw; right; exact Hz | exact Hi | exact Hj].
Qed.

Lemma concat_length_fixed {A : Type} (g : A -> string) (w : nat) (l : list A) :
  (forall x, In x l -> String.length (g x) = w) ->
  String.length (concat_strings (map g l)) = (length l * w)%nat.
Proof.
  induction l as [|y l IH]; intros Hw; [reflexivity|].
  cbn [map concat_strings fold_right length]. fold (concat_strings (map g l)).
  rewrite string_length_append, Hw by (left; reflexivity).
  rewrite IH by (intros z Hz; apply Hw; right; exact Hz). lia.
Qed.

Lemma fold_left_pointwise {A B : Type} (f g : A -> B -> A) (l : list B) :
  (forall a x, f a x = g a x) -> forall a, fold_left f l a = fold_left g l a.
Proof.
  intros H. induction l as [|x l IH]; intros a; cbn [fold_left]; [reflexivity|].
  rewrite H. apply IH.
Qed.

Lemma pretty_unfold (b : Bitboard) :
  pretty b = (rule ++ (concat_strings (map (pretty_line b) ranks_down)
                      ++ ("  a   b   c   d   e   f   g   h" ++ nl)))%string.
Proof.
  unfold pretty. cbv zeta.
  rewrite (fold_left_pointwise _ (fun s r => (s ++ pretty_line b r)%string)).
  - rewrite fold_append, string_append_assoc. reflexivity.
  - intros s r. rewrite fold_append, string_append_assoc. reflexivity.
Qed.

Lemma pretty_cell_length (b : Bitboard) (f r : Z) :
  String.length (pretty_cell b f r) = 4%nat.
Proof. unfold pretty_cell. destruct (negb _); reflexivity. Qed.

Lemma pretty_line_length (b : Bitboard) (r : Z) :
  In r ranks_down -> String.length (pretty_line b r) = 70%nat.
Proof.
  intros Hr. unfold pretty_line.
  rewrite string_length_append, (concat_length_fixed _ 4)
    by (intros f _; apply pretty_cell_length).
  unfold ranks_down in Hr. simpl in Hr.
  repeat (destruct Hr as [<-|Hr]; [reflexivity|]). destruct Hr.
Qed.

Lemma make_square_spec (f r : Z) : make_square f r = 8 * r + f.
Proof. unfold make_square. rewrite Z.shiftl_mul_pow2 by lia. change (2 ^ 3) with 8. lia. Qed.

Lemma files_nth (f : Z) : 0 <= f <= 7 -> nth_error files_up (Z.to_nat f) = Some f.
Proof.
  intros Hf.
  assert (E : f = 0 \/ f = 1 \/ f = 2 \/ f = 3 \/ f = 4 \/ f = 5 \/ f = 6 \/ f = 7) by lia.
  repeat (destruct E as [->|E]; [reflexivity|]). subst f. reflexivity.
Qed.

Lemma ranks_nth (r : Z) : 0 <= r <= 7 -> nth_error ranks_down (Z.to_nat (7 - r)) = Some r.
Proof.
  intros Hr.
  assert (E : r = 0 \/ r = 1 \/ r = 2 \/ r = 3 \/ r = 4 \/ r = 5 \/ r = 6 \/ r = 7) by lia.
  repeat (destruct E as [->|E]; [reflexivity|]). subst r. reflexivity.
Qed.

Lemma pretty_mark (b : Bitboard) (f r : Z) :
  0 <= f <= 7 -> 0 <= r <= 7 ->
  String.get (mark_offset f r) (pretty b)
  = Some (if Z.testbit b (8 * r + f) then "X"%char else " "%char).
Proof.
  intros Hf Hr. rewrite pretty_unfold. unfold mark_offset.
  replace (34 + 70 * Z.to_nat (7 - r) + 4 * Z.to_nat f + 2)%nat
    with ((Z.to_nat (7 - r) * 70 + (Z.to_nat f * 4 + 2)) + String.length rule)%nat
    by (change (String.length rule) with 34%nat; lia).
  rewrite <- append_correct2.
  rewrite (get_block (pretty_line b) 70 ranks_down _ (pretty_line_length b)
             (Z.to_nat (7 - r)) (Z.to_nat f * 4 + 2) r (ranks_nth r Hr)) by lia.
  unfold pretty_line.
  rewrite (get_block (fun f => pretty_cell b f r) 4 files_up _
             (fun x _ => pretty_cell_length b x r)
             (Z.to_nat f) 2 f (files_nth f Hf)) by lia.
  unfold pretty_cell. rewrite make_square_spec, bb_and_sq_testbit by lia.
  rewrite negb_involutive. destruct (Z.testbit b (8 * r + f)); reflexivity.
Qed.

(** Property X17: the rendering of a bitboard always has 626 characters,
    and the character at the place of square (file f, rank r) is an X exactly
    when the bitboard contains that square, and a blank otherwise. *)
Theorem pretty_marks_squares (b : Bitboard) :
  String.length (pretty b) = 626%nat /\
  (forall f r, 0 <= f <= 7 -> 0 <= r <= 7 ->
     String.get (mark_offset f r) (pretty b)
     = Some (if Z.testbit b (8 * r + f) then "X"%char else " "%char)).
Proof.
  split; [|intros f r; apply pretty_mark].
  rewrite pretty_unfold, !string_length_append.
  rewrite (concat_length_fixed _ 70) by (apply pretty_line_length). reflexivity.
Qed.

(** Property X18: two 64-bit bitboards with the same rendering are equal.
    *)
Theorem pretty_injective (b b' : Bitboard) :
  0 <= b < 2 ^ 64 -> 0 <= b' < 2 ^ 64 ->
  pretty b = pretty b' -> b = b'.
Proof.
  intros Hb Hb' E. apply Z.bits_inj'. intros i Hi.
  destruct (Z.lt_ge_cases i 64) as [Hlt|Hge].
  - pose proof (pretty_mark b (i mod 8) (i / 8)) as M.
    pose proof (pretty_mark b' (i mod 8) (i / 8)) as M'.
    pose proof (Z.div_mod i 8 ltac:(lia)). pose proof (Z.mod_pos_bound i 8 ltac:(lia)).
    replace (8 * (i / 8) + i mod 8) with i in M, M' by lia.
    rewrite E in M. rewrite M' in M by lia.
    specialize (M ltac:(lia) ltac:(lia)).
    destruct (Z.testbit b i), (Z.testbit b' i); try reflexivity; discriminate.
  - rewrite !testbit_above_64 by assumption. reflexivity.
Qed.

Lemma pretty_marks_squares_witness :
  String.get (mark_offset 0 0) (pretty 0x1) = Some "X"%char.
Proof.
  destruct (pretty_marks_squares 0x1) as [_ H].
  apply (H 0 0); lia.
Defined.

Lemma pretty_injective_witness : 0x1 = 0x1.
Proof.
  apply (pretty_injective 0x1 0x1); [lia | lia | reflexivity].
Defined.

(** ** The magic index and the tables built with it *)

Lemma multiply_shift_range (bits b multiplier : Z) :
  0 <= bits <= 64 -> 0 <= multiply_shift bits b multiplier < 2 ^ bits.
Proof.
  intros Hb. unfold multiply_shift.
  pose proof (Z.mod_pos_bound (b * multiplier) (2 ^ 64) ltac:(lia)) as Hm.
  split; [apply Z.shiftr_nonneg; lia|].
  rewrite Z.shiftr_div_pow2 by lia.
  apply Z.div_lt_upper_bound; [apply Z.pow_pos_nonneg; lia|].
  rewrite <- Z.pow_add_r by lia. replace (64 - bits + bits) with 64 by lia. lia.
Qed.

Lemma pext_range (b mask : Bitboard) :
  0 <= b -> 0 <= pext b mask < 2 ^ Z.of_nat (popcount mask).
Proof.
  intros Hb. destruct mask as [|m|m]; cbn [pext popcount Z.of_nat].
  - change (2 ^ 0) with 1. lia.
  - apply pext_pos_bound, Hb.
  - change (2 ^ 0) with 1. lia.
Qed.

Lemma index_in_range (e : Extraction) (bits : Z) (m : Magic)
    (occupied : Bitboard) :
  0 <= bits <= 64 -> 0 <= mask m -> Z.of_nat (popcount (mask m)) <= bits ->
  0 <= index e bits m occupied < 2 ^ bits.
Proof.
  intros Hb Hm Hp. unfold index. cbv zeta. destruct e.
  - apply multiply_shift_range, Hb.
  - assert (H0 : 0 <= Z.land occupied (mask m))
      by (apply Z.land_nonneg; right; exact Hm).
    pose proof (pext_range _ (mask m) H0) as Hr.
    assert (2 ^ Z.of_nat (popcount (mask m)) <= 2 ^ bits)
      by (apply Z.pow_le_mono_r; lia).
    lia.
Qed.


Lemma multiply_shift_index_mask_idem (bits : Z) (m : Magic)
    (occupied : Bitboard) :
  multiply_shift_index bits m (Z.land occupied (mask m))
  = multiply_shift_index bits m occupied.
Proof.
  unfold multiply_shift_index. rewrite <- Z.land_assoc, Z.land_diag. reflexivity.
Qed.

Lemma bits_of_cases (pt : PieceType) : bits_of pt = 12 \/ bits_of pt = 9.
Proof.
  unfold bits_of. destruct (PieceType_eqb pt ROOK); [left|right]; reflexivity.
Qed.

Lemma source_mask (pt : PieceType) (s : Square) :
  pt = ROOK \/ pt = BISHOP -> 0 <= s < 64 ->
  mask (magic_at (magics_of pt) s) = relevant_mask pt s.
Proof.
  intros Hpt Hs.
  pose proof (forall_sliders_squares _ masks_as_source pt s Hpt Hs) as H.
  unfold mask_as_source in H.
  apply andb_true_iff in H. destruct H as [H _].
  apply andb_true_iff in H. destruct H as [H _]. apply Z.eqb_eq, H.
Qed.

Lemma relevant_mask_popcount (pt : PieceType) (s : Square) :
  pt = ROOK \/ pt = BISHOP -> 0 <= s < 64 ->
  Z.of_nat (popcount (relevant_mask pt s)) <= bits_of pt.
Proof.
  intros Hpt Hs.
  pose proof (forall_sliders_squares _ mask_shapes_checked pt s Hpt Hs) as H.
  unfold mask_shape_check in H. cbv zeta in H.
  apply andb_true_iff in H. destruct H as [H _].
  apply andb_true_iff in H. destruct H as [H _]. apply Z.leb_le in H.
  rewrite source_mask in H by assumption. exact H.
Qed.


(** *** The builder over an index function that stays below [1 << bits] *)

Section MagicTables.
Variable index_of : Z -> Magic -> Bitboard -> Z.
Variables (pt : PieceType) (magics : list Magic).
Hypothesis Hpt : pt = ROOK \/ pt = BISHOP.
Hypothesis Hmask :
  forall s, 0 <= s < 64 -> mask (magic_at magics s) = relevant_mask pt s.
Hypothesis Hrange :
  forall s b, 0 <= s < 64 ->
    0 <= index_of (bits_of pt) (magic_at magics s) b < 2 ^ bits_of pt.

Lemma unsigned_index_small (s : Square) (b : Bitboard) :
  0 <= s < 64 ->
  unsigned_index index_of (bits_of pt) (magic_at magics s) b
  = index_of (bits_of pt) (magic_at magics s) b.
Proof.
  intros Hs. unfold unsigned_index. apply Z.mod_small.
  pose proof (Hrange s b Hs) as Hr.
  assert (2 ^ bits_of pt <= 2 ^ 32)
    by (apply Z.pow_le_mono_r; destruct (bits_of_cases pt); lia).
  lia.
Qed.

Lemma collision_free_iff (s : Square) :
  0 <= s < 64 ->
  collision_free index_of (bits_of pt) magics s <->
  List.NoDup (map (index_of (bits_of pt) (magic_at magics s))
                  (subsets (relevant_mask pt s))).
Proof.
  intros Hs. unfold collision_free. rewrite (Hmask s Hs).
  rewrite (map_ext_in _ _ _ (fun b _ => unsigned_index_small s b Hs)).
  reflexivity.
Qed.

Lemma init_table_outcome :
  init_table index_of pt (bits_of pt) magics <> OutOfFuel /\
  init_table index_of pt (bits_of pt) magics <> AssertionFailed IndexInRange /\
  (is_done (init_table index_of pt (bits_of pt) magics) = true <->
   forall s, 0 <= s < 64 ->
     List.NoDup (map (index_of (bits_of pt) (magic_at magics s))
                     (subsets (relevant_mask pt s)))).
Proof.
  unfold init_table.
  assert (Hb : 0 <= bits_of pt) by (destruct (bits_of_cases pt); lia).
  destruct (init_table_loop_done index_of pt (bits_of pt) magics Hb all_squares)
    with (t := replicate (Z.to_nat SQUARE_NB) (replicate (slots (bits_of pt)) 0))
    as (Hnf & Hir & Hiff).
  { intros s Hs. apply all_squares_spec in Hs. rewrite Hmask by assumption.
    split; [apply relevant_mask_range; assumption|]. split.
    - rewrite <- source_mask by assumption. apply mask_fits_row; assumption.
    - intros b. rewrite unsigned_index_small by assumption. apply Hrange, Hs. }
  split; [exact Hnf|]. split; [exact Hir|]. rewrite Hiff. split.
  - intros Hall s Hs. apply (collision_free_iff s Hs), Hall, all_squares_spec, Hs.
  - intros Hall s Hs. apply all_squares_spec in Hs.
    apply (collision_free_iff s Hs), Hall, Hs.
Qed.

(** A table that the builder completed holds the oracle's attack set in
    the slot of every subset of the relevant mask. *)
Lemma table_slots_oracle (table : AttackTable) (s : Square) :
  init_table index_of pt (bits_of pt) magics = Done table ->
  0 <= s < 64 ->
  forall subset, 0 <= subset -> Z.land subset (relevant_mask pt s) = subset ->
    table_get table s (index_of (bits_of pt) (magic_at magics s) subset)
    = sliding_attack pt s subset.
Proof.
  intros Hinit Hs. unfold init_table in Hinit.
  apply init_table_loop_inv in Hinit.
  - destruct Hinit as [Hrows _].
    destruct (Hrows s (proj2 (all_squares_spec s) Hs)) as [Hval _].
    rewrite Hmask in Hval by assumption.
    pose proof (relevant_mask_range pt s Hpt Hs) as Hr.
    intros subset H0 Hsub. rewrite <- (unsigned_index_small s subset Hs).
    apply Hval. apply subsets_In; [lia|]. split; assumption.
  - apply all_squares_NoDup.
  - intros s' Hs'. apply all_squares_spec in Hs'. split; [lia|].
    rewrite Hmask by assumption. apply relevant_mask_range; assumption.
  - intros s' Hs'. apply all_squares_spec in Hs'.
    exists (replicate (slots (bits_of pt)) 0). split; [|apply length_replicate].
    apply lookup_replicate_2. unfold SQUARE_NB. lia.
Qed.

(** A lookup reads the slot of the occupancy reduced to the relevant mask. *)
Lemma table_lookup_masked (table : AttackTable) (s : Square)
    (occupied : Bitboard) :
  (forall occ,
     index_of (bits_of pt) (magic_at magics s)
              (Z.land occ (mask (magic_at magics s)))
     = index_of (bits_of pt) (magic_at magics s) occ) ->
  init_table index_of pt (bits_of pt) magics = Done table ->
  0 <= s < 64 ->
  attacks_bb_table index_of (bits_of pt) magics table s occupied
  = sliding_attack pt s (Z.land occupied (relevant_mask pt s)).
Proof.
  intros Hidem Hinit Hs. unfold attacks_bb_table. fold (magic_at magics s).
  rewrite <- Hidem. rewrite (Hmask s Hs).
  pose proof (relevant_mask_range pt s Hpt Hs) as Hr.
  apply table_slots_oracle; [assumption|assumption| |].
  - apply Z.land_nonneg. right. lia.
  - rewrite <- Z.land_assoc, Z.land_diag. reflexivity.
Qed.
End MagicTables.

(** *** The oracle on an occupancy reduced to the relevant mask *)




(** *** Reversal of a 64-bit word *)







(** *** The multipliers in reverse square order *)

Lemma index_fast_eq (bits : Z) (m : Magic) (occupied : Bitboard) :
  index_fast bits m occupied = multiply_shift_index bits m occupied.
Proof.
  unfold index_fast, multiply_shift_index, multiply_shift.
  rewrite Z.land_ones by lia. reflexivity.
Qed.

Lemma check_run_distinct (bits : Z) (m : Magic) (l : list Bitboard) :
  forall seen seen',
  run_body (check_slot bits m) l seen = Done seen' ->
  List.NoDup (map (multiply_shift_index bits m) l) /\
  (forall b, In b l ->
     PositiveSet.mem (Z.to_pos (multiply_shift_index bits m b + 1)) seen = false).
Proof.
  induction l as [|b l IH]; intros seen seen' Hrun; cbn [run_body map] in *.
  - split; [apply List.NoDup_nil | intros b []].
  - unfold check_slot in Hrun at 1. cbv zeta in Hrun. rewrite index_fast_eq in Hrun.
    destruct (PositiveSet.mem (Z.to_pos (multiply_shift_index bits m b + 1)) seen)
      eqn:Hmem; [discriminate|].
    destruct (IH _ _ Hrun) as [Hnd Hfresh]. clear IH.
    assert (Hk : forall b', In b' l ->
              multiply_shift_index bits m b' <> multiply_shift_index bits m b /\
              PositiveSet.mem (Z.to_pos (multiply_shift_index bits m b' + 1)) seen
              = false).
    { intros b' Hb'. specialize (Hfresh b' Hb'). split.
      - intros E. rewrite E in Hfresh.
        assert (Ht : PositiveSet.mem (Z.to_pos (multiply_shift_index bits m b + 1))
                       (PositiveSet.add
                          (Z.to_pos (multiply_shift_index bits m b + 1)) seen) = true)
          by (apply PositiveSet.mem_spec, PositiveSet.add_spec; left; reflexivity).
        congruence.
      - apply not_true_is_false. intros Ht.
        assert (Ht' : PositiveSet.mem (Z.to_pos (multiply_shift_index bits m b' + 1))
                        (PositiveSet.add
                           (Z.to_pos (multiply_shift_index bits m b + 1)) seen) = true)
          by (apply PositiveSet.mem_spec, PositiveSet.add_spec; right;
              apply PositiveSet.mem_spec, Ht).
        congruence. }
    split.
    + constructor; [|exact Hnd]. intros Hin. apply in_map_iff in Hin.
      destruct Hin as (b' & E & Hb'). destruct (Hk b' Hb') as [Hne _]. contradiction.
    + intros b' [<-|Hb']; [exact Hmem | apply Hk, Hb'].
Qed.

Lemma pass_collision_free_spec (bits : Z) (magics : list Magic) (s : Square) :
  0 <= mask (magic_at magics s) < 2 ^ 64 ->
  pass_collision_free bits magics s = true ->
  List.NoDup (map (multiply_shift_index bits (magic_at magics s))
                  (subsets (mask (magic_at magics s)))).
Proof.
  intros Hm H. unfold pass_collision_free in H. cbv zeta in H.
  apply is_done_inv in H. destruct H as [seen H].
  apply carry_rippler_done in H; [|exact Hm].
  apply check_run_distinct in H. apply H.
Qed.

Lemma mirrored_passes_collision_free :
  forallb (fun pt => forallb (mirrored_collision_free pt) all_squares) sliders = true.
Proof. vm_compute. reflexivity. Qed.

Lemma mirrored_entries_checked :
  forallb (fun pt => forallb (mirrored_entry_check pt) all_squares) sliders = true.
Proof. vm_compute. reflexivity. Qed.

Lemma mirrored_entry (pt : PieceType) (s : Square) :
  pt = ROOK \/ pt = BISHOP -> 0 <= s < 64 ->
  mask (magic_at (mirrored_magics pt) s) = relevant_mask pt s /\
  magic (magic_at (mirrored_magics pt) s) = magic (magic_at (magics_of pt) (63 - s)).
Proof.
  intros Hpt Hs.
  pose proof (forall_sliders_squares _ mirrored_entries_checked pt s Hpt Hs) as H.
  unfold mirrored_entry_check in H. cbv zeta in H.
  apply andb_true_iff in H. destruct H as [H1 H2].
  apply Z.eqb_eq in H1. apply Z.eqb_eq in H2.
  rewrite source_mask in H1 by assumption. split; assumption.
Qed.

Lemma mirrored_mask (pt : PieceType) (s : Square) :
  pt = ROOK \/ pt = BISHOP -> 0 <= s < 64 ->
  mask (magic_at (mirrored_magics pt) s) = relevant_mask pt s.
Proof. intros Hpt Hs. apply (mirrored_entry pt s Hpt Hs). Qed.

Lemma mirrored_distinct (pt : PieceType) (s : Square) :
  pt = ROOK \/ pt = BISHOP -> 0 <= s < 64 ->
  List.NoDup (map (multiply_shift_index (bits_of pt) (magic_at (mirrored_magics pt) s))
                  (subsets (relevant_mask pt s))).
Proof.
  intros Hpt Hs. rewrite <- (mirrored_mask pt s Hpt Hs).
  apply pass_collision_free_spec.
  - rewrite mirrored_mask by assumption. apply relevant_mask_range; assumption.
  - apply (forall_sliders_squares _ mirrored_passes_collision_free pt s Hpt Hs).
Qed.

Lemma multiply_shift_index_range (pt : PieceType) (m : Magic) (b : Bitboard) :
  0 <= multiply_shift_index (bits_of pt) m b < 2 ^ bits_of pt.
Proof.
  unfold multiply_shift_index. apply multiply_shift_range.
  destruct (bits_of_cases pt); lia.
Qed.

(** *** The index of the source's descriptors is injective *)







(** With square [i] at bit [i] the multipliers do not fit the squares they
    are listed for: the first two subsets of the rook mask of A1 share
    index 0, and the second assertion of the builder fails for both
    lists. *)
Lemma multiply_shift_index_collides :
  let m := magic_at init_rook_magic SQ_A1 in
  (Z.land 2 (mask m) = 2 /\
   multiply_shift_index RookBits m 0 = 0 /\
   multiply_shift_index RookBits m 2 = 0) /\
  init_table multiply_shift_index ROOK RookBits init_rook_magic
    = AssertionFailed SlotUnused /\
  init_table multiply_shift_index BISHOP BishopBits init_bishop_magic
    = AssertionFailed SlotUnused.
Proof.
  split; [|split]; vm_compute; repeat split; reflexivity.
Qed.






(** Property X12: for descriptors with the masks of the source and any
    multipliers, and either extraction of the index, a pass of the builder
    never needs more than [1 << bits] iterations, the assertion
    [idx < (1 << bits)] never fails, and the builder completes exactly when
    for every square the indices of the subsets of its mask are pairwise
    distinct; when they are not, it is [assert(occured[idx] == false)] that
    fails. *)
Theorem init_table_completes_iff (e : Extraction) (pt : PieceType)
    (magics : list Magic) :
  pt = ROOK \/ pt = BISHOP ->
  (forall s, 0 <= s < 64 -> mask (magic_at magics s) = relevant_mask pt s) ->
  init_table (index e) pt (bits_of pt) magics <> OutOfFuel /\
  init_table (index e) pt (bits_of pt) magics <> AssertionFailed IndexInRange /\
  (is_done (init_table (index e) pt (bits_of pt) magics) = true <->
   forall s, 0 <= s < 64 ->
     List.NoDup (map (index e (bits_of pt) (magic_at magics s))
                     (subsets (relevant_mask pt s)))) /\
  (~ (forall s, 0 <= s < 64 ->
        List.NoDup (map (index e (bits_of pt) (magic_at magics s))
                        (subsets (relevant_mask pt s)))) ->
   init_table (index e) pt (bits_of pt) magics = AssertionFailed SlotUnused).
Proof.
  intros Hpt Hmask.
  assert (Hrange : forall s b, 0 <= s < 64 ->
            0 <= index e (bits_of pt) (magic_at magics s) b < 2 ^ bits_of pt).
  { intros s b Hs. pose proof (relevant_mask_range pt s Hpt Hs) as Hr.
    apply index_in_range.
    - destruct (bits_of_cases pt); lia.
    - rewrite Hmask by assumption. lia.
    - rewrite Hmask by assumption. apply relevant_mask_popcount; assumption. }
  destruct (init_table_outcome (index e) pt magics Hpt Hmask Hrange)
    as (Hnf & Hir & Hiff).
  split; [exact Hnf|]. split; [exact Hir|]. split; [exact Hiff|].
  intros Hdup.
  destruct (init_table (index e) pt (bits_of pt) magics) as [table|which|].
  - exfalso. apply Hdup, Hiff. reflexivity.
  - destruct which; [exfalso; apply Hir; reflexivity | reflexivity].
  - exfalso. apply Hnf. reflexivity.
Qed.

Lemma init_table_completes_iff_witness :
  init_table (index MultiplyShift) ROOK (bits_of ROOK) (magics_of ROOK)
  <> AssertionFailed IndexInRange.
Proof.
  destruct (init_table_completes_iff MultiplyShift ROOK (magics_of ROOK))
    as (_ & H & _).
  - left; reflexivity.
  - intros s Hs. apply source_mask; [left; reflexivity | exact Hs].
  - exact H.
Defined.

Lemma mirrored_done (pt : PieceType) :
  pt = ROOK \/ pt = BISHOP ->
  is_done (init_table multiply_shift_index pt (bits_of pt) (mirrored_magics pt))
  = true.
Proof.
  intros Hpt.
  apply (init_table_outcome multiply_shift_index pt (mirrored_magics pt) Hpt
           (fun s Hs => mirrored_mask pt s Hpt Hs)
           (fun s b _ => multiply_shift_index_range pt _ b)).
  intros s Hs. apply mirrored_distinct; assumption.
Qed.

(** Property X19: the multipliers of the source read in reverse square
    order (the descriptor of square [s] takes the multiplier listed for
    square [63 - s] and keeps the mask of [s]) make the builder complete
    for ROOK and for BISHOP with the multiply-shift index on the word as it
    is (square [i] at bit [i]): no two subsets of a relevant mask share an
    index, no assertion fails, and every lookup in the built table for an
    occupancy without the square itself equals [sliding_attack]. *)
Theorem mirrored_magics_build_tables (pt : PieceType) (s : Square) :
  pt = ROOK \/ pt = BISHOP -> 0 <= s < 64 ->
  let m := magic_at (mirrored_magics pt) s in
  mask m = mask (magic_at (magics_of pt) s) /\
  magic m = magic (magic_at (magics_of pt) (63 - s)) /\
  List.NoDup (map (multiply_shift_index (bits_of pt) m) (subsets (mask m))) /\
  exists table,
    init_table multiply_shift_index pt (bits_of pt) (mirrored_magics pt)
      = Done table /\
    forall occupied, Z.testbit occupied s = false ->
      attacks_bb_table multiply_shift_index (bits_of pt) (mirrored_magics pt)
                       table s occupied
      = sliding_attack pt s occupied.
Proof.
  intros Hpt Hs m. subst m.
  destruct (mirrored_entry pt s Hpt Hs) as [Hmask Hmul].
  split; [rewrite Hmask; symmetry; apply source_mask; assumption|].
  split; [exact Hmul|].
  split; [rewrite Hmask; apply (mirrored_distinct pt s Hpt Hs)|].
  destruct (is_done_inv _ (mirrored_done pt Hpt)) as [table Htable].
  exists table. split; [exact Htable|].
  intros occupied Hfree.
  rewrite (table_lookup_masked multiply_shift_index pt (mirrored_magics pt) Hpt
             (fun s Hs => mirrored_mask pt s Hpt Hs)
             (fun s b _ => multiply_shift_index_range pt _ b) table s occupied
             (fun occ => multiply_shift_index_mask_idem _ _ occ) Htable Hs).
  apply sliding_attack_relevant; assumption.
Qed.

Lemma mirrored_magics_build_tables_witness :
  magic (magic_at (mirrored_magics ROOK) SQ_A1)
  = magic (magic_at (magics_of ROOK) (63 - SQ_A1)).
Proof.
  destruct (mirrored_magics_build_tables ROOK SQ_A1) as (_ & H & _).
  - left; reflexivity.
  - unfold SQ_A1; lia.
  - exact H.
Defined.
